(** * The Spark pod initializer (pkg/initializer/initializer.go)

    A shallow embedding of the initializer control loop: the watch handlers,
    the worker loop over the rate-limited queue, the reconciliation of one
    pod (queued and inline path), the mutation steps and the registration
    of the InitializerConfiguration.

    Go pointers to pods are locations of a store of pod objects, so that
    "the copy is mutated, the original is not" is a statement about two
    locations.  Calls to collaborators (API server, work queue, glog) are
    recorded in a trace, and what the collaborators answer is read from a
    record of oracles. *)

From Stdlib Require Import Ascii.
From stdpp Require Import base option list strings gmap.

(** ** Kubernetes object model (the fields the initializer reads or writes) *)

Module metav1.

Record Status := { Message : string }.

(** metav1.Initializer *)
Record Initializer := { Name : string }.

(** metav1.Initializers: the pending list and the optional result. *)
Record Initializers := {
  Pending : list Initializer;
  Result : option Status
}.

Record OwnerReference := {
  APIVersion : string;
  Kind : string;
  RefName : string;
  UID : string;
  Controller : option bool
}.

End metav1.

Module apiv1.

Record Volume := { VolumeName : string; VolumeSource : string }.

Record VolumeMount := { MountName : string; MountPath : string }.

Record Container := {
  ContainerName : string;
  VolumeMounts : list VolumeMount;
  Env : list (string * string)
}.

(** apiv1.Pod with the embedded ObjectMeta promoted, as the source
    accesses it ([pod.Name], [pod.Labels], [pod.Initializers]), and the
    two fields of [pod.Spec] the initializer touches.  A nil
    [*metav1.Initializers] is [None]. *)
Record Pod := {
  Namespace : string;
  Name : string;
  Labels : gmap string string;
  Annotations : gmap string string;
  Initializers : option metav1.Initializers;
  OwnerReferences : list metav1.OwnerReference;
  Volumes : list Volume;
  Containers : list Container
}.

End apiv1.

Module v1alpha1.

Record Rule := {
  APIGroups : list string;
  APIVersions : list string;
  Resources : list string
}.

(** v1alpha1.Initializer: one entry of a registration record. *)
Record Initializer := { Name : string; Rules : list Rule }.

Record InitializerConfiguration := {
  ObjectName : string;
  Initializers : list Initializer
}.

End v1alpha1.

Abbreviation Pod := apiv1.Pod.

(** Field assignments through a pointer, one per assigned field. *)

Definition set_Pending (v : list metav1.Initializer)
    (i : metav1.Initializers) : metav1.Initializers :=
  {| metav1.Pending := v; metav1.Result := metav1.Result i |}.

Definition set_Initializers (v : option metav1.Initializers) (p : Pod) : Pod :=
  {| apiv1.Namespace := apiv1.Namespace p;
     apiv1.Name := apiv1.Name p;
     apiv1.Labels := apiv1.Labels p;
     apiv1.Annotations := apiv1.Annotations p;
     apiv1.Initializers := v;
     apiv1.OwnerReferences := apiv1.OwnerReferences p;
     apiv1.Volumes := apiv1.Volumes p;
     apiv1.Containers := apiv1.Containers p |}.

Definition set_OwnerReferences (v : list metav1.OwnerReference) (p : Pod) : Pod :=
  {| apiv1.Namespace := apiv1.Namespace p;
     apiv1.Name := apiv1.Name p;
     apiv1.Labels := apiv1.Labels p;
     apiv1.Annotations := apiv1.Annotations p;
     apiv1.Initializers := apiv1.Initializers p;
     apiv1.OwnerReferences := v;
     apiv1.Volumes := apiv1.Volumes p;
     apiv1.Containers := apiv1.Containers p |}.

Definition set_Volumes (v : list apiv1.Volume) (p : Pod) : Pod :=
  {| apiv1.Namespace := apiv1.Namespace p;
     apiv1.Name := apiv1.Name p;
     apiv1.Labels := apiv1.Labels p;
     apiv1.Annotations := apiv1.Annotations p;
     apiv1.Initializers := apiv1.Initializers p;
     apiv1.OwnerReferences := apiv1.OwnerReferences p;
     apiv1.Volumes := v;
     apiv1.Containers := apiv1.Containers p |}.

Definition set_Containers (v : list apiv1.Container) (p : Pod) : Pod :=
  {| apiv1.Namespace := apiv1.Namespace p;
     apiv1.Name := apiv1.Name p;
     apiv1.Labels := apiv1.Labels p;
     apiv1.Annotations := apiv1.Annotations p;
     apiv1.Initializers := apiv1.Initializers p;
     apiv1.OwnerReferences := apiv1.OwnerReferences p;
     apiv1.Volumes := apiv1.Volumes p;
     apiv1.Containers := v |}.

Definition set_ConfigInitializers (v : list v1alpha1.Initializer)
    (c : v1alpha1.InitializerConfiguration) : v1alpha1.InitializerConfiguration :=
  {| v1alpha1.ObjectName := v1alpha1.ObjectName c; v1alpha1.Initializers := v |}.

(** ** Constants of the package *)

Definition initializerName : string := "pod-initializer.spark-operator.k8s.io".
Definition initializerConfigName : string := "spark-pod-initializer-config".
Definition sparkRoleLabel : string := "spark-role".
Definition sparkDriverRole : string := "driver".
Definition sparkExecutorRole : string := "executor".

(** ** Errors *)

Inductive StatusReason := StatusReasonNotFound | StatusReasonAlreadyExists
  | StatusReasonConflict | StatusReasonUnknown.

(** Errors made by the collaborators: a status error of the API server, or
    an error of another library (deep copy, JSON, patch computation,
    protobuf). *)
Inductive ExtError :=
  | StatusError (reason : StatusReason) (message : string)
  | LibraryError (message : string).

(** A Go [error] value: one handed over by a collaborator, or one built by
    [fmt.Errorf] in this package from a format and its arguments. *)
Inductive error :=
  | External (e : ExtError)
  | Errorf (format : string) (args : list ErrArg)
with ErrArg :=
  | ArgString (s : string)
  | ArgError (e : error).

(** errors.IsNotFound *)
Definition IsNotFound (e : error) : bool :=
  match e with
  | External (StatusError StatusReasonNotFound _) => true
  | _ => false
  end.

(** ** Store, trace and the monad of the embedding *)

(** A [*apiv1.Pod]: nil or the location of a pod object. *)
Inductive ptr := nil_ptr | Ptr (l : nat).

(** A [*apiv1.Container] obtained as [&pod.Spec.Containers[i]]. *)
Record ContainerPtr := { OfPod : ptr; Index : nat }.

(** What arrives in a watch event: a [*apiv1.Pod] or a value of another
    dynamic type (for which the type assertion fails). *)
Inductive Object :=
  | PodObject (pod : ptr)
  | OtherObject (description : string).

Inductive Severity := INFO | WARNING | ERROR.

Inductive Event :=
  | Glog (severity : Severity) (format : string)
  | HandleError (e : error)
  | QueueGet
  | QueueAddRateLimited (key : string)
  | QueueForget (key : string)
  | QueueDone (key : string)
  | PodsGet (namespace name : string)
  | PodsUpdate (pod : Pod)
  | PodsPatch (namespace name : string) (patch : string)
  | ConfigGet (name : string)
  | ConfigCreate (c : v1alpha1.InitializerConfiguration)
  | ConfigUpdate (c : v1alpha1.InitializerConfiguration)
  | ConfigDelete (name : string).

Record State := {
  heap : list Pod;
  (** the InitializerConfiguration objects held by the API server *)
  configs : gmap string v1alpha1.InitializerConfiguration;
  trace : list Event
}.

Definition set_heap (h : list Pod) (st : State) : State :=
  {| heap := h; configs := configs st; trace := trace st |}.
Definition set_configs (c : gmap string v1alpha1.InitializerConfiguration)
    (st : State) : State :=
  {| heap := heap st; configs := c; trace := trace st |}.
Definition add_event (e : Event) (st : State) : State :=
  {| heap := heap st; configs := configs st; trace := trace st ++ [e] |}.

Inductive Outcome (A : Type) :=
  | Ret (a : A)
  | Panic (message : string).
Arguments Ret {A} a.
Arguments Panic {A} message.

Definition M (A : Type) : Type := State → Outcome A * State.

Global Instance M_ret : MRet M := λ A a st, (Ret a, st).
Global Instance M_bind : MBind M := λ A B f m st,
  match m st with
  | (Ret a, st') => f a st'
  | (Panic msg, st') => (Panic msg, st')
  end.

Definition panic {A} (msg : string) : M A := λ st, (Panic msg, st).
Definition emit (e : Event) : M unit := λ st, (Ret (), add_event e st).
Definition getState : M State := λ st, (Ret st, st).
Definition putConfigs (c : gmap string v1alpha1.InitializerConfiguration)
    : M unit := λ st, (Ret (), set_configs c st).

(** Reading through a pointer: a nil pointer panics. *)
Definition deref (p : ptr) : M Pod := λ st,
  match p with
  | nil_ptr => (Panic "invalid memory address or nil pointer dereference", st)
  | Ptr l =>
      match heap st !! l with
      | Some pod => (Ret pod, st)
      | None => (Panic "invalid memory address or nil pointer dereference", st)
      end
  end.

(** Writing through a pointer. *)
Definition store (p : ptr) (v : Pod) : M unit :=
  _ ← deref p;
  match p with
  | nil_ptr => mret ()
  | Ptr l => λ st, (Ret (), set_heap (<[l := v]> (heap st)) st)
  end.

(** A new object. *)
Definition alloc (v : Pod) : M ptr := λ st,
  (Ret (Ptr (length (heap st))), set_heap (heap st ++ [v]) st).

(** [defer]: the deferred call runs when the body returns or panics. *)
Definition defer {A} (deferred : M unit) (body : M A) : M A := λ st,
  match body st with
  | (r, st') =>
      match deferred st' with
      | (Ret _, st'') => (r, st'')
      | (Panic msg, st'') => (Panic msg, st'')
      end
  end.

Definition glog (severity : Severity) (format : string) : M unit :=
  emit (Glog severity format).

(** ** The pending list *)

(** isInitializerPresent, on the pod the pointer refers to. *)
Definition isInitializerPresent (pod : Pod) : bool :=
  match apiv1.Initializers pod with
  | None => false
  | Some inits =>
      existsb (λ pending, bool_decide (metav1.Name pending = initializerName))
              (metav1.Pending inits)
  end.

(** The loop of removeSelf: [updated] grows by [append]. *)
Definition removeSelf_loop (pending : list metav1.Initializer)
    : list metav1.Initializer :=
  fold_left (λ updated pending,
               if bool_decide (metav1.Name pending ≠ initializerName)
               then updated ++ [pending] else updated)
            pending [].

(** removeSelf *)
Definition removeSelf (pod : ptr) : M unit :=
  p ← deref pod;
  match apiv1.Initializers p with
  | None => mret ()
  | Some inits =>
      let updated := removeSelf_loop (metav1.Pending inits) in
      if bool_decide (0 < length updated)
         && bool_decide (length updated = length (metav1.Pending inits))
      then mret ()
      else
        (if bool_decide (length updated = 0)
         then store pod (set_Initializers None p)
         else store pod (set_Initializers (Some (set_Pending updated inits)) p));;
        glog INFO "Removed initializer on pod %s"
  end.

(** ** Queue keys *)

(** getQueueKey: [fmt.Sprintf("%s/%s", pod.Namespace, pod.Name)] *)
Definition getQueueKey (pod : Pod) : string :=
  apiv1.Namespace pod +:+ "/" +:+ apiv1.Name pod.

(** [strings.Split(s, sep)] for a separator of one byte, which is how the
    source calls it: the pieces of [s] between the occurrences of [sep],
    [n + 1] pieces for [n] occurrences. *)
Fixpoint Split (s : string) (sep : ascii) : list string :=
  match s with
  | EmptyString => [EmptyString]
  | String c s' =>
      if bool_decide (c = sep) then EmptyString :: Split s' sep
      else match Split s' sep with
           | piece :: pieces => String c piece :: pieces
           | [] => [String c EmptyString]
           end
  end.

Definition slash : ascii := "/"%char.

(** getNamespaceName *)
Definition getNamespaceName (key : string) : string * string * option error :=
  let parts := Split key slash in
  if bool_decide (length parts ≠ 2)
  then (EmptyString, EmptyString,
        Some (Errorf "malformed queue key %s" [ArgString key]))
  else (parts !!! 0, parts !!! 1, None).

(** isSparkPod, on the pod the pointer refers to. *)
Definition isSparkPod (pod : Pod) : bool :=
  match apiv1.Labels pod !! sparkRoleLabel with
  | Some sparkRole =>
      bool_decide (sparkRole = sparkDriverRole)
      || bool_decide (sparkRole = sparkExecutorRole)
  | None => false
  end.

(** A call [f(pod)] of a function that only reads the pod it is given: the
    first field access through a nil pointer panics. *)
Definition via {A} (pod : ptr) (f : Pod → A) : M A :=
  p ← deref pod; mret (f p).

(** [for _, x := range l { body }] *)
Fixpoint range {A} (l : list A) (body : A → M unit) : M unit :=
  match l with
  | [] => mret ()
  | x :: l' => body x;; range l' body
  end.

(** The type assertion of [obj] to a pod pointer, in its two-result form. *)
Definition assertPod (obj : Object) : ptr * bool :=
  match obj with
  | PodObject pod => (pod, true)
  | OtherObject _ => (nil_ptr, false)
  end.

(** ** The collaborators *)

(** Modelled from the spec: the packages pkg/config and pkg/secret, whose
    sources are not at hand.  Their constants and functions are
    parameters, typed by what the specification says of them: the
    resolvers are functions of the annotation map, a function that adds a
    volume to a pod acts on [pod.Spec.Volumes], and a function that mounts
    into a container acts on the container it is given.  A map of resource
    names to mount paths comes as the list of its entries in the order the
    [range] loop visits them. *)
Record ConfigPackage := {
  OwnerReferenceAnnotation : string;
  SparkConfigMapAnnotation : string;
  HadoopConfigMapAnnotation : string;
  DefaultSparkConfDir : string;
  DefaultHadoopConfDir : string;
  AddSparkConfigMapVolumeToPod :
    string → list apiv1.Volume → list apiv1.Volume * string;
  MountSparkConfigMapToContainer :
    string → string → apiv1.Container → apiv1.Container;
  AddHadoopConfigMapVolumeToPod :
    string → list apiv1.Volume → list apiv1.Volume * string;
  MountHadoopConfigMapToContainer :
    string → string → apiv1.Container → apiv1.Container;
  FindGeneralConfigMaps : gmap string string → list (string * string);
  AddConfigMapVolumeToPod :
    string → string → list apiv1.Volume → list apiv1.Volume;
  MountConfigMapToContainer :
    string → string → apiv1.Container → apiv1.Container
}.

Record SecretPackage := {
  ServiceAccountSecretVolumeName : string;
  FindGCPServiceAccountSecret : gmap string string → string * string * bool;
  AddSecretVolumeToPod :
    string → string → list apiv1.Volume → list apiv1.Volume;
  MountServiceAccountSecretToContainer :
    string → apiv1.Container → apiv1.Container;
  FindGeneralSecrets : gmap string string → list (string * string);
  MountSecretToContainer :
    string → string → apiv1.Container → apiv1.Container
}.

Inductive ConfigOp := OpGet | OpCreate | OpUpdate | OpDelete.

(** What the environment answers: the work queue, the pod API, the
    libraries, and the faults of the registration API. *)
Record World := {
  queue_Get : string * bool;
  pods_Get : string → string → ExtError + Pod;
  pods_Update : Pod → ExtError + Pod;
  pods_Patch : string → string → string → ExtError + Pod;
  DeepCopy_error : Pod → option ExtError;
  json_Marshal : Pod → ExtError + string;
  CreateTwoWayMergePatch : string → string → ExtError + string;
  OwnerReference_Unmarshal : string → metav1.OwnerReference * option ExtError;
  configs_fault : ConfigOp → option ExtError
}.

Definition emptyConfiguration : v1alpha1.InitializerConfiguration :=
  {| v1alpha1.ObjectName := EmptyString; v1alpha1.Initializers := [] |}.

Definition notFound (name : string) : error :=
  External (StatusError StatusReasonNotFound name).
Definition alreadyExists (name : string) : error :=
  External (StatusError StatusReasonAlreadyExists name).

Section Initializer.

Variable config : ConfigPackage.
Variable secret : SecretPackage.
Variable w : World.

(** [runtime.NewScheme().DeepCopy(pod)]: an error, or a new object with
    the contents of [pod] that shares nothing with it. *)
Definition DeepCopy (pod : ptr) : M (ptr * option error) :=
  p ← deref pod;
  match DeepCopy_error w p with
  | Some e => mret (nil_ptr, Some (External e))
  | None => copyObj ← alloc p; mret (copyObj, None)
  end.

(** [kubeClient.CoreV1().Pods(namespace).Get(name, ...)]; the object the
    client returns on success is a new one. *)
Definition Pods_Get (namespace name : string) : M (ptr * option error) :=
  emit (PodsGet namespace name);;
  match pods_Get w namespace name with
  | inl e => mret (nil_ptr, Some (External e))
  | inr p => pod ← alloc p; mret (pod, None)
  end.

(** [Pods(namespace).Update(pod)] *)
Definition Pods_Update (pod : ptr) : M (ptr * option error) :=
  p ← deref pod;
  emit (PodsUpdate p);;
  match pods_Update w p with
  | inl e => mret (nil_ptr, Some (External e))
  | inr p' => updated ← alloc p'; mret (updated, None)
  end.

(** [Pods(namespace).Patch(name, types.StrategicMergePatchType, patch)] *)
Definition Pods_Patch (namespace name patch : string)
    : M (ptr * option error) :=
  emit (PodsPatch namespace name patch);;
  match pods_Patch w namespace name patch with
  | inl e => mret (nil_ptr, Some (External e))
  | inr p' => patched ← alloc p'; mret (patched, None)
  end.

(** The InitializerConfigurations client, over the objects the API
    server holds: Get of an absent name is a not-found status error,
    Create of a present name and Update or Delete of an absent one are
    refused, and any call can fail with the fault the world injects. *)
Definition Configs_Get (name : string)
    : M (v1alpha1.InitializerConfiguration * option error) :=
  emit (ConfigGet name);;
  st ← getState;
  match configs_fault w OpGet with
  | Some e => mret (emptyConfiguration, Some (External e))
  | None =>
      match configs st !! name with
      | Some c => mret (c, None)
      | None => mret (emptyConfiguration, Some (notFound name))
      end
  end.

Definition Configs_Create (c : v1alpha1.InitializerConfiguration)
    : M (v1alpha1.InitializerConfiguration * option error) :=
  emit (ConfigCreate c);;
  st ← getState;
  match configs_fault w OpCreate with
  | Some e => mret (emptyConfiguration, Some (External e))
  | None =>
      match configs st !! v1alpha1.ObjectName c with
      | Some _ =>
          mret (emptyConfiguration, Some (alreadyExists (v1alpha1.ObjectName c)))
      | None =>
          putConfigs (<[v1alpha1.ObjectName c := c]> (configs st));;
          mret (c, None)
      end
  end.

Definition Configs_Update (c : v1alpha1.InitializerConfiguration)
    : M (v1alpha1.InitializerConfiguration * option error) :=
  emit (ConfigUpdate c);;
  st ← getState;
  match configs_fault w OpUpdate with
  | Some e => mret (emptyConfiguration, Some (External e))
  | None =>
      match configs st !! v1alpha1.ObjectName c with
      | None =>
          mret (emptyConfiguration, Some (notFound (v1alpha1.ObjectName c)))
      | Some _ =>
          putConfigs (<[v1alpha1.ObjectName c := c]> (configs st));;
          mret (c, None)
      end
  end.

Definition Configs_Delete (name : string) : M (option error) :=
  emit (ConfigDelete name);;
  st ← getState;
  match configs_fault w OpDelete with
  | Some e => mret (Some (External e))
  | None =>
      match configs st !! name with
      | None => mret (Some (notFound name))
      | Some _ =>
          putConfigs (delete name (configs st));;
          mret None
      end
  end.

(** A function of pkg/config or pkg/secret that adds a volume to the pod. *)
Definition addVolume {A} (f : list apiv1.Volume → list apiv1.Volume * A)
    (pod : ptr) : M A :=
  p ← deref pod;
  let '(volumes, a) := f (apiv1.Volumes p) in
  store pod (set_Volumes volumes p);;
  mret a.

(** [&pod.Spec.Containers[i]], with Go's bounds check. *)
Definition addressOfContainer (pod : ptr) (i : nat) : M ContainerPtr :=
  p ← deref pod;
  if bool_decide (i < length (apiv1.Containers p))
  then mret {| OfPod := pod; Index := i |}
  else panic "index out of range".

(** A function of pkg/config or pkg/secret that mounts into the container
    behind the pointer, which is an element of the pod's container
    list. *)
Definition mount (f : apiv1.Container → apiv1.Container)
    (container : ContainerPtr) : M unit :=
  p ← deref (OfPod container);
  match apiv1.Containers p !! Index container with
  | Some c =>
      store (OfPod container)
            (set_Containers (<[Index container := f c]> (apiv1.Containers p)) p)
  | None => panic "invalid memory address or nil pointer dereference"
  end.

(** ** The mutation steps *)

(** addOwnerReference *)
Definition addOwnerReference (pod : ptr) : M unit :=
  p ← deref pod;
  match apiv1.Annotations p !! OwnerReferenceAnnotation config with
  | Some ownerReferenceStr =>
      let '(ownerReference, err) :=
        OwnerReference_Unmarshal w ownerReferenceStr in
      (match err with
       | Some _ => glog ERROR "failed to add OwnerReference to Pod %s: %v"
       | None => mret ()
       end);;
      p ← deref pod;
      store pod
        (set_OwnerReferences (apiv1.OwnerReferences p ++ [ownerReference]) p)
  | None => mret ()
  end.

(** handleConfigMaps *)
Definition handleConfigMaps (pod : ptr) (container : ContainerPtr) : M unit :=
  p ← deref pod;
  (match apiv1.Annotations p !! SparkConfigMapAnnotation config with
   | Some sparkConfigMapName =>
       glog INFO "Mounting Spark ConfigMap %s to pod %s";;
       volumeName ←
         addVolume (AddSparkConfigMapVolumeToPod config sparkConfigMapName) pod;
       mount (MountSparkConfigMapToContainer config volumeName
                (DefaultSparkConfDir config)) container
   | None => mret ()
   end);;
  p ← deref pod;
  (match apiv1.Annotations p !! HadoopConfigMapAnnotation config with
   | Some hadoopConfigMapName =>
       glog INFO "Mounting Hadoop ConfigMap %s to pod %s";;
       volumeName ←
         addVolume (AddHadoopConfigMapVolumeToPod config hadoopConfigMapName) pod;
       mount (MountHadoopConfigMapToContainer config volumeName
                (DefaultHadoopConfDir config)) container
   | None => mret ()
   end);;
  p ← deref pod;
  let configMaps := FindGeneralConfigMaps config (apiv1.Annotations p) in
  range configMaps (λ '(name, mountPath),
    glog INFO "Mounting ConfigMap %s to pod %s";;
    let volumeName := name +:+ "-volume" in
    addVolume (λ vs, (AddConfigMapVolumeToPod config volumeName name vs, ())) pod;;
    mount (MountConfigMapToContainer config volumeName mountPath) container).

(** handleSecrets *)
Definition handleSecrets (pod : ptr) (container : ContainerPtr) : M unit :=
  p ← deref pod;
  let '(secretName, mountPath, found) :=
    FindGCPServiceAccountSecret secret (apiv1.Annotations p) in
  (if found then
     glog INFO "Mounting GCP service account secret %s to pod %s";;
     addVolume (λ vs, (AddSecretVolumeToPod secret
                         (ServiceAccountSecretVolumeName secret) secretName vs,
                       ())) pod;;
     mount (MountServiceAccountSecretToContainer secret mountPath) container
   else mret ());;
  p ← deref pod;
  let secrets := FindGeneralSecrets secret (apiv1.Annotations p) in
  range secrets (λ '(name, mountPath),
    glog INFO "Mounting secret %s to pod %s";;
    let volumeName := name +:+ "-volume" in
    addVolume (λ vs, (AddSecretVolumeToPod secret volumeName name vs, ())) pod;;
    mount (MountSecretToContainer secret volumeName mountPath) container).

(** ** Submitting *)

(** updatePod *)
Definition updatePod (newPod : ptr) : M (option error) :=
  _ ← deref newPod;
  glog INFO "Updating pod %s";;
  '(_, err) ← Pods_Update newPod;
  match err with
  | Some e => mret (Some e)
  | None => mret None
  end.

(** patchPod *)
Definition patchPod (originalPod modifiedPod : ptr) : M (ptr * option error) :=
  o ← deref originalPod;
  match json_Marshal w o with
  | inl e => mret (nil_ptr, Some (External e))
  | inr originalData =>
      m ← deref modifiedPod;
      match json_Marshal w m with
      | inl e => mret (nil_ptr, Some (External e))
      | inr modifiedData =>
          match CreateTwoWayMergePatch w originalData modifiedData with
          | inl e => mret (nil_ptr, Some (External e))
          | inr patch =>
              o ← deref originalPod;
              Pods_Patch (apiv1.Namespace o) (apiv1.Name o) patch
          end
      end
  end.

(** ** The two reconciliation paths *)

(** handleNonSparkPod *)
Definition handleNonSparkPod (pod : ptr) : M (option error) :=
  '(copyObj, err) ← DeepCopy pod;
  match err with
  | Some e => mret (Some e)
  | None =>
      let podCopy := copyObj in
      removeSelf podCopy;;
      updatePod podCopy
  end.

(** syncSparkPod.  The error of getNamespaceName is bound to [err] and
    the next statement assigns [err] again. *)
Definition syncSparkPod (key : string) : M (ptr * option error) :=
  let '(namespace, name, err) := getNamespaceName key in
  '(pod, err) ← Pods_Get namespace name;
  match err with
  | Some e =>
      if IsNotFound e then mret (nil_ptr, None) else mret (nil_ptr, Some e)
  | None =>
      _ ← deref pod;
      glog INFO "Processing Spark %s pod %s";;
      '(copyObj, err) ← DeepCopy pod;
      match err with
      | Some e => mret (nil_ptr, Some e)
      | None =>
          let modifiedPod := copyObj in
          m ← deref modifiedPod;
          if bool_decide (length (apiv1.Containers m) ≤ 0)
          then mret (nil_ptr,
                     Some (Errorf "no container found in Pod %s"
                             [ArgString (apiv1.Name m)]))
          else
            appContainer ← addressOfContainer modifiedPod 0;
            addOwnerReference modifiedPod;;
            handleConfigMaps modifiedPod appContainer;;
            handleSecrets modifiedPod appContainer;;
            removeSelf modifiedPod;;
            patchPod pod modifiedPod
      end
  end.

(** ** The watch handlers *)

(** onPodAdded *)
Definition onPodAdded (obj : Object) : M unit :=
  let '(pod, ok) := assertPod obj in
  if negb ok then glog ERROR "received non-pod object: %v"
  else
    present ← via pod isInitializerPresent;
    if (present : bool) then
      spark ← via pod isSparkPod;
      if (spark : bool) then
        key ← via pod getQueueKey;
        emit (QueueAddRateLimited key)
      else
        _ ← handleNonSparkPod pod; mret ()
    else mret ().

(** onPodDeleted *)
Definition onPodDeleted (obj : Object) : M unit :=
  let '(pod, ok) := assertPod obj in
  (if negb ok return M unit
   then glog ERROR "received non-pod object: %v" else mret ());;
  spark ← via pod isSparkPod;
  if (spark : bool) then
    _ ← deref pod;
    glog INFO "Spark %s pod %s was deleted, deleting it from the work queue";;
    key ← via pod getQueueKey;
    emit (QueueForget key);;
    emit (QueueDone key)
  else mret ().

(** ** The worker *)

(** The part of SparkPodInitializer that is not a collaborator. *)
Record SparkPodInitializer := {
  syncHandler : string → M (ptr * option error)
}.

(** New *)
Definition New : SparkPodInitializer := {| syncHandler := syncSparkPod |}.

(** processNextItem *)
Definition processNextItem (ic : SparkPodInitializer) : M bool :=
  emit QueueGet;;
  let '(key, quit) := queue_Get w in
  if quit then mret false
  else
    defer (emit (QueueDone key))
      ('(_, err) ← syncHandler ic key;
       match err with
       | None => emit (QueueForget key);; mret true
       | Some e =>
           emit (HandleError (Errorf "failed to sync pod %q: %v"
                                [ArgString key; ArgError e]));;
           emit (QueueAddRateLimited key);;
           mret true
       end).

(** ** Registration *)

Definition sparkPodInitializer : v1alpha1.Initializer :=
  {| v1alpha1.Name := initializerName;
     v1alpha1.Rules :=
       [ {| v1alpha1.APIGroups := ["*"];
            v1alpha1.APIVersions := ["*"];
            v1alpha1.Resources := ["pods"] |} ] |}.

Definition sparkPodInitializerConfig : v1alpha1.InitializerConfiguration :=
  {| v1alpha1.ObjectName := initializerConfigName;
     v1alpha1.Initializers := [sparkPodInitializer] |}.

(** The search loop of addInitializationConfig. *)
Definition findSelf (initializers : list v1alpha1.Initializer) : bool :=
  existsb (λ initializer,
             bool_decide (v1alpha1.Name initializer = initializerName))
          initializers.

(** addInitializationConfig *)
Definition addInitializationConfig : M (option error) :=
  '(existingConfig, err) ← Configs_Get initializerConfigName;
  match err with
  | Some e =>
      if IsNotFound e then
        '(_, err) ← Configs_Create sparkPodInitializerConfig;
        match err with
        | Some e =>
            mret (Some (Errorf "failed to create InitializerConfiguration: %v"
                          [ArgError e]))
        | None => mret None
        end
      else
        mret (Some (Errorf "failed to get InitializerConfiguration: %v"
                      [ArgError e]))
  | None =>
      let found := findSelf (v1alpha1.Initializers existingConfig) in
      if found then
        glog WARNING "InitializerConfiguration %s with Initializer %s already exists";;
        mret None
      else
        glog WARNING "Found InitializerConfiguration %s without Initializer %s";;
        let existingConfig :=
          set_ConfigInitializers
            (v1alpha1.Initializers existingConfig ++ [sparkPodInitializer])
            existingConfig in
        glog INFO "Updating InitializerConfiguration %s";;
        '(_, err) ← Configs_Update existingConfig;
        match err with
        | Some e =>
            mret (Some (Errorf "failed to update InitializerConfiguration: %v"
                          [ArgError e]))
        | None => mret None
        end
  end.

(** deleteInitializationConfig *)
Definition deleteInitializationConfig : M (option error) :=
  err ← Configs_Delete initializerConfigName;
  match err with
  | Some e =>
      mret (Some (Errorf "failed to delete InitializerConfiguration: %v"
                    [ArgError e]))
  | None => mret None
  end.

End Initializer.

(** ** Auxiliary notions of the statements *)

(** An entry of the pending list that is not this initializer's. *)
Definition notSelf (pending : metav1.Initializer) : Prop :=
  metav1.Name pending ≠ initializerName.

Global Instance notSelf_dec pending : Decision (notSelf pending).
Proof. unfold notSelf. apply _. Defined.

(** The pod removeSelf leaves behind. *)
Definition withoutSelf (p : Pod) : Pod :=
  match apiv1.Initializers p with
  | None => p
  | Some inits =>
      let others := filter notSelf (metav1.Pending inits) in
      match others with
      | [] => set_Initializers None p
      | _ :: _ => set_Initializers (Some (set_Pending others inits)) p
      end
  end.

(** The sentinel, in the words of the specification: the pending list is
    present and holds an entry with this initializer's name. *)
Definition hasSentinel (p : Pod) : Prop :=
  ∃ inits, apiv1.Initializers p = Some inits
           ∧ initializerName ∈ (metav1.Name <$> metav1.Pending inits).

(** The role label is present and has one of the two recognized values. *)
Definition hasSparkRole (p : Pod) : Prop :=
  apiv1.Labels p !! "spark-role" = Some "driver"
  ∨ apiv1.Labels p !! "spark-role" = Some "executor".

(** The calls to the work queue among some events. *)
Definition isQueueCall (e : Event) : bool :=
  match e with
  | QueueGet | QueueAddRateLimited _ | QueueForget _ | QueueDone _ => true
  | _ => false
  end.

Definition queueCalls (events : list Event) : list Event :=
  List.filter isQueueCall events.

(** The calls that submit a pod to the API server among some events. *)
Definition isSubmission (e : Event) : bool :=
  match e with
  | PodsUpdate _ | PodsPatch _ _ _ => true
  | _ => false
  end.

Definition isGlog (e : Event) : bool :=
  match e with
  | Glog _ _ => true
  | _ => false
  end.

(** From [st0] to [st] nothing happened but writes to the pod at location
    [c], which has a container, and calls to glog. *)
Definition onlyPodChanged (c : nat) (st0 st : State) : Prop :=
  ∃ x logs,
    c < length (heap st0)
    ∧ heap st = <[c := x]> (heap st0)
    ∧ 0 < length (apiv1.Containers x)
    ∧ configs st = configs st0
    ∧ trace st = trace st0 ++ logs
    ∧ forallb isGlog logs = true.

(** [m] returns, and does nothing but write to the pod at [c] and log. *)
Definition preserves {A} (c : nat) (st0 : State) (m : M A) : Prop :=
  ∀ st, onlyPodChanged c st0 st →
        ∃ a st', m st = (Ret a, st') ∧ onlyPodChanged c st0 st'.

(** What syncSparkPod leaves behind when it returns [err] in state [st']
    after the events [events], started in [st] on a key that parses to
    [namespace] and [name]: the fetch was the first call and the queue was
    not called; the objects that existed and the fetched object are as
    they were; a patch, if one was submitted, is the difference between
    the fetched object and the copy, sent to the fetched object's
    namespace and name; and the error is a collaborator's or the one about
    containers. *)
Definition syncSparkPod_post (w : World) (namespace name : string)
    (st : State) (err : option error) (st' : State) (events : list Event)
    : Prop :=
  trace st' = trace st ++ PodsGet namespace name :: events
  ∧ queueCalls events = []
  ∧ (∀ l x, heap st !! l = Some x → heap st' !! l = Some x)
  ∧ (∀ p, pods_Get w namespace name = inr p →
          heap st' !! length (heap st) = Some p)
  ∧ configs st' = configs st
  ∧ (∀ e, err = Some e →
          (∃ x, e = External x)
          ∨ (∃ name, e = Errorf "no container found in Pod %s" [ArgString name]))
  ∧ (∀ namespace' name' patch,
       PodsPatch namespace' name' patch ∈ events →
       ∃ p x originalData modifiedData,
         pods_Get w namespace name = inr p
         ∧ heap st' !! S (length (heap st)) = Some x
         ∧ json_Marshal w p = inr originalData
         ∧ json_Marshal w x = inr modifiedData
         ∧ CreateTwoWayMergePatch w originalData modifiedData = inr patch
         ∧ namespace' = apiv1.Namespace p
         ∧ name' = apiv1.Name p).

(** The byte [c] occurs in [s]. *)
Definition hasByte (c : ascii) (s : string) : Prop :=
  In c (String.list_ascii_of_string s).


(** The entries of a registration record that bear this initializer's
    name. *)
Definition selfEntries (c : v1alpha1.InitializerConfiguration)
    : list v1alpha1.Initializer :=
  filter (λ entry, v1alpha1.Name entry = initializerName)
         (v1alpha1.Initializers c).

(** ** Further notions for the properties of the remaining code *)

(** The number of occurrences of the byte [c] in [s]. *)
Fixpoint occurrences (c : ascii) (s : string) : nat :=
  match s with
  | EmptyString => 0
  | String c' s' => (if bool_decide (c' = c) then 1 else 0) + occurrences c s'
  end.

(** [x] is [x0] up to its volumes and its first container: the metadata,
    the pending list, the owner references and the other containers are
    those of [x0], which has a container. *)
Definition onlyMounts (x0 x : Pod) : Prop :=
  apiv1.Namespace x = apiv1.Namespace x0
  ∧ apiv1.Name x = apiv1.Name x0
  ∧ apiv1.Labels x = apiv1.Labels x0
  ∧ apiv1.Annotations x = apiv1.Annotations x0
  ∧ apiv1.Initializers x = apiv1.Initializers x0
  ∧ apiv1.OwnerReferences x = apiv1.OwnerReferences x0
  ∧ length (apiv1.Containers x) = length (apiv1.Containers x0)
  ∧ 0 < length (apiv1.Containers x0)
  ∧ ∀ i, 0 < i → apiv1.Containers x !! i = apiv1.Containers x0 !! i.

(** From [st0] to [st] the only object written is the pod at [c], which
    is [x0] up to its volumes and its first container. *)
Definition mountsOnly (c : nat) (x0 : Pod) (st0 st : State) : Prop :=
  ∃ x,
    c < length (heap st0)
    ∧ heap st = <[c := x]> (heap st0)
    ∧ configs st = configs st0
    ∧ onlyMounts x0 x.

(** [m] returns and keeps [mountsOnly]. *)
Definition keeps {A} (c : nat) (x0 : Pod) (st0 : State) (m : M A) : Prop :=
  ∀ st, mountsOnly c x0 st0 st →
        ∃ a st', m st = (Ret a, st') ∧ mountsOnly c x0 st0 st'.

(** runWorker: [for ic.processNextItem() { }].  Every turn of the loop runs
    against what the environment answers during that turn, one world per
    turn, with the initializer [New] makes.  The result is [Some ()] when
    the loop ends, and [None] when the answers run out while the worker
    still waits for the queue. *)
Fixpoint runWorker (config : ConfigPackage) (secret : SecretPackage)
    (turns : list World) : M (option unit) :=
  match turns with
  | [] => mret None
  | w :: turns' =>
      again ← processNextItem w (New config secret w);
      if (again : bool) then runWorker config secret turns' else mret (Some ())
  end.

Definition isQueueDone (e : Event) : bool :=
  match e with
  | QueueDone _ => true
  | _ => false
  end.

Definition isQueueGet (e : Event) : bool :=
  match e with
  | QueueGet => true
  | _ => false
  end.

(** The record of this initializer, when the API server holds one, carries
    the name it is stored under. *)
Definition recordNamed (st : State) : Prop :=
  ∀ c, configs st !! initializerConfigName = Some c →
       v1alpha1.ObjectName c = initializerConfigName.

(** ** Concrete pods, packages and worlds for the examples *)

Definition selfEntry : metav1.Initializer := {| metav1.Name := initializerName |}.
Definition otherEntry : metav1.Initializer :=
  {| metav1.Name := "other.initializer.example.com" |}.

Definition sparkContainer : apiv1.Container :=
  {| apiv1.ContainerName := "spark"; apiv1.VolumeMounts := []; apiv1.Env := [] |}.

Definition mkPod (name : string) (labels annotations : gmap string string)
    (initializers : option metav1.Initializers)
    (containers : list apiv1.Container) : Pod :=
  {| apiv1.Namespace := "ns";
     apiv1.Name := name;
     apiv1.Labels := labels;
     apiv1.Annotations := annotations;
     apiv1.Initializers := initializers;
     apiv1.OwnerReferences := [];
     apiv1.Volumes := [];
     apiv1.Containers := containers |}.

Definition pendingOf (l : list metav1.Initializer) : option metav1.Initializers :=
  Some {| metav1.Pending := l; metav1.Result := None |}.

Definition driverPod : Pod :=
  mkPod "driver-1" {[ sparkRoleLabel := sparkDriverRole ]} ∅
        (pendingOf [otherEntry; selfEntry]) [sparkContainer].

Definition utilPod : Pod :=
  mkPod "util-1" ∅ ∅ (pendingOf [selfEntry]) [sparkContainer].

Definition initializedPod : Pod :=
  mkPod "done-1" ∅ ∅ None [sparkContainer].

Definition emptyDriverPod : Pod :=
  mkPod "driver-2" {[ sparkRoleLabel := sparkDriverRole ]} ∅
        (pendingOf [selfEntry]) [].

Definition stateOf (pods : list Pod) : State :=
  {| heap := pods; configs := ∅; trace := [] |}.

Definition zeroOwnerReference : metav1.OwnerReference :=
  {| metav1.APIVersion := EmptyString; metav1.Kind := EmptyString;
     metav1.RefName := EmptyString; metav1.UID := EmptyString;
     metav1.Controller := None |}.

Definition testVolume (name source : string) : apiv1.Volume :=
  {| apiv1.VolumeName := name; apiv1.VolumeSource := source |}.

Definition testMount (name path : string) (c : apiv1.Container) : apiv1.Container :=
  {| apiv1.ContainerName := apiv1.ContainerName c;
     apiv1.VolumeMounts :=
       apiv1.VolumeMounts c ++ [ {| apiv1.MountName := name; apiv1.MountPath := path |} ];
     apiv1.Env := apiv1.Env c |}.

Definition testConfig : ConfigPackage :=
  {| OwnerReferenceAnnotation := "owner-reference";
     SparkConfigMapAnnotation := "spark-config-map";
     HadoopConfigMapAnnotation := "hadoop-config-map";
     DefaultSparkConfDir := "/etc/spark/conf";
     DefaultHadoopConfDir := "/etc/hadoop/conf";
     AddSparkConfigMapVolumeToPod := λ name vs,
       (vs ++ [testVolume "spark-config-map-volume" name], "spark-config-map-volume");
     MountSparkConfigMapToContainer := testMount;
     AddHadoopConfigMapVolumeToPod := λ name vs,
       (vs ++ [testVolume "hadoop-config-map-volume" name], "hadoop-config-map-volume");
     MountHadoopConfigMapToContainer := testMount;
     FindGeneralConfigMaps := λ _, [];
     AddConfigMapVolumeToPod := λ volume name vs, vs ++ [testVolume volume name];
     MountConfigMapToContainer := testMount |}.

Definition testSecret : SecretPackage :=
  {| ServiceAccountSecretVolumeName := "gcp-service-account-secret-volume";
     FindGCPServiceAccountSecret := λ _, (EmptyString, EmptyString, false);
     AddSecretVolumeToPod := λ volume name vs, vs ++ [testVolume volume name];
     MountServiceAccountSecretToContainer := testMount "gcp-service-account-secret-volume";
     FindGeneralSecrets := λ _, [];
     MountSecretToContainer := testMount |}.

(** A world in which the queue hands out [key], the API server holds the
    pod [served] (if any) under every name, nothing fails, and no
    annotation value decodes to an owner reference. *)
Definition testWorld (key : string) (served : option Pod) : World :=
  {| queue_Get := (key, false);
     pods_Get := λ _ name,
       match served with
       | Some p => inr p
       | None => inl (StatusError StatusReasonNotFound name)
       end;
     pods_Update := λ p, inr p;
     pods_Patch := λ _ name _,
       match served with
       | Some p => inr p
       | None => inl (StatusError StatusReasonNotFound name)
       end;
     DeepCopy_error := λ _, None;
     json_Marshal := λ p, inr (apiv1.Name p);
     CreateTwoWayMergePatch := λ original modified, inr (original +:+ "=>" +:+ modified);
     OwnerReference_Unmarshal := λ _,
       (zeroOwnerReference, Some (LibraryError "proto: illegal wireType"));
     configs_fault := λ _, None |}.


Definition ownedPod : Pod :=
  mkPod "driver-3" {[ sparkRoleLabel := sparkDriverRole ]}
        {[ "owner-reference" := "not an owner reference" ]}
        (pendingOf [selfEntry]) [sparkContainer].


(** A pod that is not a Spark pod, with the sentinel as its only pending
    entry and a result recorded beside the pending list. *)
Definition resultPod : Pod :=
  mkPod "util-2" ∅ ∅
        (Some {| metav1.Pending := [selfEntry];
                 metav1.Result := Some {| metav1.Message := "pending" |} |})
        [sparkContainer].

(** A configuration package with one general ConfigMap requested. *)
Definition oneConfigMap : ConfigPackage :=
  {| OwnerReferenceAnnotation := "owner-reference";
     SparkConfigMapAnnotation := "spark-config-map";
     HadoopConfigMapAnnotation := "hadoop-config-map";
     DefaultSparkConfDir := "/etc/spark/conf";
     DefaultHadoopConfDir := "/etc/hadoop/conf";
     AddSparkConfigMapVolumeToPod := λ name vs,
       (vs ++ [testVolume "spark-config-map-volume" name], "spark-config-map-volume");
     MountSparkConfigMapToContainer := testMount;
     AddHadoopConfigMapVolumeToPod := λ name vs,
       (vs ++ [testVolume "hadoop-config-map-volume" name], "hadoop-config-map-volume");
     MountHadoopConfigMapToContainer := testMount;
     FindGeneralConfigMaps := λ _, [("log4j", "/etc/log4j")];
     AddConfigMapVolumeToPod := λ volume name vs, vs ++ [testVolume volume name];
     MountConfigMapToContainer := testMount |}.

(** A secret package that finds a service-account secret and two general
    secrets. *)
Definition gcpSecrets : SecretPackage :=
  {| ServiceAccountSecretVolumeName := "gcp-service-account-secret-volume";
     FindGCPServiceAccountSecret := λ _, ("gcp-key", "/mnt/secrets", true);
     AddSecretVolumeToPod := λ volume name vs, vs ++ [testVolume volume name];
     MountServiceAccountSecretToContainer := testMount "gcp-service-account-secret-volume";
     FindGeneralSecrets := λ _, [("tls", "/etc/tls"); ("db", "/etc/db")];
     MountSecretToContainer := testMount |}.

(** A driver pod that names a Spark and a Hadoop ConfigMap. *)
Definition annotatedPod : Pod :=
  mkPod "driver-3" {[ sparkRoleLabel := sparkDriverRole ]}
        (<[ "spark-config-map" := "spark-conf" ]>
           {[ "hadoop-config-map" := "hadoop-conf" ]})
        (pendingOf [selfEntry]) [sparkContainer].
(** ** Running the monad *)

Lemma bind_Ret {A B} (m : M A) (f : A → M B) st a st' :
  m st = (Ret a, st') → (m ≫= f) st = f a st'.
Proof. intros Hm. unfold mbind, M_bind. by rewrite Hm. Qed.

Lemma bind_run {A B} (m : M A) (f : A → M B) st :
  (m ≫= f) st = match m st with
                | (Ret a, st') => f a st'
                | (Panic msg, st') => (Panic msg, st')
                end.
Proof. done. Qed.

Lemma bind_Panic {A B} (m : M A) (f : A → M B) st msg st' :
  m st = (Panic msg, st') → (m ≫= f) st = (Panic msg, st').
Proof. intros Hm. unfold mbind, M_bind. by rewrite Hm. Qed.

Lemma mret_run {A} (a : A) st : (mret a : M A) st = (Ret a, st).
Proof. done. Qed.

Lemma emit_run e st : emit e st = (Ret (), add_event e st).
Proof. done. Qed.

Lemma glog_run severity format st :
  glog severity format st = (Ret (), add_event (Glog severity format) st).
Proof. done. Qed.

Lemma deref_Some st l p :
  heap st !! l = Some p → deref (Ptr l) st = (Ret p, st).
Proof. intros Hl. unfold deref. by rewrite Hl. Qed.

Lemma store_Some st l p v :
  heap st !! l = Some p →
  store (Ptr l) v st = (Ret (), set_heap (<[l := v]> (heap st)) st).
Proof.
  intros Hl. unfold store. by rewrite (bind_Ret _ _ _ _ _ (deref_Some _ _ _ Hl)).
Qed.

Lemma set_heap_same st : set_heap (heap st) st = st.
Proof. by destruct st. Qed.

Lemma set_Initializers_same p : set_Initializers (apiv1.Initializers p) p = p.
Proof. by destruct p. Qed.

Lemma set_Pending_same i : set_Pending (metav1.Pending i) i = i.
Proof. by destruct i. Qed.

(** ** The pending list: what the loop of removeSelf computes *)


Lemma removeSelf_loop_acc pending acc :
  fold_left (λ updated pending,
               if bool_decide (metav1.Name pending ≠ initializerName)
               then updated ++ [pending] else updated)
            pending acc
  = acc ++ filter notSelf pending.
Proof.
  revert acc. induction pending as [|x pending IH]; intros acc; simpl.
  - by rewrite app_nil_r.
  - rewrite IH. rewrite filter_cons. unfold notSelf at 2.
    case_bool_decide; case_decide; try done.
    by rewrite <- app_assoc.
Qed.

Lemma removeSelf_loop_filter pending :
  removeSelf_loop pending = filter notSelf pending.
Proof. unfold removeSelf_loop. by rewrite removeSelf_loop_acc. Qed.

Lemma filter_notSelf_all (pending : list metav1.Initializer) :
  length (filter notSelf pending) = length pending →
  filter notSelf pending = pending.
Proof.
  induction pending as [|x pending IH]; [done|].
  rewrite filter_cons. case_decide; simpl; intros Hlen.
  - f_equal. apply IH. lia.
  - pose proof (length_filter notSelf pending). lia.
Qed.

Lemma isInitializerPresent_filter p inits :
  apiv1.Initializers p = Some inits →
  isInitializerPresent p = false ↔
  filter notSelf (metav1.Pending inits) = metav1.Pending inits.
Proof.
  intros Hi. unfold isInitializerPresent. rewrite Hi.
  induction (metav1.Pending inits) as [|x pending IH]; [done|].
  simpl. rewrite filter_cons. unfold notSelf at 1.
  case_bool_decide; case_decide; simpl; try done.
  - split; [done|]. intros Heq.
    pose proof (length_filter notSelf pending) as Hlen.
    rewrite Heq in Hlen. simpl in Hlen. lia.
  - rewrite IH. split; [by intros ->|]. by intros [= ?].
Qed.


Lemma removeSelf_run st l p :
  heap st !! l = Some p →
  ∃ st', removeSelf (Ptr l) st = (Ret (), st')
         ∧ heap st' = <[l := withoutSelf p]> (heap st)
         ∧ configs st' = configs st
         ∧ (withoutSelf p = p → st' = st)
         ∧ (trace st' = trace st
            ∨ trace st' = trace st ++ [Glog INFO "Removed initializer on pod %s"]).
Proof.
  intros Hl. unfold removeSelf.
  rewrite (bind_Ret _ _ _ _ _ (deref_Some _ _ _ Hl)).
  unfold withoutSelf.
  destruct (apiv1.Initializers p) as [inits|] eqn:Hi.
  2:{ exists st. rewrite list_insert_id by done.
      split_and!; [done..|by left]. }
  rewrite removeSelf_loop_filter.
  destruct (filter notSelf (metav1.Pending inits)) as [|x others] eqn:Hf.
  - simpl. rewrite (bind_Ret _ _ _ _ _ (store_Some _ _ _ _ Hl)).
    eexists. split; [reflexivity|]. split; [done|]. split; [done|].
    split; [|by right].
    intros Heq. rewrite <- Heq in Hi. discriminate.
  - replace (bool_decide (0 < length (x :: others))) with true
      by (symmetry; apply bool_decide_eq_true; simpl; lia).
    rewrite andb_true_l.
    case_bool_decide as Hlen.
    + pose proof (filter_notSelf_all (metav1.Pending inits)) as Hall.
      rewrite Hf in Hall. specialize (Hall Hlen).
      exists st. split; [done|].
      rewrite Hall, set_Pending_same, <- Hi, set_Initializers_same.
      rewrite list_insert_id by done.
      split_and!; [done..|by left].
    + simpl. rewrite (bind_Ret _ _ _ _ _ (store_Some _ _ _ _ Hl)).
      eexists. split; [reflexivity|]. split; [done|]. split; [done|].
      split; [|by right].
      intros Heq. exfalso. apply Hlen.
      rewrite <- Heq in Hi. simpl in Hi. injection Hi as Hi.
      by rewrite <- Hi.
Qed.

Lemma filter_notSelf_idemp (pending : list metav1.Initializer) :
  filter notSelf (filter notSelf pending) = filter notSelf pending.
Proof.
  induction pending as [|x pending IH]; [done|].
  rewrite filter_cons. case_decide; [|done].
  rewrite filter_cons. case_decide; [|done]. by rewrite IH.
Qed.

Lemma withoutSelf_cases p :
  match apiv1.Initializers p with
  | None => withoutSelf p = p
  | Some inits =>
      match filter notSelf (metav1.Pending inits) with
      | [] => withoutSelf p = set_Initializers None p
      | x :: others =>
          withoutSelf p
          = set_Initializers (Some (set_Pending (x :: others) inits)) p
      end
  end.
Proof.
  unfold withoutSelf. destruct (apiv1.Initializers p) as [inits|]; [|done].
  by destruct (filter notSelf (metav1.Pending inits)).
Qed.


Lemma withoutSelf_not_present p : isInitializerPresent (withoutSelf p) = false.
Proof.
  pose proof (withoutSelf_cases p) as Hc.
  destruct (apiv1.Initializers p) as [inits|] eqn:Hi.
  2:{ rewrite Hc. unfold isInitializerPresent. by rewrite Hi. }
  destruct (filter notSelf (metav1.Pending inits)) as [|x others] eqn:Hf;
    rewrite Hc; [done|].
  eapply isInitializerPresent_filter; [done|]. simpl.
  rewrite <- Hf. apply filter_notSelf_idemp.
Qed.

(** A pod without the sentinel whose pending list is absent or non-empty
    is left as it is; a present but empty list is what removeSelf turns
    into an absent one. *)
Lemma withoutSelf_noop p :
  isInitializerPresent p = false →
  (∀ inits, apiv1.Initializers p = Some inits → metav1.Pending inits ≠ []) →
  withoutSelf p = p.
Proof.
  intros Hp Hne. unfold withoutSelf.
  destruct (apiv1.Initializers p) as [inits|] eqn:Hi; [|done].
  rewrite (proj1 (isInitializerPresent_filter p inits Hi) Hp).
  destruct (metav1.Pending inits) eqn:Hpend; [by destruct (Hne inits)|].
  by rewrite <- Hpend, set_Pending_same, <- Hi, set_Initializers_same.
Qed.

Lemma removeSelf_noop st l p :
  heap st !! l = Some p →
  isInitializerPresent p = false →
  (∀ inits, apiv1.Initializers p = Some inits → metav1.Pending inits ≠ []) →
  removeSelf (Ptr l) st = (Ret (), st).
Proof.
  intros Hl Hp Hne.
  destruct (removeSelf_run st l p Hl) as (st' & Hrun & _ & _ & Hsame & _).
  rewrite Hrun. f_equal. apply Hsame. by apply withoutSelf_noop.
Qed.

(** C1: on a pod whose pending list is present, removeSelf leaves in it
    exactly the entries not named "pod-initializer.spark-operator.k8s.io",
    in their order, and makes the Initializers field nil when none is left;
    every other field of the pod and every other object stay as they are; a
    pod whose Initializers field is nil is not changed at all. *)
Theorem removeSelf_removes_exactly_self (st : State) (l : nat) (p : Pod) :
  heap st !! l = Some p →
  ∃ st' p',
    removeSelf (Ptr l) st = (Ret (), st')
    ∧ heap st' = <[l := p']> (heap st)
    ∧ match apiv1.Initializers p with
      | None => p' = p ∧ st' = st
      | Some inits =>
          let others :=
            filter (λ pending, metav1.Name pending ≠ initializerName)
                   (metav1.Pending inits) in
          match others with
          | [] => p' = set_Initializers None p
          | _ :: _ => p' = set_Initializers (Some (set_Pending others inits)) p
          end
      end.
Proof.
  intros Hl.
  destruct (removeSelf_run st l p Hl) as (st' & Hrun & Hheap & _ & Hsame & _).
  exists st', (withoutSelf p). split; [done|]. split; [done|].
  unfold withoutSelf in *.
  destruct (apiv1.Initializers p) as [inits|] eqn:Hi.
  - simpl. change (filter _ (metav1.Pending inits))
      with (filter notSelf (metav1.Pending inits)).
    by destruct (filter notSelf (metav1.Pending inits)).
  - split; [done|]. by apply Hsame.
Qed.

Lemma removeSelf_removes_exactly_self_witness :
  heap (stateOf [driverPod]) !! 0 = Some driverPod
  ∧ ∃ st' p',
      removeSelf (Ptr 0) (stateOf [driverPod]) = (Ret (), st')
      ∧ heap st' = <[0 := p']> (heap (stateOf [driverPod]))
      ∧ p' = set_Initializers
               (Some (set_Pending [otherEntry]
                        {| metav1.Pending := [otherEntry; selfEntry];
                           metav1.Result := None |})) driverPod.
Proof.
  split; [reflexivity|].
  exact (removeSelf_removes_exactly_self (stateOf [driverPod]) 0 driverPod eq_refl).
Defined.




(** ** Classification *)

Lemma isInitializerPresent_spec p :
  isInitializerPresent p = true ↔ hasSentinel p.
Proof.
  unfold isInitializerPresent, hasSentinel.
  destruct (apiv1.Initializers p) as [inits|].
  - rewrite existsb_exists. split.
    + intros (x & Hin & Hx). exists inits. split; [done|].
      apply list_elem_of_fmap. exists x.
      apply bool_decide_eq_true in Hx. by rewrite list_elem_of_In.
    + intros (inits' & [= <-] & Hin).
      apply list_elem_of_fmap in Hin as (x & Hx & Hin).
      exists x. rewrite <- list_elem_of_In. split; [done|].
      by apply bool_decide_eq_true.
  - split; [done|]. by intros (? & ? & _).
Qed.

Lemma isSparkPod_spec p : isSparkPod p = true ↔ hasSparkRole p.
Proof.
  unfold isSparkPod, hasSparkRole, sparkRoleLabel, sparkDriverRole,
    sparkExecutorRole.
  destruct (apiv1.Labels p !! "spark-role") as [role|].
  - rewrite orb_true_iff, !bool_decide_eq_true.
    split; (intros [?|?]; [left|right]; congruence).
  - split; [done|]. by intros [?|?].
Qed.

Lemma queueCalls_app t1 t2 : queueCalls (t1 ++ t2) = queueCalls t1 ++ queueCalls t2.
Proof. apply List.filter_app. Qed.


(** ** Steps that only write to one pod and log *)

Lemma onlyPodChanged_lookup c st0 st :
  onlyPodChanged c st0 st →
  ∃ x, heap st !! c = Some x ∧ 0 < length (apiv1.Containers x).
Proof.
  intros (x & logs & Hc & Hheap & Hcont & _). exists x. split; [|done].
  rewrite Hheap. by apply list_lookup_insert_eq.
Qed.

Lemma onlyPodChanged_store c st0 st v :
  onlyPodChanged c st0 st →
  0 < length (apiv1.Containers v) →
  onlyPodChanged c st0 (set_heap (<[c := v]> (heap st)) st).
Proof.
  intros (x & logs & Hc & Hheap & Hcont & Hcfg & Htr & Hlogs) Hv.
  exists v, logs. simpl. rewrite Hheap, list_insert_insert_eq. done.
Qed.

Lemma onlyPodChanged_log c st0 st severity format :
  onlyPodChanged c st0 st →
  onlyPodChanged c st0 (add_event (Glog severity format) st).
Proof.
  intros (x & logs & Hc & Hheap & Hcont & Hcfg & Htr & Hlogs).
  exists x, (logs ++ [Glog severity format]). simpl.
  rewrite Htr, <- app_assoc, forallb_app, Hlogs. done.
Qed.

Lemma onlyPodChanged_refl c st x :
  heap st !! c = Some x → 0 < length (apiv1.Containers x) →
  onlyPodChanged c st st.
Proof.
  intros Hl Hx. exists x, []. rewrite app_nil_r, list_insert_id by done.
  split_and!; try done. by eapply lookup_lt_Some.
Qed.

Lemma preserves_ret {A} c st0 (a : A) : preserves c st0 (mret a).
Proof. intros st Hst. by exists a, st. Qed.

Lemma preserves_bind {A B} c st0 (m : M A) (f : A → M B) :
  preserves c st0 m → (∀ a, preserves c st0 (f a)) →
  preserves c st0 (m ≫= f).
Proof.
  intros Hm Hf st Hst. destruct (Hm st Hst) as (a & st' & Hrun & Hst').
  rewrite (bind_Ret _ _ _ _ _ Hrun). by apply Hf.
Qed.

Lemma preserves_glog c st0 severity format :
  preserves c st0 (glog severity format).
Proof.
  intros st Hst. eexists (), _. split; [reflexivity|].
  by apply onlyPodChanged_log.
Qed.

Lemma preserves_deref c st0 : preserves c st0 (deref (Ptr c)).
Proof.
  intros st Hst. destruct (onlyPodChanged_lookup _ _ _ Hst) as (x & Hl & _).
  exists x, st. by rewrite (deref_Some _ _ _ Hl).
Qed.

Lemma preserves_range {A} c st0 (l : list A) (body : A → M unit) :
  (∀ x, preserves c st0 (body x)) → preserves c st0 (range l body).
Proof.
  intros Hbody. induction l as [|x l IH]; simpl.
  - apply preserves_ret.
  - apply preserves_bind; [apply Hbody|]. by intros _.
Qed.

Lemma preserves_addVolume {A} c st0
    (f : list apiv1.Volume → list apiv1.Volume * A) :
  preserves c st0 (addVolume f (Ptr c)).
Proof.
  intros st Hst. destruct (onlyPodChanged_lookup _ _ _ Hst) as (x & Hl & Hx).
  unfold addVolume. rewrite (bind_Ret _ _ _ _ _ (deref_Some _ _ _ Hl)).
  destruct (f (apiv1.Volumes x)) as [volumes a].
  rewrite (bind_Ret _ _ _ _ _ (store_Some _ _ _ _ Hl)).
  eexists a, _. split; [reflexivity|]. by apply onlyPodChanged_store.
Qed.

Lemma preserves_mount c st0 (f : apiv1.Container → apiv1.Container) :
  preserves c st0 (mount f {| OfPod := Ptr c; Index := 0 |}).
Proof.
  intros st Hst. destruct (onlyPodChanged_lookup _ _ _ Hst) as (x & Hl & Hx).
  unfold mount. simpl. rewrite (bind_Ret _ _ _ _ _ (deref_Some _ _ _ Hl)).
  destruct (apiv1.Containers x !! 0) as [ct|] eqn:Hct.
  2:{ apply lookup_ge_None in Hct. lia. }
  rewrite (store_Some _ _ _ _ Hl).
  eexists (), _. split; [reflexivity|]. apply onlyPodChanged_store; [done|].
  simpl. by rewrite length_insert.
Qed.

Lemma withoutSelf_Containers p :
  apiv1.Containers (withoutSelf p) = apiv1.Containers p.
Proof.
  unfold withoutSelf. destruct (apiv1.Initializers p) as [inits|]; [|done].
  by destruct (filter notSelf (metav1.Pending inits)).
Qed.

Lemma preserves_removeSelf c st0 : preserves c st0 (removeSelf (Ptr c)).
Proof.
  intros st Hst. destruct (onlyPodChanged_lookup _ _ _ Hst) as (x & Hl & Hx).
  destruct (removeSelf_run st c x Hl) as (st' & Hrun & Hheap & Hcfg & _ & Htr).
  exists (), st'. split; [done|].
  destruct Hst as (x0 & logs & Hc & Hheap0 & _ & Hcfg0 & Htr0 & Hlogs).
  assert (heap st' = <[c := withoutSelf x]> (heap st0)) as Hheap'
    by (by rewrite Hheap, Hheap0, list_insert_insert_eq).
  assert (0 < length (apiv1.Containers (withoutSelf x))) as Hx'
    by (by rewrite withoutSelf_Containers).
  destruct Htr as [Htr|Htr].
  - exists (withoutSelf x), logs. rewrite Htr, Hcfg. done.
  - exists (withoutSelf x), (logs ++ [Glog INFO "Removed initializer on pod %s"]).
    rewrite Htr, Htr0, Hcfg, <- app_assoc, forallb_app, Hlogs. done.
Qed.

Lemma queueCalls_glog logs : forallb isGlog logs = true → queueCalls logs = [].
Proof.
  induction logs as [|e logs IH]; [done|]. simpl.
  intros [He Hlogs]%andb_true_iff. destruct e; try done; by apply IH.
Qed.

Lemma submissions_glog logs :
  forallb isGlog logs = true → List.filter isSubmission logs = [].
Proof.
  induction logs as [|e logs IH]; [done|]. simpl.
  intros [He Hlogs]%andb_true_iff. destruct e; try done; by apply IH.
Qed.

Lemma not_glog_not_logged logs e :
  forallb isGlog logs = true → isGlog e = false → e ∉ logs.
Proof.
  intros Hlogs He Hin. apply list_elem_of_In in Hin.
  rewrite forallb_forall in Hlogs. specialize (Hlogs e Hin). congruence.
Qed.

(** ** Queue keys *)

Lemma Split_without_sep s sep : ¬ hasByte sep s → Split s sep = [s].
Proof.
  unfold hasByte. induction s as [|c s IH]; [done|]. simpl. intros Hnot.
  rewrite bool_decide_eq_false_2 by (intros ->; apply Hnot; by left).
  rewrite IH; [done|]. intros Hin. apply Hnot. by right.
Qed.

Lemma Split_at_first_sep a b sep :
  ¬ hasByte sep a → Split (a +:+ String sep b) sep = a :: Split b sep.
Proof.
  unfold hasByte. induction a as [|c a IH]; simpl.
  - intros _. by rewrite bool_decide_eq_true_2.
  - intros Hnot.
    rewrite bool_decide_eq_false_2 by (intros ->; apply Hnot; by left).
    rewrite IH; [done|]. intros Hin. apply Hnot. by right.
Qed.

Lemma getNamespaceName_getQueueKey pod :
  ¬ hasByte slash (apiv1.Namespace pod) →
  ¬ hasByte slash (apiv1.Name pod) →
  getNamespaceName (getQueueKey pod)
  = (apiv1.Namespace pod, apiv1.Name pod, None).
Proof.
  intros Hns Hname. unfold getNamespaceName, getQueueKey.
  change ("/" +:+ apiv1.Name pod) with (String slash (apiv1.Name pod)).
  rewrite (Split_at_first_sep _ _ _ Hns), (Split_without_sep _ _ Hname).
  done.
Qed.

(** ** Registration *)

Lemma findSelf_spec (initializers : list v1alpha1.Initializer) :
  findSelf initializers = true
  ↔ initializerName ∈ (v1alpha1.Name <$> initializers).
Proof.
  unfold findSelf. rewrite existsb_exists, list_elem_of_fmap. split.
  - intros (x & Hin & Hx). exists x. apply bool_decide_eq_true in Hx.
    by rewrite list_elem_of_In.
  - intros (x & Hx & Hin). exists x. rewrite <- list_elem_of_In.
    split; [done|]. by apply bool_decide_eq_true.
Qed.

Lemma selfEntries_absent (initializers : list v1alpha1.Initializer) :
  initializerName ∉ (v1alpha1.Name <$> initializers) →
  filter (λ entry, v1alpha1.Name entry = initializerName) initializers = [].
Proof.
  induction initializers as [|x l IH]; [done|].
  rewrite fmap_cons, not_elem_of_cons. intros [Hx Hl].
  rewrite filter_cons. case_decide; [congruence|]. by apply IH.
Qed.
Section Reconciliation.

Variable config : ConfigPackage.
Variable secret : SecretPackage.
Variable w : World.

Lemma DeepCopy_run st l p :
  heap st !! l = Some p →
  DeepCopy w (Ptr l) st =
    match DeepCopy_error w p with
    | Some e => (Ret (nil_ptr, Some (External e)), st)
    | None => (Ret (Ptr (length (heap st)), None), set_heap (heap st ++ [p]) st)
    end.
Proof.
  intros Hl. unfold DeepCopy.
  rewrite (bind_Ret _ _ _ _ _ (deref_Some _ _ _ Hl)).
  by destruct (DeepCopy_error w p).
Qed.

Lemma updatePod_run st l p :
  heap st !! l = Some p →
  ∃ st',
    updatePod w (Ptr l) st
    = (Ret match pods_Update w p with
           | inl e => Some (External e)
           | inr _ => None
           end, st')
    ∧ heap st' = heap st ++ match pods_Update w p with
                            | inl _ => []
                            | inr p' => [p']
                            end
    ∧ configs st' = configs st
    ∧ trace st' = trace st ++ [Glog INFO "Updating pod %s"; PodsUpdate p].
Proof.
  intros Hl. unfold updatePod, Pods_Update.
  rewrite (bind_Ret _ _ _ _ _ (deref_Some _ _ _ Hl)).
  unfold glog, emit, mbind, M_bind, deref. simpl. rewrite Hl. simpl.
  destruct (pods_Update w p) as [e|p']; simpl.
  - eexists. split; [reflexivity|]. simpl.
    rewrite app_nil_r, <- app_assoc. done.
  - eexists. split; [reflexivity|]. simpl. rewrite <- app_assoc. done.
Qed.

(** The inline path, step by step. *)
Lemma handleNonSparkPod_run st l p :
  heap st !! l = Some p →
  match DeepCopy_error w p with
  | Some e => handleNonSparkPod w (Ptr l) st = (Ret (Some (External e)), st)
  | None =>
      ∃ st' logs,
        handleNonSparkPod w (Ptr l) st
        = (Ret match pods_Update w (withoutSelf p) with
               | inl e => Some (External e)
               | inr _ => None
               end, st')
        ∧ heap st' = heap st ++ withoutSelf p ::
                       match pods_Update w (withoutSelf p) with
                       | inl _ => []
                       | inr p' => [p']
                       end
        ∧ configs st' = configs st
        ∧ trace st' = trace st ++ logs
                        ++ [Glog INFO "Updating pod %s"; PodsUpdate (withoutSelf p)]
        ∧ (logs = [] ∨ logs = [Glog INFO "Removed initializer on pod %s"])
  end.
Proof.
  intros Hl. unfold handleNonSparkPod.
  pose proof (DeepCopy_run st l p Hl) as Hcopy.
  destruct (DeepCopy_error w p) as [e|].
  { by rewrite (bind_Ret _ _ _ _ _ Hcopy). }
  rewrite (bind_Ret _ _ _ _ _ Hcopy).
  set (st0 := set_heap (heap st ++ [p]) st).
  assert (heap st0 !! length (heap st) = Some p) as Hl0.
  { simpl. by rewrite lookup_app_r, Nat.sub_diag. }
  destruct (removeSelf_run st0 _ p Hl0) as (st1 & Hrm & Hheap1 & Hcfg1 & _ & Htr1).
  rewrite (bind_Ret _ _ _ _ _ Hrm).
  assert (heap st1 = heap st ++ [withoutSelf p]) as Hheap1'.
  { rewrite Hheap1. simpl.
    rewrite insert_app_r_alt, Nat.sub_diag by done. done. }
  assert (heap st1 !! length (heap st) = Some (withoutSelf p)) as Hl1.
  { rewrite Hheap1'. by rewrite lookup_app_r, Nat.sub_diag. }
  destruct (updatePod_run st1 _ _ Hl1) as (st2 & Hup & Hheap2 & Hcfg2 & Htr2).
  assert (heap st2 = heap st ++ withoutSelf p ::
            match pods_Update w (withoutSelf p) with
            | inl _ => []
            | inr p' => [p']
            end) as Hheap2'.
  { rewrite Hheap2, Hheap1', <- app_assoc. done. }
  assert (configs st2 = configs st) as Hcfg2' by (by rewrite Hcfg2, Hcfg1).
  destruct Htr1 as [Htr1|Htr1].
  - exists st2, []. split_and!; [done..| |by left].
    by rewrite Htr2, Htr1.
  - exists st2, [Glog INFO "Removed initializer on pod %s"].
    split_and!; [done..| |by right].
    by rewrite Htr2, Htr1, <- !app_assoc.
Qed.

(** C2: an added pod that carries the sentinel and whose spark-role label
    is "driver" or "executor" has its namespace/name key passed to
    AddRateLimited and nothing else happens; one that carries the sentinel
    without such a label is handled by handleNonSparkPod, within the
    handler, and the queue is not called; one without the sentinel is
    ignored. *)
Theorem onPodAdded_classifies (st : State) (l : nat) (p : Pod) :
  heap st !! l = Some p →
  (hasSentinel p → hasSparkRole p →
     onPodAdded w (PodObject (Ptr l)) st
     = (Ret (),
        add_event (QueueAddRateLimited
                     (apiv1.Namespace p +:+ "/" +:+ apiv1.Name p)) st))
  ∧ (hasSentinel p → ¬ hasSparkRole p →
       ∃ err st' events,
         handleNonSparkPod w (Ptr l) st = (Ret err, st')
         ∧ onPodAdded w (PodObject (Ptr l)) st = (Ret (), st')
         ∧ trace st' = trace st ++ events
         ∧ queueCalls events = [])
  ∧ (¬ hasSentinel p → onPodAdded w (PodObject (Ptr l)) st = (Ret (), st)).
Proof.
  intros Hl.
  pose proof (deref_Some _ _ _ Hl) as Hd.
  assert (∀ A (f : Pod → A), via (Ptr l) f st = (Ret (f p), st)) as Hvia.
  { intros A f. unfold via. by rewrite (bind_Ret _ _ _ _ _ Hd). }
  unfold onPodAdded. simpl.
  rewrite (bind_Ret _ _ _ _ _ (Hvia _ isInitializerPresent)).
  split_and!.
  - intros Hs%isInitializerPresent_spec Hr%isSparkPod_spec. rewrite Hs.
    rewrite (bind_Ret _ _ _ _ _ (Hvia _ isSparkPod)). rewrite Hr.
    by rewrite (bind_Ret _ _ _ _ _ (Hvia _ getQueueKey)).
  - intros Hs%isInitializerPresent_spec Hr. rewrite Hs.
    rewrite (bind_Ret _ _ _ _ _ (Hvia _ isSparkPod)).
    destruct (isSparkPod p) eqn:Hspark.
    { by apply isSparkPod_spec in Hspark. }
    pose proof (handleNonSparkPod_run st l p Hl) as Hrun.
    destruct (DeepCopy_error w p) as [e|].
    + exists (Some (External e)), st, []. rewrite Hrun.
      split_and!; [done| |by rewrite app_nil_r|done].
      by rewrite (bind_Ret _ _ _ _ _ Hrun).
    + destruct Hrun as (st' & logs & Hrun & _ & _ & Htr & Hlogs).
      eexists _, st', _. split; [exact Hrun|].
      split; [by rewrite (bind_Ret _ _ _ _ _ Hrun)|].
      split; [exact Htr|].
      by destruct Hlogs as [-> | ->].
  - intros Hs. destruct (isInitializerPresent p) eqn:Hpres; [|done].
    by apply isInitializerPresent_spec in Hpres.
Qed.

(** ** The mutation steps on the copy *)

Lemma addOwnerReference_run st l p :
  heap st !! l = Some p →
  addOwnerReference config w (Ptr l) st =
    match apiv1.Annotations p !! OwnerReferenceAnnotation config with
    | None => (Ret (), st)
    | Some ownerReferenceStr =>
        let '(ownerReference, err) :=
          OwnerReference_Unmarshal w ownerReferenceStr in
        let logged :=
          match err with
          | Some _ =>
              add_event (Glog ERROR "failed to add OwnerReference to Pod %s: %v") st
          | None => st
          end in
        (Ret (),
         set_heap (<[l := set_OwnerReferences
                            (apiv1.OwnerReferences p ++ [ownerReference]) p]>
                     (heap st)) logged)
    end.
Proof.
  intros Hl. unfold addOwnerReference.
  rewrite (bind_Ret _ _ _ _ _ (deref_Some _ _ _ Hl)).
  destruct (apiv1.Annotations p !! OwnerReferenceAnnotation config); [|done].
  destruct (OwnerReference_Unmarshal w s) as [ownerReference [e|]].
  - rewrite (bind_Ret _ _ _ _ _ (glog_run _ _ _)).
    assert (heap (add_event (Glog ERROR "failed to add OwnerReference to Pod %s: %v") st)
              !! l = Some p) as Hl' by done.
    rewrite (bind_Ret _ _ _ _ _ (deref_Some _ _ _ Hl')).
    by rewrite (store_Some _ _ _ _ Hl').
  - rewrite (bind_Ret _ _ _ _ _ (mret_run _ _)).
    rewrite (bind_Ret _ _ _ _ _ (deref_Some _ _ _ Hl)).
    by rewrite (store_Some _ _ _ _ Hl).
Qed.

Lemma preserves_addOwnerReference c st0 :
  preserves c st0 (addOwnerReference config w (Ptr c)).
Proof.
  intros st Hst. destruct (onlyPodChanged_lookup _ _ _ Hst) as (x & Hl & Hx).
  rewrite (addOwnerReference_run _ _ _ Hl).
  destruct (apiv1.Annotations x !! OwnerReferenceAnnotation config).
  2:{ by exists (), st. }
  destruct (OwnerReference_Unmarshal w s) as [ownerReference [e|]];
    eexists (), _; (split; [reflexivity|]).
  - apply (onlyPodChanged_store c st0 (add_event _ st)); [|done].
    by apply onlyPodChanged_log.
  - by apply onlyPodChanged_store.
Qed.

Ltac preserves_step :=
  first
    [ apply preserves_ret
    | apply preserves_glog
    | apply preserves_deref
    | apply preserves_addVolume
    | apply preserves_mount
    | apply preserves_bind; [|intros ?]
    | apply preserves_range; intros [? ?] ].

Lemma preserves_handleConfigMaps c st0 :
  preserves c st0
    (handleConfigMaps config (Ptr c) {| OfPod := Ptr c; Index := 0 |}).
Proof.
  unfold handleConfigMaps.
  apply preserves_bind; [apply preserves_deref|]. intros p1.
  apply preserves_bind.
  { destruct (apiv1.Annotations p1 !! SparkConfigMapAnnotation config);
      repeat preserves_step. }
  intros _. apply preserves_bind; [apply preserves_deref|]. intros p2.
  apply preserves_bind.
  { destruct (apiv1.Annotations p2 !! HadoopConfigMapAnnotation config);
      repeat preserves_step. }
  intros _. repeat preserves_step.
Qed.

Lemma preserves_handleSecrets c st0 :
  preserves c st0
    (handleSecrets secret (Ptr c) {| OfPod := Ptr c; Index := 0 |}).
Proof.
  unfold handleSecrets.
  apply preserves_bind; [apply preserves_deref|]. intros p1.
  destruct (FindGCPServiceAccountSecret secret (apiv1.Annotations p1))
    as [[secretName mountPath] found].
  apply preserves_bind.
  { destruct found; repeat preserves_step. }
  intros _. repeat preserves_step.
Qed.

(** The four mutation steps of syncSparkPod, in their order. *)
Lemma preserves_mutation c st0 :
  preserves c st0
    (addOwnerReference config w (Ptr c);;
     handleConfigMaps config (Ptr c) {| OfPod := Ptr c; Index := 0 |};;
     handleSecrets secret (Ptr c) {| OfPod := Ptr c; Index := 0 |};;
     removeSelf (Ptr c)).
Proof.
  apply preserves_bind; [apply preserves_addOwnerReference|]. intros _.
  apply preserves_bind; [apply preserves_handleConfigMaps|]. intros _.
  apply preserves_bind; [apply preserves_handleSecrets|]. intros _.
  apply preserves_removeSelf.
Qed.

(** ** Submitting the patch *)

Lemma Pods_Patch_run namespace name patch st :
  Pods_Patch w namespace name patch st =
    let st1 := add_event (PodsPatch namespace name patch) st in
    match pods_Patch w namespace name patch with
    | inl e => (Ret (nil_ptr, Some (External e)), st1)
    | inr p' =>
        (Ret (Ptr (length (heap st)), None), set_heap (heap st ++ [p']) st1)
    end.
Proof.
  unfold Pods_Patch. rewrite (bind_Ret _ _ _ _ _ (emit_run _ _)).
  by destruct (pods_Patch w namespace name patch).
Qed.

Lemma patchPod_run st o m po pm :
  heap st !! o = Some po → heap st !! m = Some pm →
  patchPod w (Ptr o) (Ptr m) st =
    match json_Marshal w po with
    | inl e => (Ret (nil_ptr, Some (External e)), st)
    | inr originalData =>
        match json_Marshal w pm with
        | inl e => (Ret (nil_ptr, Some (External e)), st)
        | inr modifiedData =>
            match CreateTwoWayMergePatch w originalData modifiedData with
            | inl e => (Ret (nil_ptr, Some (External e)), st)
            | inr patch =>
                Pods_Patch w (apiv1.Namespace po) (apiv1.Name po) patch st
            end
        end
    end.
Proof.
  intros Ho Hm. unfold patchPod.
  rewrite (bind_Ret _ _ _ _ _ (deref_Some _ _ _ Ho)).
  destruct (json_Marshal w po) as [e|originalData]; [done|].
  rewrite (bind_Ret _ _ _ _ _ (deref_Some _ _ _ Hm)).
  destruct (json_Marshal w pm) as [e|modifiedData]; [done|].
  destruct (CreateTwoWayMergePatch w originalData modifiedData) as [e|patch];
    [done|].
  by rewrite (bind_Ret _ _ _ _ _ (deref_Some _ _ _ Ho)).
Qed.

(** ** The queued path, step by step *)

Lemma Pods_Get_run namespace name st :
  Pods_Get w namespace name st =
    let st1 := add_event (PodsGet namespace name) st in
    match pods_Get w namespace name with
    | inl e => (Ret (nil_ptr, Some (External e)), st1)
    | inr p => (Ret (Ptr (length (heap st)), None), set_heap (heap st ++ [p]) st1)
    end.
Proof.
  unfold Pods_Get. rewrite (bind_Ret _ _ _ _ _ (emit_run _ _)).
  by destruct (pods_Get w namespace name).
Qed.

Lemma syncSparkPod_run key st :
  let '(namespace, name, _) := getNamespaceName key in
  let n := length (heap st) in
  let st1 := add_event (PodsGet namespace name) st in
  match pods_Get w namespace name with
  | inl e =>
      syncSparkPod config secret w key st
      = (Ret (nil_ptr,
              if IsNotFound (External e) then None else Some (External e)), st1)
  | inr p =>
      let st2 := add_event (Glog INFO "Processing Spark %s pod %s")
                   (set_heap (heap st ++ [p]) st1) in
      match DeepCopy_error w p with
      | Some e =>
          syncSparkPod config secret w key st
          = (Ret (nil_ptr, Some (External e)), st2)
      | None =>
          let st3 := set_heap (heap st ++ [p; p]) st2 in
          match apiv1.Containers p with
          | [] =>
              syncSparkPod config secret w key st
              = (Ret (nil_ptr,
                      Some (Errorf "no container found in Pod %s"
                              [ArgString (apiv1.Name p)])), st3)
          | _ :: _ =>
              ∃ st4,
                (addOwnerReference config w (Ptr (S n));;
                 handleConfigMaps config (Ptr (S n))
                   {| OfPod := Ptr (S n); Index := 0 |};;
                 handleSecrets secret (Ptr (S n))
                   {| OfPod := Ptr (S n); Index := 0 |};;
                 removeSelf (Ptr (S n))) st3 = (Ret (), st4)
                ∧ onlyPodChanged (S n) st3 st4
                ∧ syncSparkPod config secret w key st
                  = patchPod w (Ptr n) (Ptr (S n)) st4
          end
      end
  end.
Proof.
  unfold syncSparkPod.
  destruct (getNamespaceName key) as [[namespace name] err0].
  rewrite bind_run, Pods_Get_run. simpl.
  destruct (pods_Get w namespace name) as [e|p].
  { simpl. by destruct e as [[]|]. }
  set (st1 := set_heap (heap st ++ [p]) (add_event (PodsGet namespace name) st)).
  assert (heap st1 !! length (heap st) = Some p) as Hn.
  { simpl. by rewrite lookup_app_r, Nat.sub_diag. }
  rewrite (bind_Ret _ _ _ _ _ (deref_Some _ _ _ Hn)).
  rewrite (bind_Ret _ _ _ _ _ (glog_run _ _ _)).
  set (st2 := add_event (Glog INFO "Processing Spark %s pod %s") st1).
  assert (heap st2 !! length (heap st) = Some p) as Hn2 by done.
  rewrite bind_run, (DeepCopy_run _ _ _ Hn2).
  destruct (DeepCopy_error w p) as [e|]; [done|].
  set (st3 := set_heap (heap st2 ++ [p]) st2).
  assert (length (heap st2) = S (length (heap st))) as Hlen.
  { simpl. rewrite length_app. simpl. lia. }
  rewrite Hlen.
  assert (heap st3 !! S (length (heap st)) = Some p) as Hc.
  { simpl. rewrite lookup_app_r; rewrite length_app; simpl; [|lia].
    by replace (S (length (heap st)) - (length (heap st) + 1)) with 0 by lia. }
  assert (st3 = set_heap (heap st ++ [p; p]) st2) as Hst3.
  { unfold st3. simpl. by rewrite <- app_assoc. }
  rewrite <- Hst3.
  rewrite (bind_Ret _ _ _ _ _ (deref_Some _ _ _ Hc)).
  destruct (apiv1.Containers p) as [|ct cts] eqn:Hcts; [done|].
  assert (onlyPodChanged (S (length (heap st))) st3 st3) as Hinv.
  { eapply onlyPodChanged_refl; [done|]. rewrite Hcts. simpl. lia. }
  destruct (preserves_mutation _ _ _ Hinv) as ([] & st4 & Hrun & Hinv4).
  exists st4. split; [done|]. split; [done|].
  rewrite bool_decide_eq_false_2 by (simpl; lia).
  unfold addressOfContainer.
  rewrite bind_run, (bind_Ret _ _ _ _ _ (deref_Some _ _ _ Hc)).
  rewrite Hcts, bool_decide_eq_true_2 by (simpl; lia).
  rewrite mret_run.
  revert Hrun. unfold mbind, M_bind.
  destruct (addOwnerReference _ _ _ _) as [[[]|?] ?]; [|done].
  destruct (handleConfigMaps _ _ _ _) as [[[]|?] ?]; [|done].
  destruct (handleSecrets _ _ _ _) as [[[]|?] ?]; [|done].
  destruct (removeSelf _ _) as [[[]|?] ?]; [|done].
  by intros [= ->].
Qed.

(** The queued path returns, whatever the key and the world. *)
Lemma syncSparkPod_summary key st :
  let '(namespace, name, _) := getNamespaceName key in
  ∃ r err st' events,
    syncSparkPod config secret w key st = (Ret (r, err), st')
    ∧ syncSparkPod_post w namespace name st err st' events.
Proof.
  pose proof (syncSparkPod_run key st) as Hrun.
  destruct (getNamespaceName key) as [[namespace name] err0].
  simpl in Hrun. unfold syncSparkPod_post.
  destruct (pods_Get w namespace name) as [e|p] eqn:Hget.
  { eexists _, _, _, []. split; [exact Hrun|]. simpl.
    split_and!; try done.
    - intros e' He'. left. destruct e as [[] ?|?]; simplify_eq; eauto.
    - by intros ? ? ? ?%elem_of_nil. }
  destruct (DeepCopy_error w p) as [e|].
  { eexists _, _, _, [Glog INFO "Processing Spark %s pod %s"].
    split; [exact Hrun|]. simpl. split_and!; try done.
    - rewrite <- app_assoc. done.
    - intros l x Hl. by apply lookup_app_l_Some.
    - intros ? [= <-]. by rewrite lookup_app_r, Nat.sub_diag.
    - intros e' [= <-]. left. eauto.
    - by intros ? ? ? ?%list_elem_of_singleton. }
  destruct (apiv1.Containers p) as [|ct cts] eqn:Hcts.
  { eexists _, _, _, [Glog INFO "Processing Spark %s pod %s"].
    split; [exact Hrun|]. simpl. split_and!; try done.
    - rewrite <- app_assoc. done.
    - intros l x Hl. by apply lookup_app_l_Some.
    - intros ? [= <-]. rewrite lookup_app_r by done. by rewrite Nat.sub_diag.
    - intros e' [= <-]. right. eauto.
    - by intros ? ? ? ?%list_elem_of_singleton. }
  destruct Hrun as (st4 & _ & Hinv & Hrun).
  destruct Hinv as (x & logs & Hc & Hheap & Hx & Hcfg & Htr & Hlogs).
  simpl in Hheap, Hcfg, Htr, Hc.
  set (n := length (heap st)) in *.
  assert (heap st4 !! n = Some p) as Ho.
  { rewrite Hheap, list_lookup_insert_ne by lia.
    by rewrite lookup_app_r, Nat.sub_diag. }
  assert (heap st4 !! S n = Some x) as Hm.
  { rewrite Hheap. apply list_lookup_insert_eq. rewrite length_app. simpl.
    fold n. lia. }
  assert (∀ l y, heap st !! l = Some y → heap st4 !! l = Some y) as Hframe.
  { intros l y Hl. pose proof (lookup_lt_Some _ _ _ Hl) as Hlt.
    rewrite Hheap, list_lookup_insert_ne by (fold n in Hlt; lia).
    by apply lookup_app_l_Some. }
  assert (trace st4 = trace st ++ PodsGet namespace name ::
            Glog INFO "Processing Spark %s pod %s" :: logs) as Htr4.
  { rewrite Htr, <- !app_assoc. done. }
  assert (queueCalls (Glog INFO "Processing Spark %s pod %s" :: logs) = [])
    as Hq by (simpl; by apply queueCalls_glog).
  assert (∀ e : ExtError,
            patchPod w (Ptr n) (Ptr (S n)) st4
            = (Ret (nil_ptr, Some (External e)), st4) →
            ∃ r err st' events,
              patchPod w (Ptr n) (Ptr (S n)) st4 = (Ret (r, err), st')
              ∧ syncSparkPod_post w namespace name st err st' events) as Hfail.
  { intros e He. exists nil_ptr, (Some (External e)), st4,
      (Glog INFO "Processing Spark %s pod %s" :: logs).
    split; [done|]. unfold syncSparkPod_post. fold n. rewrite Hget.
    split_and!; try done.
    - by intros p0 [= <-].
    - intros e' [= <-]. eauto.
    - intros ? ? ? [?|Hin]%elem_of_cons; [done|].
      exfalso. eapply (not_glog_not_logged logs); [done| |exact Hin]. done. }
  rewrite Hrun. unfold syncSparkPod_post in *. fold n in Hfail |- *.
  rewrite Hget in Hfail.
  rewrite (patchPod_run _ _ _ _ _ Ho Hm) in *.
  destruct (json_Marshal w p) as [e|originalData] eqn:Hod; [by eapply Hfail|].
  destruct (json_Marshal w x) as [e|modifiedData] eqn:Hmd; [by eapply Hfail|].
  destruct (CreateTwoWayMergePatch w originalData modifiedData) as [e|patch]
    eqn:Hpatch; [by eapply Hfail|].
  clear Hfail Hrun.
  rewrite Pods_Patch_run. simpl.
  assert (queueCalls
            (Glog INFO "Processing Spark %s pod %s" ::
             logs ++ [PodsPatch (apiv1.Namespace p) (apiv1.Name p) patch]) = [])
    as Hq'.
  { change (queueCalls
              (logs ++ [PodsPatch (apiv1.Namespace p) (apiv1.Name p) patch]) = []).
    rewrite queueCalls_app. by rewrite (queueCalls_glog logs). }
  assert (∀ st', heap st' !! S n = Some x →
            ∀ namespace' name' patch',
              PodsPatch namespace' name' patch'
              ∈ Glog INFO "Processing Spark %s pod %s" ::
                logs ++ [PodsPatch (apiv1.Namespace p) (apiv1.Name p) patch] →
              ∃ p0 x0 originalData0 modifiedData0,
                @inr ExtError Pod p = inr p0
                ∧ heap st' !! S n = Some x0
                ∧ json_Marshal w p0 = inr originalData0
                ∧ json_Marshal w x0 = inr modifiedData0
                ∧ CreateTwoWayMergePatch w originalData0 modifiedData0 = inr patch'
                ∧ namespace' = apiv1.Namespace p0
                ∧ name' = apiv1.Name p0) as Hbase.
  { intros st' Hx' ? ? ? [?|Hin]%elem_of_cons; [done|].
    apply elem_of_app in Hin as [Hin|Hin].
    - exfalso. eapply (not_glog_not_logged logs); [done| |exact Hin]. done.
    - apply list_elem_of_singleton in Hin as [= -> -> ->].
      by exists p, x, originalData, modifiedData. }
  destruct (pods_Patch w (apiv1.Namespace p) (apiv1.Name p) patch) as [e|p'];
    eexists _, _, _,
      (Glog INFO "Processing Spark %s pod %s" ::
       logs ++ [PodsPatch (apiv1.Namespace p) (apiv1.Name p) patch]);
    (split; [reflexivity|]); simpl; split_and!; try done.
  - rewrite Htr4, <- app_assoc. done.
  - by intros ? [= <-].
  - intros e' [= <-]. eauto.
  - by apply Hbase.
  - rewrite Htr4, <- app_assoc. done.
  - intros l y Hl. apply lookup_app_l_Some. by apply Hframe.
  - intros ? [= <-]. by apply lookup_app_l_Some.
  - intros ? ? ? Hin.
    apply (Hbase (set_heap (heap st4 ++ [p']) st4)); [|done].
    simpl. by apply lookup_app_l_Some.
Qed.

(** ** The claims about the handlers, the worker and the two paths *)

(** C4: a watch event whose payload is not a pod.  onPodAdded logs it and
    returns, with no call to the queue.  onPodDeleted logs it as well, but
    goes on to isSparkPod with the nil pod of the failed assertion, and the
    read of its labels panics. *)
Theorem non_pod_payload_onPodDeleted_panics (description : string) (st : State) :
  onPodAdded w (OtherObject description) st
  = (Ret (), add_event (Glog ERROR "received non-pod object: %v") st)
  ∧ onPodDeleted (OtherObject description) st
    = (Panic "invalid memory address or nil pointer dereference",
       add_event (Glog ERROR "received non-pod object: %v") st).
Proof. done. Qed.

(** C3: when the owner-reference annotation is present and does not
    deserialize, addOwnerReference logs the failure and then appends the
    owner reference it was decoding into to the pod's list all the same:
    the step is not skipped.  It returns, so whatever follows it runs, in
    the state it leaves. *)
Theorem addOwnerReference_appends_on_failure (st : State) (l : nat) (p : Pod)
    (ownerReferenceStr : string) (ownerReference : metav1.OwnerReference)
    (e : ExtError) :
  heap st !! l = Some p →
  apiv1.Annotations p !! OwnerReferenceAnnotation config = Some ownerReferenceStr →
  OwnerReference_Unmarshal w ownerReferenceStr = (ownerReference, Some e) →
  ∃ st',
    addOwnerReference config w (Ptr l) st = (Ret (), st')
    ∧ trace st'
      = trace st ++ [Glog ERROR "failed to add OwnerReference to Pod %s: %v"]
    ∧ heap st' !! l
      = Some (set_OwnerReferences
                (apiv1.OwnerReferences p ++ [ownerReference]) p)
    ∧ length (apiv1.OwnerReferences p ++ [ownerReference])
      = S (length (apiv1.OwnerReferences p))
    ∧ ∀ A (rest : M A),
        (addOwnerReference config w (Ptr l);; rest) st = rest st'.
Proof.
  intros Hl Ha Hu.
  pose proof (addOwnerReference_run _ _ _ Hl) as Hrun.
  rewrite Ha, Hu in Hrun.
  eexists. split; [exact Hrun|]. simpl. split; [done|]. split; [|split].
  - apply list_lookup_insert_eq. by eapply lookup_lt_Some.
  - rewrite length_app. simpl. lia.
  - intros A rest. by rewrite (bind_Ret _ _ _ _ _ Hrun).
Qed.

(** C7: a fetched pod with no container makes syncSparkPod return the
    error about containers, once the copy is made: both the fetched pod
    and its copy are as fetched, and the only calls are the fetch and a
    log, so no patch is submitted.  With a container, taking the address
    of the first container is within bounds, and syncSparkPod returns and
    does not panic.  Without a container syncSparkPod returns an error in
    any case, also when the copy fails, and nothing is submitted and no
    object differs from the fetched pod. *)
Theorem syncSparkPod_validates_containers (key namespace name : string)
    (err0 : option error) (st : State) (p : Pod) :
  getNamespaceName key = (namespace, name, err0) →
  pods_Get w namespace name = inr p →
  (apiv1.Containers p = [] → DeepCopy_error w p = None →
     syncSparkPod config secret w key st
     = (Ret (nil_ptr,
             Some (Errorf "no container found in Pod %s"
                     [ArgString (apiv1.Name p)])),
        {| heap := heap st ++ [p; p];
           configs := configs st;
           trace := trace st ++ [PodsGet namespace name;
                                 Glog INFO "Processing Spark %s pod %s"] |}))
  ∧ (apiv1.Containers p ≠ [] → DeepCopy_error w p = None →
       let st3 := {| heap := heap st ++ [p; p];
                     configs := configs st;
                     trace := trace st ++ [PodsGet namespace name;
                                           Glog INFO "Processing Spark %s pod %s"] |} in
       addressOfContainer (Ptr (S (length (heap st)))) 0 st3
       = (Ret {| OfPod := Ptr (S (length (heap st))); Index := 0 |}, st3))
  ∧ (apiv1.Containers p ≠ [] →
       ∃ r err st', syncSparkPod config secret w key st = (Ret (r, err), st'))
  ∧ (apiv1.Containers p = [] →
       ∃ e st' events,
         syncSparkPod config secret w key st = (Ret (nil_ptr, Some e), st')
         ∧ trace st' = trace st ++ events
         ∧ List.filter isSubmission events = []
         ∧ (heap st' = heap st ++ [p] ∨ heap st' = heap st ++ [p; p])).
Proof.
  intros Hkey Hget. pose proof (syncSparkPod_run key st) as Hrun.
  rewrite Hkey in Hrun. simpl in Hrun. rewrite Hget in Hrun.
  split_and!.
  - intros Hcts Hcopy. rewrite Hcopy, Hcts in Hrun. rewrite Hrun.
    f_equal. unfold add_event, set_heap. simpl. by rewrite <- app_assoc.
  - intros Hcts Hcopy st3. unfold addressOfContainer.
    assert (heap st3 !! S (length (heap st)) = Some p) as Hc.
    { simpl. rewrite lookup_app_r by lia.
      by replace (S (length (heap st)) - length (heap st)) with 1 by lia. }
    rewrite (bind_Ret _ _ _ _ _ (deref_Some _ _ _ Hc)).
    rewrite bool_decide_eq_true_2; [done|].
    destruct (apiv1.Containers p); [done|simpl; lia].
  - intros Hcts. pose proof (syncSparkPod_summary key st) as Hsum.
    rewrite Hkey in Hsum. destruct Hsum as (r & err & st' & _ & Hsum & _).
    by exists r, err, st'.
  - intros Hcts. rewrite Hcts in Hrun.
    destruct (DeepCopy_error w p) as [e|];
      eexists _, _, [PodsGet namespace name;
                     Glog INFO "Processing Spark %s pod %s"];
      (split; [exact Hrun|]); simpl; rewrite <- app_assoc;
      (split; [done|]); (split; [done|]); [by left|by right].
Qed.

Lemma processNextItem_run (h : string → M (ptr * option error))
    key st r err st1 :
  queue_Get w = (key, false) →
  h key (add_event QueueGet st) = (Ret (r, err), st1) →
  ∃ st',
    processNextItem w {| syncHandler := h |} st = (Ret true, st')
    ∧ heap st' = heap st1 ∧ configs st' = configs st1
    ∧ trace st'
      = trace st1 ++
        match err with
        | None => [QueueForget key; QueueDone key]
        | Some e =>
            [HandleError (Errorf "failed to sync pod %q: %v"
                            [ArgString key; ArgError e]);
             QueueAddRateLimited key; QueueDone key]
        end.
Proof.
  intros Hq Hh. unfold processNextItem.
  rewrite (bind_Ret _ _ _ _ _ (emit_run _ _)), Hq. simpl.
  unfold defer. rewrite bind_run, Hh.
  destruct err as [e|]; eexists; (split; [reflexivity|]); simpl;
    by rewrite <- !app_assoc.
Qed.

(** C5: one turn of the worker on a key the queue hands out.  syncSparkPod
    returns, without calling the queue; on a nil error the worker calls
    Forget and then Done, on any error it reports it, calls AddRateLimited
    and then Done, so Done is called once on the key either way; and a
    not-found answer to the fetch makes the error nil. *)
Theorem processNextItem_outcomes (key : string) (st : State) :
  queue_Get w = (key, false) →
  ∃ r err st1 st' events,
    syncSparkPod config secret w key (add_event QueueGet st) = (Ret (r, err), st1)
    ∧ trace st1 = trace st ++ QueueGet :: events
    ∧ queueCalls events = []
    ∧ processNextItem w (New config secret w) st = (Ret true, st')
    ∧ trace st'
      = trace st1 ++
        match err with
        | None => [QueueForget key; QueueDone key]
        | Some e =>
            [HandleError (Errorf "failed to sync pod %q: %v"
                            [ArgString key; ArgError e]);
             QueueAddRateLimited key; QueueDone key]
        end
    ∧ (∃ calls,
         trace st' = trace st ++ calls
         ∧ queueCalls calls
           = match err with
             | None => [QueueGet; QueueForget key; QueueDone key]
             | Some _ => [QueueGet; QueueAddRateLimited key; QueueDone key]
             end)
    ∧ (∀ namespace name err0 message,
         getNamespaceName key = (namespace, name, err0) →
         pods_Get w namespace name
         = inl (StatusError StatusReasonNotFound message) →
         err = None).
Proof.
  intros Hq.
  pose proof (syncSparkPod_summary key (add_event QueueGet st)) as Hsum.
  pose proof (syncSparkPod_run key (add_event QueueGet st)) as Hrun.
  destruct (getNamespaceName key) as [[namespace name] err0].
  destruct Hsum as (r & err & st1 & events & Hsync & Htr & Hqc & _).
  destruct (processNextItem_run _ key st r err st1 Hq Hsync)
    as (st' & Hproc & _ & _ & Htr').
  exists r, err, st1, st', (PodsGet namespace name :: events).
  split; [done|]. split; [by rewrite Htr; simpl; rewrite <- app_assoc|].
  split; [done|]. split; [done|]. split; [done|].
  split.
  { exists ((QueueGet :: PodsGet namespace name :: events) ++
            match err with
            | None => [QueueForget key; QueueDone key]
            | Some e =>
                [HandleError (Errorf "failed to sync pod %q: %v"
                                [ArgString key; ArgError e]);
                 QueueAddRateLimited key; QueueDone key]
            end).
    split.
    - rewrite Htr', Htr. simpl. by rewrite <- !app_assoc.
    - rewrite queueCalls_app. simpl. rewrite Hqc. by destruct err. }
  intros ? ? ? message [= <- <- <-] Hget. simpl in Hrun.
  rewrite Hget in Hrun. rewrite Hrun in Hsync. by injection Hsync as <- <- _.
Qed.

(** C9: both paths leave the pod they are given as it was.  After
    syncSparkPod every object that existed before is unchanged and so is
    the object the fetch returned; a patch that was submitted is the
    difference between that fetched object and the copy.  After
    handleNonSparkPod the pod of the watch event and every other object are
    unchanged; when the copy succeeds, it is the copy that has lost the
    sentinel and that is submitted. *)
Theorem reconciliation_mutates_only_the_copy :
  (∀ key namespace name err0 st r st',
     getNamespaceName key = (namespace, name, err0) →
     syncSparkPod config secret w key st = (r, st') →
     (∀ l x, heap st !! l = Some x → heap st' !! l = Some x)
     ∧ (∀ p, pods_Get w namespace name = inr p →
             heap st' !! length (heap st) = Some p)
     ∧ ∃ events,
         trace st' = trace st ++ PodsGet namespace name :: events
         ∧ ∀ namespace' name' patch,
             PodsPatch namespace' name' patch ∈ events →
             ∃ p copy originalData modifiedData,
               pods_Get w namespace name = inr p
               ∧ heap st' !! length (heap st) = Some p
               ∧ heap st' !! S (length (heap st)) = Some copy
               ∧ json_Marshal w p = inr originalData
               ∧ json_Marshal w copy = inr modifiedData
               ∧ CreateTwoWayMergePatch w originalData modifiedData = inr patch
               ∧ namespace' = apiv1.Namespace p
               ∧ name' = apiv1.Name p)
  ∧ (∀ st l p r st',
       heap st !! l = Some p →
       handleNonSparkPod w (Ptr l) st = (r, st') →
       heap st' !! l = Some p
       ∧ (∀ l' x, heap st !! l' = Some x → heap st' !! l' = Some x)
       ∧ (DeepCopy_error w p = None →
            heap st' !! length (heap st) = Some (withoutSelf p)
            ∧ PodsUpdate (withoutSelf p) ∈ trace st')).
Proof.
  split.
  - intros key namespace name err0 st r st' Hkey Hrun.
    pose proof (syncSparkPod_summary key st) as Hsum. rewrite Hkey in Hsum.
    destruct Hsum as (r0 & err & st0 & events & Hrun0 & Hpost).
    rewrite Hrun in Hrun0. injection Hrun0 as -> ->.
    destruct Hpost as (Htr & _ & Hframe & Hfetched & _ & _ & Hbase).
    split; [done|]. split; [done|]. exists events. split; [done|].
    intros namespace' name' patch Hin.
    destruct (Hbase _ _ _ Hin) as (p & x & od & md & Hget & Hx & ?).
    exists p, x, od, md. split; [done|]. split; [by apply Hfetched|]. done.
  - intros st l p r st' Hl Hrun.
    pose proof (handleNonSparkPod_run st l p Hl) as Hinline.
    destruct (DeepCopy_error w p) as [e|].
    { rewrite Hinline in Hrun. injection Hrun as <- <-. by split_and!. }
    destruct Hinline as (st0 & logs & Hrun0 & Hheap & _ & Htr & _).
    rewrite Hrun in Hrun0. injection Hrun0 as -> ->.
    rewrite Hheap. split_and!.
    + by apply lookup_app_l_Some.
    + intros l' x Hl'. by apply lookup_app_l_Some.
    + intros _. split.
      * rewrite lookup_app_r by done. by rewrite Nat.sub_diag.
      * rewrite Htr. set_solver.
Qed.

(** C10: on a key that does not split into two parts getNamespaceName
    reports the malformed key, and syncSparkPod does not: it fetches with
    the empty namespace and the empty name, and the error it returns, if
    any, is never the one about the key.  On the key that getQueueKey
    makes of a pod whose namespace and name hold no slash,
    getNamespaceName gives back that namespace and that name and no
    error. *)
Theorem malformed_key_error_is_discarded :
  (∀ key st,
     length (Split key slash) ≠ 2 →
     getNamespaceName key
     = (EmptyString, EmptyString,
        Some (Errorf "malformed queue key %s" [ArgString key]))
     ∧ ∃ r err st' events,
         syncSparkPod config secret w key st = (Ret (r, err), st')
         ∧ trace st' = trace st ++ PodsGet EmptyString EmptyString :: events
         ∧ ∀ args, err ≠ Some (Errorf "malformed queue key %s" args))
  ∧ (∀ pod,
       ¬ hasByte slash (apiv1.Namespace pod) →
       ¬ hasByte slash (apiv1.Name pod) →
       getNamespaceName (getQueueKey pod)
       = (apiv1.Namespace pod, apiv1.Name pod, None)).
Proof.
  split; [|apply getNamespaceName_getQueueKey].
  intros key st Hkey.
  assert (getNamespaceName key
          = (EmptyString, EmptyString,
             Some (Errorf "malformed queue key %s" [ArgString key]))) as Hparse.
  { unfold getNamespaceName. by rewrite bool_decide_eq_true_2. }
  split; [done|].
  pose proof (syncSparkPod_summary key st) as Hsum. rewrite Hparse in Hsum.
  destruct Hsum as (r & err & st' & events & Hrun & Htr & _ & _ & _ & _ & Herr & _).
  exists r, err, st', events. split; [done|]. split; [done|].
  intros args Hargs. destruct (Herr _ Hargs) as [[x Hx]|[name Hname]]; done.
Qed.

Lemma Configs_Get_run name st :
  Configs_Get w name st =
    let st1 := add_event (ConfigGet name) st in
    match configs_fault w OpGet with
    | Some e => (Ret (emptyConfiguration, Some (External e)), st1)
    | None =>
        match configs st !! name with
        | Some c => (Ret (c, None), st1)
        | None => (Ret (emptyConfiguration, Some (notFound name)), st1)
        end
    end.
Proof.
  unfold Configs_Get. rewrite (bind_Ret _ _ _ _ _ (emit_run _ _)).
  unfold getState. rewrite bind_run. simpl.
  destruct (configs_fault w OpGet); [done|].
  by destruct (configs st !! name).
Qed.

(** C8: addInitializationConfig against the registration records the API
    server holds, when the Get itself does not fail.  With no record it
    creates the record with the one entry named
    "pod-initializer.spark-operator.k8s.io", and a second call right after
    finds it and changes nothing.  With a record that has an entry of that
    name it makes no Create and no Update call and changes nothing.  With
    a record without such an entry it appends the entry and updates, and
    the record then has exactly one entry of that name. *)
Theorem addInitializationConfig_converges (st : State) :
  configs_fault w OpGet = None →
  (configs st !! initializerConfigName = None →
   configs_fault w OpCreate = None →
     ∃ st' st'',
       addInitializationConfig w st = (Ret None, st')
       ∧ configs st'
         = <[initializerConfigName :=
               {| v1alpha1.ObjectName := initializerConfigName;
                  v1alpha1.Initializers := [sparkPodInitializer] |}]> (configs st)
       ∧ trace st'
         = trace st ++ [ConfigGet initializerConfigName;
                        ConfigCreate sparkPodInitializerConfig]
       ∧ addInitializationConfig w st' = (Ret None, st'')
       ∧ configs st'' = configs st'
       ∧ (∃ c, configs st'' !! initializerConfigName = Some c
               ∧ length (selfEntries c) = 1))
  ∧ (∀ c, configs st !! initializerConfigName = Some c →
          initializerName ∈ (v1alpha1.Name <$> v1alpha1.Initializers c) →
          ∃ st',
            addInitializationConfig w st = (Ret None, st')
            ∧ configs st' = configs st
            ∧ trace st'
              = trace st ++
                [ConfigGet initializerConfigName;
                 Glog WARNING
                   "InitializerConfiguration %s with Initializer %s already exists"])
  ∧ (∀ c, configs st !! initializerConfigName = Some c →
          v1alpha1.ObjectName c = initializerConfigName →
          initializerName ∉ (v1alpha1.Name <$> v1alpha1.Initializers c) →
          configs_fault w OpUpdate = None →
          ∃ st' c',
            addInitializationConfig w st = (Ret None, st')
            ∧ c' = set_ConfigInitializers
                     (v1alpha1.Initializers c ++ [sparkPodInitializer]) c
            ∧ configs st' = <[initializerConfigName := c']> (configs st)
            ∧ ConfigUpdate c' ∈ trace st'
            ∧ length (selfEntries c') = 1).
Proof.
  intros Hget.
  assert (∀ st c, configs st !! initializerConfigName = Some c →
            findSelf (v1alpha1.Initializers c) = true →
            addInitializationConfig w st
            = (Ret None,
               add_event
                 (Glog WARNING
                    "InitializerConfiguration %s with Initializer %s already exists")
                 (add_event (ConfigGet initializerConfigName) st))) as Hfound.
  { intros st0 c Hc Hfind. unfold addInitializationConfig.
    rewrite bind_run, Configs_Get_run, Hget. simpl. rewrite Hc. simpl.
    rewrite Hfind. done. }
  split_and!.
  - intros Habsent Hcreate.
    assert (addInitializationConfig w st
            = (Ret None,
               set_configs
                 (<[initializerConfigName := sparkPodInitializerConfig]> (configs st))
                 (add_event (ConfigCreate sparkPodInitializerConfig)
                    (add_event (ConfigGet initializerConfigName) st)))) as Hrun.
    { unfold addInitializationConfig.
      rewrite bind_run, Configs_Get_run, Hget. simpl. rewrite Habsent. simpl.
      unfold Configs_Create. rewrite bind_run.
      rewrite (bind_Ret _ _ _ _ _ (emit_run _ _)).
      unfold getState. rewrite bind_run. simpl. rewrite Hcreate, Habsent.
      done. }
    eexists _, _. split; [exact Hrun|]. simpl. split; [done|].
    split; [by rewrite <- app_assoc|].
    split.
    { apply (Hfound _ sparkPodInitializerConfig); [|done].
      simpl. apply lookup_insert_eq. }
    split; [done|].
    exists sparkPodInitializerConfig. split; [|done].
    simpl. apply lookup_insert_eq.
  - intros c Hc Hin%findSelf_spec. eexists. split; [by eapply Hfound|].
    simpl. split; [done|]. by rewrite <- app_assoc.
  - intros c Hc Hname Hnotin Hupdate.
    assert (findSelf (v1alpha1.Initializers c) = false) as Hfind.
    { destruct (findSelf (v1alpha1.Initializers c)) eqn:Hf; [|done].
      by apply findSelf_spec in Hf. }
    eexists _, _. split.
    { unfold addInitializationConfig.
      rewrite bind_run, Configs_Get_run, Hget. simpl. rewrite Hc. simpl.
      rewrite Hfind.
      rewrite (bind_Ret _ _ _ _ _ (glog_run _ _ _)).
      rewrite (bind_Ret _ _ _ _ _ (glog_run _ _ _)).
      unfold Configs_Update. rewrite bind_run.
      rewrite (bind_Ret _ _ _ _ _ (emit_run _ _)).
      unfold getState. rewrite bind_run. simpl. rewrite Hupdate, Hname, Hc.
      reflexivity. }
    simpl. split; [done|]. split; [done|]. split; [set_solver|].
    unfold selfEntries. simpl. rewrite filter_app, selfEntries_absent by done.
    done.
Qed.

End Reconciliation.

Lemma onPodAdded_classifies_witness :
  heap (stateOf [driverPod]) !! 0 = Some driverPod
  ∧ hasSentinel driverPod ∧ hasSparkRole driverPod
  ∧ onPodAdded (testWorld "ns/driver-1" None) (PodObject (Ptr 0))
               (stateOf [driverPod])
    = (Ret (), add_event (QueueAddRateLimited "ns/driver-1") (stateOf [driverPod])).
Proof.
  assert (hasSentinel driverPod) as Hs.
  { eexists. split; [reflexivity|]. simpl. set_solver. }
  assert (hasSparkRole driverPod) as Hr by (by left).
  split; [reflexivity|]. split; [exact Hs|]. split; [exact Hr|].
  exact (proj1 (onPodAdded_classifies (testWorld "ns/driver-1" None)
                  (stateOf [driverPod]) 0 driverPod eq_refl) Hs Hr).
Defined.

Lemma addOwnerReference_appends_on_failure_witness :
  ∃ st',
    addOwnerReference testConfig (testWorld "ns/driver-3" (Some ownedPod))
      (Ptr 0) (stateOf [ownedPod]) = (Ret (), st')
    ∧ trace st' = [Glog ERROR "failed to add OwnerReference to Pod %s: %v"]
    ∧ heap st' !! 0
      = Some (set_OwnerReferences [zeroOwnerReference] ownedPod)
    ∧ length [zeroOwnerReference] = 1
    ∧ ∀ A (rest : M A),
        (addOwnerReference testConfig (testWorld "ns/driver-3" (Some ownedPod))
           (Ptr 0);; rest) (stateOf [ownedPod]) = rest st'.
Proof.
  exact (addOwnerReference_appends_on_failure testConfig
           (testWorld "ns/driver-3" (Some ownedPod)) (stateOf [ownedPod]) 0
           ownedPod "not an owner reference" zeroOwnerReference
           (LibraryError "proto: illegal wireType") eq_refl eq_refl eq_refl).
Defined.

Lemma syncSparkPod_validates_containers_witness :
  syncSparkPod testConfig testSecret (testWorld "ns/driver-2" (Some emptyDriverPod))
    "ns/driver-2" (stateOf [])
  = (Ret (nil_ptr,
          Some (Errorf "no container found in Pod %s" [ArgString "driver-2"])),
     {| heap := [emptyDriverPod; emptyDriverPod];
        configs := ∅;
        trace := [PodsGet "ns" "driver-2";
                  Glog INFO "Processing Spark %s pod %s"] |}).
Proof.
  exact (proj1 (syncSparkPod_validates_containers testConfig testSecret
                  (testWorld "ns/driver-2" (Some emptyDriverPod))
                  "ns/driver-2" "ns" "driver-2" None (stateOf []) emptyDriverPod
                  eq_refl eq_refl) eq_refl eq_refl).
Defined.

Lemma processNextItem_outcomes_witness :
  ∃ r err st1 st' events,
    syncSparkPod testConfig testSecret (testWorld "ns/driver-1" None)
      "ns/driver-1" (add_event QueueGet (stateOf [])) = (Ret (r, err), st1)
    ∧ trace st1 = trace (stateOf []) ++ QueueGet :: events
    ∧ queueCalls events = []
    ∧ processNextItem (testWorld "ns/driver-1" None)
        (New testConfig testSecret (testWorld "ns/driver-1" None)) (stateOf [])
      = (Ret true, st')
    ∧ trace st'
      = trace st1 ++
        match err with
        | None => [QueueForget "ns/driver-1"; QueueDone "ns/driver-1"]
        | Some e =>
            [HandleError (Errorf "failed to sync pod %q: %v"
                            [ArgString "ns/driver-1"; ArgError e]);
             QueueAddRateLimited "ns/driver-1"; QueueDone "ns/driver-1"]
        end
    ∧ (∃ calls,
         trace st' = trace (stateOf []) ++ calls
         ∧ queueCalls calls
           = match err with
             | None => [QueueGet; QueueForget "ns/driver-1"; QueueDone "ns/driver-1"]
             | Some _ =>
                 [QueueGet; QueueAddRateLimited "ns/driver-1"; QueueDone "ns/driver-1"]
             end)
    ∧ (∀ namespace name err0 message,
         getNamespaceName "ns/driver-1" = (namespace, name, err0) →
         pods_Get (testWorld "ns/driver-1" None) namespace name
         = inl (StatusError StatusReasonNotFound message) →
         err = None).
Proof.
  exact (processNextItem_outcomes testConfig testSecret
           (testWorld "ns/driver-1" None) "ns/driver-1" (stateOf []) eq_refl).
Defined.

Lemma reconciliation_mutates_only_the_copy_witness :
  heap (stateOf [utilPod]) !! 0 = Some utilPod
  ∧ ∀ r st',
      handleNonSparkPod (testWorld "ns/util-1" (Some utilPod)) (Ptr 0)
        (stateOf [utilPod]) = (r, st') →
      heap st' !! 0 = Some utilPod
      ∧ heap st' !! 1 = Some (withoutSelf utilPod)
      ∧ PodsUpdate (withoutSelf utilPod) ∈ trace st'.
Proof.
  split; [reflexivity|]. intros r st' Hrun.
  destruct (proj2 (reconciliation_mutates_only_the_copy testConfig testSecret
                     (testWorld "ns/util-1" (Some utilPod)))
              (stateOf [utilPod]) 0 utilPod r st' eq_refl Hrun)
    as (Hsame & _ & Hcopy).
  split; [exact Hsame|]. exact (Hcopy eq_refl).
Defined.

Lemma malformed_key_error_is_discarded_witness :
  length (Split "ns/driver/1" slash) ≠ 2
  ∧ getNamespaceName "ns/driver/1"
    = (EmptyString, EmptyString,
       Some (Errorf "malformed queue key %s" [ArgString "ns/driver/1"]))
  ∧ (∃ r err st' events,
       syncSparkPod testConfig testSecret (testWorld "ns/driver/1" None)
         "ns/driver/1" (stateOf []) = (Ret (r, err), st')
       ∧ trace st' = trace (stateOf []) ++ PodsGet EmptyString EmptyString :: events
       ∧ ∀ args, err ≠ Some (Errorf "malformed queue key %s" args))
  ∧ getNamespaceName (getQueueKey driverPod) = ("ns", "driver-1", None).
Proof.
  assert (length (Split "ns/driver/1" slash) ≠ 2) as Hkey by (vm_compute; lia).
  assert (¬ hasByte slash "ns") as Hns
    by (unfold hasByte; simpl; intuition discriminate).
  assert (¬ hasByte slash "driver-1") as Hname
    by (unfold hasByte; simpl; intuition discriminate).
  split; [exact Hkey|].
  destruct (malformed_key_error_is_discarded testConfig testSecret
              (testWorld "ns/driver/1" None)) as [Hbad Hgood].
  destruct (Hbad "ns/driver/1" (stateOf []) Hkey) as [Hparse Hsync].
  split; [exact Hparse|]. split; [exact Hsync|].
  exact (Hgood driverPod Hns Hname).
Defined.

Lemma addInitializationConfig_converges_witness :
  ∃ st' st'',
    addInitializationConfig (testWorld "ns/driver-1" None) (stateOf [])
    = (Ret None, st')
    ∧ configs st'
      = <[initializerConfigName :=
            {| v1alpha1.ObjectName := initializerConfigName;
               v1alpha1.Initializers := [sparkPodInitializer] |}]> ∅
    ∧ trace st' = [ConfigGet initializerConfigName;
                   ConfigCreate sparkPodInitializerConfig]
    ∧ addInitializationConfig (testWorld "ns/driver-1" None) st' = (Ret None, st'')
    ∧ configs st'' = configs st'
    ∧ (∃ c, configs st'' !! initializerConfigName = Some c
            ∧ length (selfEntries c) = 1).
Proof.
  exact (proj1 (addInitializationConfig_converges
                  (testWorld "ns/driver-1" None) (stateOf []) eq_refl)
           eq_refl eq_refl).
Defined.

(** The queued path on a pod whose owner-reference annotation does not
    deserialize: the failure is logged, the copy gets an owner reference
    all the same, the sentinel is removed and the patch is submitted. *)
Example syncSparkPod_on_malformed_owner_reference :
  let w := testWorld "ns/driver-3" (Some ownedPod) in
  let result := syncSparkPod testConfig testSecret w "ns/driver-3" (stateOf []) in
  fst result = Ret (Ptr 2, None)
  ∧ trace (snd result)
    = [PodsGet "ns" "driver-3";
       Glog INFO "Processing Spark %s pod %s";
       Glog ERROR "failed to add OwnerReference to Pod %s: %v";
       Glog INFO "Removed initializer on pod %s";
       PodsPatch "ns" "driver-3" "driver-3=>driver-3"]
  ∧ apiv1.OwnerReferences <$> heap (snd result) !! 0 = Some []
  ∧ apiv1.OwnerReferences <$> heap (snd result) !! 1 = Some [zeroOwnerReference]
  ∧ apiv1.Initializers <$> heap (snd result) !! 1 = Some None.
Proof. vm_compute. done. Qed.

(** A delete event that carries the informer's tombstone instead of a
    pod. *)
Example onPodDeleted_on_tombstone :
  onPodDeleted (OtherObject "cache.DeletedFinalStateUnknown") (stateOf [])
  = (Panic "invalid memory address or nil pointer dereference",
     {| heap := []; configs := ∅;
        trace := [Glog ERROR "received non-pod object: %v"] |}).
Proof. reflexivity. Qed.

(** A present but empty pending list is turned into an absent one. *)
Example removeSelf_on_empty_pending_list :
  let pod := mkPod "idle-1" ∅ ∅ (pendingOf []) [sparkContainer] in
  removeSelf (Ptr 0) (stateOf [pod])
  = (Ret (),
     {| heap := [set_Initializers None pod]; configs := ∅;
        trace := [Glog INFO "Removed initializer on pod %s"] |}).
Proof. reflexivity. Qed.

(** * Further properties of the package *)

(** ** Queue keys: what parses, and what a key stands for *)

Lemma Split_length s sep : length (Split s sep) = S (occurrences sep s).
Proof.
  induction s as [|c s IH]; [done|]. simpl. case_bool_decide; simpl.
  - by rewrite IH.
  - destruct (Split s sep) as [|piece pieces] eqn:Hs; simpl in *; lia.
Qed.

Lemma Split_pieces (s : string) (sep : ascii) :
  Forall (λ piece, ¬ hasByte sep piece) (Split s sep).
Proof.
  induction s as [|c s IH]; simpl.
  - constructor; [by intros []|constructor].
  - case_bool_decide as Hc.
    + constructor; [by intros []|done].
    + destruct (Split s sep) as [|piece pieces].
      { constructor; [|constructor]. unfold hasByte. simpl.
        by intros [->|[]]. }
      inversion_clear IH as [|? ? Hpiece Hpieces]. constructor; [|done].
      unfold hasByte. simpl. intros [->|Hin]; [done|]. by apply Hpiece.
Qed.

Lemma Split_nonempty s sep : Split s sep ≠ [].
Proof.
  intros Hs. pose proof (Split_length s sep) as Hlen. by rewrite Hs in Hlen.
Qed.

Lemma Split_one s sep b : Split s sep = [b] → s = b.
Proof.
  revert b. induction s as [|c s IH]; intros b; simpl.
  - by intros [= <-].
  - case_bool_decide.
    + intros [= _ Hs]. by apply Split_nonempty in Hs.
    + destruct (Split s sep) as [|piece pieces] eqn:Hs.
      { by apply Split_nonempty in Hs. }
      intros [= <- ->]. f_equal. by apply IH.
Qed.

Lemma Split_two s sep a b :
  Split s sep = [a; b] → s = a +:+ String sep b.
Proof.
  revert a. induction s as [|c s IH]; intros a; simpl; [done|].
  case_bool_decide as Hc.
  - intros [= <- Hs]. subst c. apply Split_one in Hs. subst s. reflexivity.
  - destruct (Split s sep) as [|piece pieces] eqn:Hs; [done|].
    intros [= <- ->]. rewrite (IH piece eq_refl) at 1. reflexivity.
Qed.

(** X1: a key that getNamespaceName accepts is the namespace it returns,
    a slash, and the name it returns, and neither part holds a slash: the
    key is what getQueueKey makes of a pod of that namespace and name. *)
Theorem getNamespaceName_accepts_only_keys (key namespace name : string) :
  getNamespaceName key = (namespace, name, None) →
  key = namespace +:+ "/" +:+ name
  ∧ ¬ hasByte slash namespace
  ∧ ¬ hasByte slash name.
Proof.
  unfold getNamespaceName. case_bool_decide as Hlen; [done|].
  pose proof (Split_pieces key slash) as Hpieces.
  destruct (Split key slash) as [|a [|b [|c rest]]] eqn:Hsplit;
    simpl in Hlen; try (exfalso; apply Hlen; simpl; lia); try lia.
  intros [= <- <-].
  inversion_clear Hpieces as [|? ? Ha Hrest].
  inversion_clear Hrest as [|? ? Hb _].
  split; [|done]. by apply Split_two.
Qed.

Lemma getNamespaceName_accepts_only_keys_witness :
  getNamespaceName "ns/driver-1" = ("ns", "driver-1", None)
  ∧ "ns/driver-1" = "ns" +:+ "/" +:+ "driver-1"
  ∧ ¬ hasByte slash "ns"
  ∧ ¬ hasByte slash "driver-1".
Proof.
  split; [reflexivity|].
  exact (getNamespaceName_accepts_only_keys "ns/driver-1" "ns" "driver-1" eq_refl).
Defined.

(** X2: getNamespaceName accepts a key exactly when it holds one slash;
    every other key, the empty one and one with two slashes included, gets
    the malformed-key error together with an empty namespace and name. *)
Theorem getNamespaceName_one_slash (key : string) :
  (occurrences slash key = 1 →
     ∃ namespace name, getNamespaceName key = (namespace, name, None))
  ∧ (occurrences slash key ≠ 1 →
       getNamespaceName key
       = (EmptyString, EmptyString,
          Some (Errorf "malformed queue key %s" [ArgString key]))).
Proof.
  unfold getNamespaceName. rewrite Split_length. split; intros Hocc.
  - rewrite bool_decide_eq_false_2 by lia. eauto.
  - rewrite bool_decide_eq_true_2 by lia. done.
Qed.

Lemma getNamespaceName_one_slash_witness :
  occurrences slash "ns/driver/1" ≠ 1
  ∧ getNamespaceName "ns/driver/1"
    = (EmptyString, EmptyString,
       Some (Errorf "malformed queue key %s" [ArgString "ns/driver/1"])).
Proof.
  assert (occurrences slash "ns/driver/1" ≠ 1) as Hocc by (vm_compute; lia).
  split; [exact Hocc|].
  exact (proj2 (getNamespaceName_one_slash "ns/driver/1") Hocc).
Defined.

Lemma append_inj_r (a b c : string) : a +:+ b = a +:+ c → b = c.
Proof. induction a as [|x a IH]; simpl; [done|]. intros [= ?]. by apply IH. Qed.

(** X3: getQueueKey tells pods apart: two pods whose namespaces hold no
    slash and whose keys are equal have the same namespace and the same
    name. *)
Theorem getQueueKey_injective (p1 p2 : Pod) :
  ¬ hasByte slash (apiv1.Namespace p1) →
  ¬ hasByte slash (apiv1.Namespace p2) →
  getQueueKey p1 = getQueueKey p2 →
  apiv1.Namespace p1 = apiv1.Namespace p2 ∧ apiv1.Name p1 = apiv1.Name p2.
Proof.
  unfold getQueueKey. intros H1 H2 Hkey.
  change ("/" +:+ apiv1.Name p1) with (String slash (apiv1.Name p1)) in Hkey.
  change ("/" +:+ apiv1.Name p2) with (String slash (apiv1.Name p2)) in Hkey.
  assert (apiv1.Namespace p1 = apiv1.Namespace p2) as Hns.
  { pose proof (Split_at_first_sep _ (apiv1.Name p1) _ H1) as Hs1.
    pose proof (Split_at_first_sep _ (apiv1.Name p2) _ H2) as Hs2.
    rewrite Hkey, Hs2 in Hs1. by injection Hs1. }
  split; [done|]. rewrite Hns in Hkey.
  apply append_inj_r in Hkey. by injection Hkey.
Qed.

Lemma getQueueKey_injective_witness :
  ¬ hasByte slash (apiv1.Namespace driverPod)
  ∧ getQueueKey driverPod = getQueueKey driverPod
  ∧ apiv1.Namespace driverPod = apiv1.Namespace driverPod
  ∧ apiv1.Name driverPod = apiv1.Name driverPod.
Proof.
  assert (¬ hasByte slash (apiv1.Namespace driverPod)) as Hns
    by (unfold hasByte; simpl; intuition discriminate).
  split; [exact Hns|]. split; [reflexivity|].
  exact (getQueueKey_injective driverPod driverPod Hns Hns eq_refl).
Defined.

(** ** removeSelf: when it writes *)

(** X4: removeSelf leaves the whole state as it is exactly when the pod
    has no sentinel and its pending list is absent or not empty.  In every
    other case, a present but empty list included, it writes the pod
    without the sentinel, with a nil Initializers field when no entry is
    left, and logs "Removed initializer" once. *)
Theorem removeSelf_writes_and_logs (st : State) (l : nat) (p : Pod) :
  heap st !! l = Some p →
  let quiet :=
    isInitializerPresent p = false
    ∧ ∀ inits, apiv1.Initializers p = Some inits → metav1.Pending inits ≠ [] in
  (quiet → removeSelf (Ptr l) st = (Ret (), st))
  ∧ (¬ quiet →
       ∃ inits,
         apiv1.Initializers p = Some inits
         ∧ removeSelf (Ptr l) st
           = (Ret (),
              add_event (Glog INFO "Removed initializer on pod %s")
                (set_heap
                   (<[l := set_Initializers
                             match filter (λ pending,
                                             metav1.Name pending ≠ initializerName)
                                          (metav1.Pending inits) with
                             | [] => None
                             | others => Some (set_Pending others inits)
                             end p]> (heap st)) st))).
Proof.
  intros Hl quiet. split.
  { intros [Hp Hne]. by apply (removeSelf_noop st l p). }
  intros Hloud. unfold removeSelf.
  rewrite (bind_Ret _ _ _ _ _ (deref_Some _ _ _ Hl)).
  destruct (apiv1.Initializers p) as [inits|] eqn:Hi.
  2:{ exfalso. apply Hloud. split; [|done].
      unfold isInitializerPresent. by rewrite Hi. }
  exists inits. split; [done|].
  rewrite removeSelf_loop_filter.
  change (filter _ (metav1.Pending inits))
    with (filter notSelf (metav1.Pending inits)).
  destruct (filter notSelf (metav1.Pending inits)) as [|x others] eqn:Hf.
  - simpl. rewrite (bind_Ret _ _ _ _ _ (store_Some _ _ _ _ Hl)). done.
  - replace (bool_decide (0 < length (x :: others))) with true
      by (symmetry; apply bool_decide_eq_true; simpl; lia).
    rewrite andb_true_l. case_bool_decide as Hlen.
    + exfalso. apply Hloud.
      pose proof (filter_notSelf_all (metav1.Pending inits)) as Hall.
      rewrite Hf in Hall. specialize (Hall Hlen). split.
      * apply (isInitializerPresent_filter p inits Hi). by rewrite Hf.
      * intros inits' [= <-]. by rewrite <- Hall.
    + simpl. rewrite (bind_Ret _ _ _ _ _ (store_Some _ _ _ _ Hl)). done.
Qed.

Lemma removeSelf_writes_and_logs_witness :
  heap (stateOf [initializedPod]) !! 0 = Some initializedPod
  ∧ removeSelf (Ptr 0) (stateOf [initializedPod])
    = (Ret (), stateOf [initializedPod]).
Proof.
  split; [reflexivity|].
  apply (proj1 (removeSelf_writes_and_logs (stateOf [initializedPod]) 0
                  initializedPod eq_refl)).
  split; [reflexivity|]. intros inits Hinits. discriminate Hinits.
Defined.

(** ** Steps that only mount *)

Lemma onlyMounts_refl x0 : 0 < length (apiv1.Containers x0) → onlyMounts x0 x0.
Proof. intros Hx. by repeat split. Qed.

Lemma mountsOnly_lookup c x0 st0 st :
  mountsOnly c x0 st0 st → ∃ x, heap st !! c = Some x ∧ onlyMounts x0 x.
Proof.
  intros (x & Hc & Hheap & _ & Hx). exists x. split; [|done].
  rewrite Hheap. by apply list_lookup_insert_eq.
Qed.

Lemma mountsOnly_store c x0 st0 st v :
  mountsOnly c x0 st0 st → onlyMounts x0 v →
  mountsOnly c x0 st0 (set_heap (<[c := v]> (heap st)) st).
Proof.
  intros (x & Hc & Hheap & Hcfg & _) Hv. exists v. simpl.
  rewrite Hheap, list_insert_insert_eq. done.
Qed.

Lemma mountsOnly_event c x0 st0 st e :
  mountsOnly c x0 st0 st → mountsOnly c x0 st0 (add_event e st).
Proof. intros (x & ?). by exists x. Qed.

Lemma keeps_ret {A} c x0 st0 (a : A) : keeps c x0 st0 (mret a).
Proof. intros st Hst. by exists a, st. Qed.

Lemma keeps_bind {A B} c x0 st0 (m : M A) (f : A → M B) :
  keeps c x0 st0 m → (∀ a, keeps c x0 st0 (f a)) → keeps c x0 st0 (m ≫= f).
Proof.
  intros Hm Hf st Hst. destruct (Hm st Hst) as (a & st' & Hrun & Hst').
  rewrite (bind_Ret _ _ _ _ _ Hrun). by apply Hf.
Qed.

Lemma keeps_glog c x0 st0 severity format :
  keeps c x0 st0 (glog severity format).
Proof.
  intros st Hst. eexists (), _. split; [reflexivity|].
  by apply mountsOnly_event.
Qed.

Lemma keeps_deref c x0 st0 : keeps c x0 st0 (deref (Ptr c)).
Proof.
  intros st Hst. destruct (mountsOnly_lookup _ _ _ _ Hst) as (x & Hl & _).
  exists x, st. by rewrite (deref_Some _ _ _ Hl).
Qed.

Lemma keeps_range {A} c x0 st0 (l : list A) (body : A → M unit) :
  (∀ x, keeps c x0 st0 (body x)) → keeps c x0 st0 (range l body).
Proof.
  intros Hbody. induction l as [|x l IH]; simpl.
  - apply keeps_ret.
  - apply keeps_bind; [apply Hbody|]. by intros _.
Qed.

Lemma keeps_addVolume {A} c x0 st0
    (f : list apiv1.Volume → list apiv1.Volume * A) :
  keeps c x0 st0 (addVolume f (Ptr c)).
Proof.
  intros st Hst. destruct (mountsOnly_lookup _ _ _ _ Hst) as (x & Hl & Hx).
  unfold addVolume. rewrite (bind_Ret _ _ _ _ _ (deref_Some _ _ _ Hl)).
  destruct (f (apiv1.Volumes x)) as [volumes a].
  rewrite (bind_Ret _ _ _ _ _ (store_Some _ _ _ _ Hl)).
  eexists a, _. split; [reflexivity|]. by apply mountsOnly_store.
Qed.

Lemma keeps_mount c x0 st0 (f : apiv1.Container → apiv1.Container) :
  keeps c x0 st0 (mount f {| OfPod := Ptr c; Index := 0 |}).
Proof.
  intros st Hst. destruct (mountsOnly_lookup _ _ _ _ Hst) as (x & Hl & Hx).
  unfold mount. simpl. rewrite (bind_Ret _ _ _ _ _ (deref_Some _ _ _ Hl)).
  destruct Hx as (? & ? & ? & ? & ? & ? & Hlen & Hpos & Hrest).
  destruct (apiv1.Containers x !! 0) as [ct|] eqn:Hct.
  2:{ apply lookup_ge_None in Hct. lia. }
  rewrite (store_Some _ _ _ _ Hl).
  eexists (), _. split; [reflexivity|]. apply mountsOnly_store; [done|].
  repeat split; simpl; try done.
  - by rewrite length_insert.
  - intros i Hi. rewrite list_lookup_insert_ne by lia. by apply Hrest.
Qed.

Ltac keeps_step :=
  first
    [ apply keeps_ret
    | apply keeps_glog
    | apply keeps_deref
    | apply keeps_addVolume
    | apply keeps_mount
    | apply keeps_bind; [|intros ?]
    | apply keeps_range; intros [? ?] ].

Section Coverage.

Variable config : ConfigPackage.
Variable secret : SecretPackage.
Variable w : World.

(** ** The watch handlers on pods *)

(** X5: a delete event for a pod whose spark-role label is "driver" or
    "executor" makes onPodDeleted call Forget and then Done on the pod's
    key, whether or not the pod still carries the sentinel; for any other
    pod it does nothing.  It never adds to the queue and never touches an
    object. *)
Theorem onPodDeleted_clears_spark_pods (st : State) (l : nat) (p : Pod) :
  heap st !! l = Some p →
  (hasSparkRole p →
     onPodDeleted (PodObject (Ptr l)) st
     = (Ret (),
        {| heap := heap st;
           configs := configs st;
           trace :=
             trace st ++
             [Glog INFO "Spark %s pod %s was deleted, deleting it from the work queue";
              QueueForget (apiv1.Namespace p +:+ "/" +:+ apiv1.Name p);
              QueueDone (apiv1.Namespace p +:+ "/" +:+ apiv1.Name p)] |}))
  ∧ (¬ hasSparkRole p → onPodDeleted (PodObject (Ptr l)) st = (Ret (), st)).
Proof.
  intros Hl. pose proof (deref_Some _ _ _ Hl) as Hd.
  assert (∀ st', heap st' = heap st →
            ∀ A (f : Pod → A), via (Ptr l) f st' = (Ret (f p), st')) as Hvia.
  { intros st' Hst' A f. unfold via.
    assert (heap st' !! l = Some p) as Hl' by (by rewrite Hst').
    by rewrite (bind_Ret _ _ _ _ _ (deref_Some _ _ _ Hl')). }
  unfold onPodDeleted. simpl.
  rewrite (bind_Ret _ _ _ _ _ (mret_run _ _)).
  rewrite (bind_Ret _ _ _ _ _ (Hvia st eq_refl _ isSparkPod)).
  split.
  - intros Hr%isSparkPod_spec. rewrite Hr.
    rewrite (bind_Ret _ _ _ _ _ Hd).
    rewrite (bind_Ret _ _ _ _ _ (glog_run _ _ _)).
    rewrite (bind_Ret _ _ _ _ _
               (Hvia (add_event
                        (Glog INFO "Spark %s pod %s was deleted, deleting it from the work queue")
                        st) eq_refl _ getQueueKey)).
    rewrite (bind_Ret _ _ _ _ _ (emit_run _ _)), emit_run.
    unfold add_event. simpl. by rewrite <- !app_assoc.
  - intros Hr. destruct (isSparkPod p) eqn:Hspark; [|done].
    by apply isSparkPod_spec in Hspark.
Qed.

(** X6: on an add event for a pod onPodAdded always returns.  It leaves
    every object that existed as it was, submits at most one pod to the
    API server, logs at level INFO only and reports no error: when the
    copy or the update of the inline path fails, the failure is dropped. *)
Theorem onPodAdded_drops_inline_failures (st : State) (l : nat) (p : Pod) :
  heap st !! l = Some p →
  ∃ st' events,
    onPodAdded w (PodObject (Ptr l)) st = (Ret (), st')
    ∧ trace st' = trace st ++ events
    ∧ (∀ l' x, heap st !! l' = Some x → heap st' !! l' = Some x)
    ∧ configs st' = configs st
    ∧ length (List.filter isSubmission events) ≤ 1
    ∧ ∀ e, e ∈ events →
           (∀ x, e ≠ HandleError x)
           ∧ (∀ severity format, e = Glog severity format → severity = INFO).
Proof.
  intros Hl. pose proof (deref_Some _ _ _ Hl) as Hd.
  assert (∀ A (f : Pod → A), via (Ptr l) f st = (Ret (f p), st)) as Hvia.
  { intros A f. unfold via. by rewrite (bind_Ret _ _ _ _ _ Hd). }
  assert (∀ e, e ∈ @nil Event →
            (∀ x, e ≠ HandleError x)
            ∧ (∀ severity format, e = Glog severity format → severity = INFO))
    as Hnil by (by intros e ?%elem_of_nil).
  unfold onPodAdded. simpl.
  rewrite (bind_Ret _ _ _ _ _ (Hvia _ isInitializerPresent)).
  destruct (isInitializerPresent p); cbv beta iota.
  - rewrite (bind_Ret _ _ _ _ _ (Hvia _ isSparkPod)).
    destruct (isSparkPod p); cbv beta iota.
    + rewrite (bind_Ret _ _ _ _ _ (Hvia _ getQueueKey)).
      exists (add_event (QueueAddRateLimited (getQueueKey p)) st),
        [QueueAddRateLimited (getQueueKey p)].
      split; [done|]. simpl. split_and!; try done; [lia|].
      intros e ->%list_elem_of_singleton. by split.
    + pose proof (handleNonSparkPod_run w st l p Hl) as Hrun.
      destruct (DeepCopy_error w p) as [e|].
      * rewrite (bind_Ret _ _ _ _ _ Hrun).
        exists st, []. rewrite app_nil_r. simpl. split_and!; try done. lia.
      * destruct Hrun as (st' & logs & Hrun & Hheap & Hcfg & Htr & Hlogs).
        rewrite (bind_Ret _ _ _ _ _ Hrun).
        exists st', (logs ++ [Glog INFO "Updating pod %s";
                              PodsUpdate (withoutSelf p)]).
        split_and!; try done.
        -- intros l' x Hl'. rewrite Hheap. by apply lookup_app_l_Some.
        -- rewrite List.filter_app. destruct Hlogs as [-> | ->]; simpl; lia.
        -- intros e He. destruct Hlogs as [-> | ->]; simpl in He;
             repeat (apply elem_of_cons in He as [->|He]);
             try (by apply elem_of_nil in He);
             (split; [done|]); intros ? ? [= <- _]; done.
  - exists st, []. rewrite app_nil_r. simpl. split_and!; try done. lia.
Qed.

(** ** The mounting steps *)

Lemma keeps_handleConfigMaps c x0 st0 :
  keeps c x0 st0
    (handleConfigMaps config (Ptr c) {| OfPod := Ptr c; Index := 0 |}).
Proof.
  unfold handleConfigMaps.
  apply keeps_bind; [apply keeps_deref|]. intros p1.
  apply keeps_bind.
  { destruct (apiv1.Annotations p1 !! SparkConfigMapAnnotation config);
      repeat keeps_step. }
  intros _. apply keeps_bind; [apply keeps_deref|]. intros p2.
  apply keeps_bind.
  { destruct (apiv1.Annotations p2 !! HadoopConfigMapAnnotation config);
      repeat keeps_step. }
  intros _. repeat keeps_step.
Qed.

Lemma keeps_handleSecrets c x0 st0 :
  keeps c x0 st0
    (handleSecrets secret (Ptr c) {| OfPod := Ptr c; Index := 0 |}).
Proof.
  unfold handleSecrets.
  apply keeps_bind; [apply keeps_deref|]. intros p1.
  destruct (FindGCPServiceAccountSecret secret (apiv1.Annotations p1))
    as [[secretName mountPath] found].
  apply keeps_bind.
  { destruct found; repeat keeps_step. }
  intros _. repeat keeps_step.
Qed.

Lemma mountsOnly_refl c st x0 :
  heap st !! c = Some x0 → 0 < length (apiv1.Containers x0) →
  mountsOnly c x0 st st.
Proof.
  intros Hl Hx. exists x0. rewrite list_insert_id by done.
  split; [by eapply lookup_lt_Some|]. split; [done|]. split; [done|].
  by apply onlyMounts_refl.
Qed.

(** X7: handleConfigMaps and handleSecrets, given a pod with a container
    and the pointer to its first container, return and write nothing but
    that pod, and of that pod nothing but the volumes and the first
    container: namespace, name, labels, annotations, pending list, owner
    references, the number of containers and every other container stay
    as they were, whatever the annotations ask for. *)
Theorem mounting_steps_keep_the_rest (st : State) (c : nat) (x0 : Pod) :
  heap st !! c = Some x0 →
  0 < length (apiv1.Containers x0) →
  (∃ st' x,
     handleConfigMaps config (Ptr c) {| OfPod := Ptr c; Index := 0 |} st
     = (Ret (), st')
     ∧ heap st' = <[c := x]> (heap st)
     ∧ configs st' = configs st
     ∧ onlyMounts x0 x)
  ∧ (∃ st' x,
       handleSecrets secret (Ptr c) {| OfPod := Ptr c; Index := 0 |} st
       = (Ret (), st')
       ∧ heap st' = <[c := x]> (heap st)
       ∧ configs st' = configs st
       ∧ onlyMounts x0 x).
Proof.
  intros Hl Hx. pose proof (mountsOnly_refl c st x0 Hl Hx) as Hst. split.
  - destruct (keeps_handleConfigMaps c x0 st st Hst)
      as ([] & st' & Hrun & x & _ & Hheap & Hcfg & Hmounts).
    by exists st', x.
  - destruct (keeps_handleSecrets c x0 st st Hst)
      as ([] & st' & Hrun & x & _ & Hheap & Hcfg & Hmounts).
    by exists st', x.
Qed.

(** X8: with nothing to mount, handleConfigMaps and handleSecrets leave the
    whole state as it is and never follow the container pointer: that is
    when the pod has neither the Spark nor the Hadoop ConfigMap annotation
    and no general ConfigMap, respectively no service-account secret and no
    general secret. *)
Theorem mounting_steps_without_requests (st : State) (c : nat) (x0 : Pod)
    (container : ContainerPtr) :
  heap st !! c = Some x0 →
  (apiv1.Annotations x0 !! SparkConfigMapAnnotation config = None →
   apiv1.Annotations x0 !! HadoopConfigMapAnnotation config = None →
   FindGeneralConfigMaps config (apiv1.Annotations x0) = [] →
   handleConfigMaps config (Ptr c) container st = (Ret (), st))
  ∧ (∀ secretName mountPath,
       FindGCPServiceAccountSecret secret (apiv1.Annotations x0)
       = (secretName, mountPath, false) →
       FindGeneralSecrets secret (apiv1.Annotations x0) = [] →
       handleSecrets secret (Ptr c) container st = (Ret (), st)).
Proof.
  intros Hl. pose proof (deref_Some _ _ _ Hl) as Hd. split.
  - intros Hspark Hhadoop Hgeneral. unfold handleConfigMaps.
    rewrite (bind_Ret _ _ _ _ _ Hd), Hspark.
    rewrite (bind_Ret _ _ _ _ _ (mret_run _ _)).
    rewrite (bind_Ret _ _ _ _ _ Hd), Hhadoop.
    rewrite (bind_Ret _ _ _ _ _ (mret_run _ _)).
    rewrite (bind_Ret _ _ _ _ _ Hd), Hgeneral. done.
  - intros secretName mountPath Hgcp Hgeneral. unfold handleSecrets.
    rewrite (bind_Ret _ _ _ _ _ Hd), Hgcp.
    rewrite (bind_Ret _ _ _ _ _ (mret_run _ _)).
    rewrite (bind_Ret _ _ _ _ _ Hd), Hgeneral. done.
Qed.

Lemma addVolume_run {A} (f : list apiv1.Volume → list apiv1.Volume * A) st c x :
  heap st !! c = Some x →
  addVolume f (Ptr c) st
  = (Ret (f (apiv1.Volumes x)).2,
     set_heap (<[c := set_Volumes (f (apiv1.Volumes x)).1 x]> (heap st)) st).
Proof.
  intros Hl. unfold addVolume.
  rewrite (bind_Ret _ _ _ _ _ (deref_Some _ _ _ Hl)).
  destruct (f (apiv1.Volumes x)) as [volumes a].
  by rewrite (bind_Ret _ _ _ _ _ (store_Some _ _ _ _ Hl)).
Qed.

Lemma mount_run (f : apiv1.Container → apiv1.Container) st c x ct :
  heap st !! c = Some x →
  apiv1.Containers x !! 0 = Some ct →
  mount f {| OfPod := Ptr c; Index := 0 |} st
  = (Ret (),
     set_heap (<[c := set_Containers (<[0 := f ct]> (apiv1.Containers x)) x]>
                 (heap st)) st).
Proof.
  intros Hl Hct. unfold mount. simpl.
  rewrite (bind_Ret _ _ _ _ _ (deref_Some _ _ _ Hl)), Hct.
  by rewrite (store_Some _ _ _ _ Hl).
Qed.

(** The loop over the general ConfigMaps or secrets: each entry adds a
    volume named after it and mounts that volume into the first
    container. *)
Lemma mounting_loop (format : string)
    (add : string → string → list apiv1.Volume → list apiv1.Volume)
    (mnt : string → string → apiv1.Container → apiv1.Container)
    (entries : list (string * string)) (c : nat) :
  ∀ st x ct,
    heap st !! c = Some x →
    apiv1.Containers x !! 0 = Some ct →
    ∃ st' x',
      range entries (λ '(name, mountPath),
        glog INFO format;;
        let volumeName := name +:+ "-volume" in
        addVolume (λ vs, (add volumeName name vs, ())) (Ptr c);;
        mount (mnt volumeName mountPath) {| OfPod := Ptr c; Index := 0 |}) st
      = (Ret (), st')
      ∧ heap st' = <[c := x']> (heap st)
      ∧ configs st' = configs st
      ∧ trace st' = trace st ++ replicate (length entries) (Glog INFO format)
      ∧ apiv1.Volumes x'
        = fold_left (λ vs '(name, _), add (name +:+ "-volume") name vs)
                    entries (apiv1.Volumes x)
      ∧ apiv1.Containers x'
        = <[0 := fold_left (λ ct '(name, mountPath),
                              mnt (name +:+ "-volume") mountPath ct)
                           entries ct]> (apiv1.Containers x)
      ∧ apiv1.Initializers x' = apiv1.Initializers x
      ∧ apiv1.OwnerReferences x' = apiv1.OwnerReferences x.
Proof.
  induction entries as [|[name mountPath] entries IH]; intros st x ct Hl Hct.
  - exists st, x. simpl. rewrite app_nil_r, !list_insert_id by done. done.
  - set (st1 := add_event (Glog INFO format) st).
    assert (heap st1 !! c = Some x) as Hl1 by done.
    set (x1 := set_Volumes (add (name +:+ "-volume") name (apiv1.Volumes x)) x).
    set (st2 := set_heap (<[c := x1]> (heap st1)) st1).
    assert (heap st2 !! c = Some x1) as Hl2.
    { simpl. apply list_lookup_insert_eq. by eapply lookup_lt_Some. }
    assert (apiv1.Containers x1 !! 0 = Some ct) as Hct1 by done.
    set (x2 := set_Containers
                 (<[0 := mnt (name +:+ "-volume") mountPath ct]>
                    (apiv1.Containers x1)) x1).
    set (st3 := set_heap (<[c := x2]> (heap st2)) st2).
    assert (heap st3 !! c = Some x2) as Hl3.
    { simpl. apply list_lookup_insert_eq. rewrite length_insert.
      by eapply lookup_lt_Some. }
    assert (apiv1.Containers x2 !! 0
            = Some (mnt (name +:+ "-volume") mountPath ct)) as Hct2.
    { simpl. apply list_lookup_insert_eq. by eapply lookup_lt_Some. }
    assert ((glog INFO format;;
             addVolume (λ vs, (add (name +:+ "-volume") name vs, ())) (Ptr c);;
             mount (mnt (name +:+ "-volume") mountPath)
               {| OfPod := Ptr c; Index := 0 |}) st = (Ret (), st3)) as Hbody.
    { rewrite (bind_Ret _ _ _ _ _ (glog_run _ _ _)).
      rewrite (bind_Ret _ _ _ _ _ (addVolume_run _ _ _ _ Hl1)).
      by rewrite (mount_run _ _ _ _ _ Hl2 Hct1). }
    destruct (IH st3 x2 _ Hl3 Hct2)
      as (st' & x' & Hrun & Hheap & Hcfg & Htr & Hvol & Hcont & Hinit & Hown).
    exists st', x'. split.
    { simpl range. by rewrite (bind_Ret _ _ _ _ _ Hbody). }
    split; [by rewrite Hheap; simpl; rewrite !list_insert_insert_eq|].
    split; [done|].
    split; [by rewrite Htr; simpl; rewrite <- app_assoc|].
    split; [done|].
    split; [by rewrite Hcont; simpl; rewrite list_insert_insert_eq|].
    done.
Qed.

(** A distinguished ConfigMap or secret: a log line, the volume, and its
    mount into the first container. *)
Lemma distinguished_mount {A} (format : string)
    (add : list apiv1.Volume → list apiv1.Volume * A)
    (mnt : A → apiv1.Container → apiv1.Container)
    (c : nat) (st : State) (x : Pod) (ct : apiv1.Container) :
  heap st !! c = Some x →
  apiv1.Containers x !! 0 = Some ct →
  ∃ st' x',
    (glog INFO format;;
     a ← addVolume add (Ptr c);
     mount (mnt a) {| OfPod := Ptr c; Index := 0 |}) st = (Ret (), st')
    ∧ heap st' = <[c := x']> (heap st)
    ∧ configs st' = configs st
    ∧ trace st' = trace st ++ [Glog INFO format]
    ∧ apiv1.Volumes x' = (add (apiv1.Volumes x)).1
    ∧ apiv1.Containers x'
      = <[0 := mnt (add (apiv1.Volumes x)).2 ct]> (apiv1.Containers x)
    ∧ apiv1.Annotations x' = apiv1.Annotations x.
Proof.
  intros Hl Hct.
  set (st1 := add_event (Glog INFO format) st).
  assert (heap st1 !! c = Some x) as Hl1 by done.
  set (x1 := set_Volumes (add (apiv1.Volumes x)).1 x).
  set (st2 := set_heap (<[c := x1]> (heap st1)) st1).
  assert (heap st2 !! c = Some x1) as Hl2.
  { simpl. apply list_lookup_insert_eq. by eapply lookup_lt_Some. }
  assert (apiv1.Containers x1 !! 0 = Some ct) as Hct1 by done.
  eexists _, _. split.
  { rewrite (bind_Ret _ _ _ _ _ (glog_run _ _ _)).
    rewrite (bind_Ret _ _ _ _ _ (addVolume_run _ _ _ _ Hl1)).
    apply (mount_run _ _ _ _ _ Hl2 Hct1). }
  simpl. rewrite list_insert_insert_eq. done.
Qed.

(** X9: what handleConfigMaps and handleSecrets mount, and in which order,
    on a pod with a container.  handleConfigMaps takes the Spark ConfigMap
    first and the Hadoop ConfigMap second, each when its annotation is
    present, with the volume name its Add function returns and at its
    default directory; handleSecrets takes the service-account secret
    first, when one is found.  Then come the general ConfigMaps,
    respectively secrets, entry by entry in the order of the loop: the
    entry of resource [name] and path [mountPath] adds the volume named
    [name]-volume and mounts that same volume name at [mountPath] in the
    first container.  One line is logged per mount. *)
Theorem general_mounts_in_order (st : State) (c : nat) (x0 : Pod)
    (ct : apiv1.Container) :
  heap st !! c = Some x0 →
  apiv1.Containers x0 !! 0 = Some ct →
  (∃ st' x,
     handleConfigMaps config (Ptr c) {| OfPod := Ptr c; Index := 0 |} st
     = (Ret (), st')
     ∧ heap st' = <[c := x]> (heap st)
     ∧ let spark := apiv1.Annotations x0 !! SparkConfigMapAnnotation config in
       let hadoop := apiv1.Annotations x0 !! HadoopConfigMapAnnotation config in
       let general := FindGeneralConfigMaps config (apiv1.Annotations x0) in
       let vs1 :=
         match spark with
         | Some name =>
             (AddSparkConfigMapVolumeToPod config name (apiv1.Volumes x0)).1
         | None => apiv1.Volumes x0
         end in
       let ct1 :=
         match spark with
         | Some name =>
             MountSparkConfigMapToContainer config
               (AddSparkConfigMapVolumeToPod config name (apiv1.Volumes x0)).2
               (DefaultSparkConfDir config) ct
         | None => ct
         end in
       let vs2 :=
         match hadoop with
         | Some name => (AddHadoopConfigMapVolumeToPod config name vs1).1
         | None => vs1
         end in
       let ct2 :=
         match hadoop with
         | Some name =>
             MountHadoopConfigMapToContainer config
               (AddHadoopConfigMapVolumeToPod config name vs1).2
               (DefaultHadoopConfDir config) ct1
         | None => ct1
         end in
       trace st'
       = trace st ++
         match spark with
         | Some _ => [Glog INFO "Mounting Spark ConfigMap %s to pod %s"]
         | None => []
         end ++
         match hadoop with
         | Some _ => [Glog INFO "Mounting Hadoop ConfigMap %s to pod %s"]
         | None => []
         end ++
         replicate (length general) (Glog INFO "Mounting ConfigMap %s to pod %s")
       ∧ apiv1.Volumes x
         = fold_left (λ vs '(name, _),
                        AddConfigMapVolumeToPod config (name +:+ "-volume") name vs)
                     general vs2
       ∧ apiv1.Containers x
         = <[0 := fold_left (λ ct '(name, mountPath),
                               MountConfigMapToContainer config
                                 (name +:+ "-volume") mountPath ct)
                            general ct2]> (apiv1.Containers x0))
  ∧ (∃ st' x,
       handleSecrets secret (Ptr c) {| OfPod := Ptr c; Index := 0 |} st
       = (Ret (), st')
       ∧ heap st' = <[c := x]> (heap st)
       ∧ let '(secretName, mountPath, found) :=
           FindGCPServiceAccountSecret secret (apiv1.Annotations x0) in
         let general := FindGeneralSecrets secret (apiv1.Annotations x0) in
         let vs1 :=
           if found
           then AddSecretVolumeToPod secret
                  (ServiceAccountSecretVolumeName secret) secretName
                  (apiv1.Volumes x0)
           else apiv1.Volumes x0 in
         let ct1 :=
           if found
           then MountServiceAccountSecretToContainer secret mountPath ct
           else ct in
         trace st'
         = trace st ++
           (if found
            then [Glog INFO "Mounting GCP service account secret %s to pod %s"]
            else []) ++
           replicate (length general) (Glog INFO "Mounting secret %s to pod %s")
         ∧ apiv1.Volumes x
           = fold_left (λ vs '(name, _),
                          AddSecretVolumeToPod secret (name +:+ "-volume") name vs)
                       general vs1
         ∧ apiv1.Containers x
           = <[0 := fold_left (λ ct '(name, mountPath),
                                 MountSecretToContainer secret
                                   (name +:+ "-volume") mountPath ct)
                              general ct1]> (apiv1.Containers x0)).
Proof.
  intros Hl Hct. pose proof (deref_Some _ _ _ Hl) as Hd.
  pose proof (lookup_lt_Some _ _ _ Hl) as Hc.
  pose proof (lookup_lt_Some _ _ _ Hct) as Hpos.
  split.
  - unfold handleConfigMaps. rewrite (bind_Ret _ _ _ _ _ Hd).
    (* the Spark ConfigMap *)
    assert (∃ st1 x1 ct1,
              match apiv1.Annotations x0 !! SparkConfigMapAnnotation config with
              | Some sparkConfigMapName =>
                  glog INFO "Mounting Spark ConfigMap %s to pod %s";;
                  volumeName ←
                    addVolume (AddSparkConfigMapVolumeToPod config
                                 sparkConfigMapName) (Ptr c);
                  mount (MountSparkConfigMapToContainer config volumeName
                           (DefaultSparkConfDir config))
                        {| OfPod := Ptr c; Index := 0 |}
              | None => mret ()
              end st = (Ret (), st1)
              ∧ heap st1 = <[c := x1]> (heap st)
              ∧ trace st1
                = trace st ++
                  match apiv1.Annotations x0 !! SparkConfigMapAnnotation config with
                  | Some _ => [Glog INFO "Mounting Spark ConfigMap %s to pod %s"]
                  | None => []
                  end
              ∧ apiv1.Volumes x1
                = match apiv1.Annotations x0 !! SparkConfigMapAnnotation config with
                  | Some name =>
                      (AddSparkConfigMapVolumeToPod config name
                         (apiv1.Volumes x0)).1
                  | None => apiv1.Volumes x0
                  end
              ∧ ct1
                = match apiv1.Annotations x0 !! SparkConfigMapAnnotation config with
                  | Some name =>
                      MountSparkConfigMapToContainer config
                        (AddSparkConfigMapVolumeToPod config name
                           (apiv1.Volumes x0)).2
                        (DefaultSparkConfDir config) ct
                  | None => ct
                  end
              ∧ apiv1.Containers x1 = <[0 := ct1]> (apiv1.Containers x0)
              ∧ apiv1.Annotations x1 = apiv1.Annotations x0)
      as (st1 & x1 & ct1 & Hrun1 & Hheap1 & Htr1 & Hvs1 & Hct1 & Hcs1 & Hann1).
    { destruct (apiv1.Annotations x0 !! SparkConfigMapAnnotation config)
        as [name|].
      - destruct (distinguished_mount "Mounting Spark ConfigMap %s to pod %s"
                    (AddSparkConfigMapVolumeToPod config name)
                    (λ volumeName,
                       MountSparkConfigMapToContainer config volumeName
                         (DefaultSparkConfDir config))
                    c st x0 ct Hl Hct)
          as (st1 & x1 & Hrun & Hheap & _ & Htr & Hvs & Hcs & Hann).
        by eexists st1, x1, _.
      - exists st, x0, ct. rewrite app_nil_r, !list_insert_id by done. done. }
    rewrite (bind_Ret _ _ _ _ _ Hrun1).
    assert (heap st1 !! c = Some x1) as Hl1.
    { rewrite Hheap1. by apply list_lookup_insert_eq. }
    assert (apiv1.Containers x1 !! 0 = Some ct1) as Hc1.
    { rewrite Hcs1. by apply list_lookup_insert_eq. }
    rewrite (bind_Ret _ _ _ _ _ (deref_Some _ _ _ Hl1)), Hann1.
    (* the Hadoop ConfigMap *)
    assert (∃ st2 x2 ct2,
              match apiv1.Annotations x0 !! HadoopConfigMapAnnotation config with
              | Some hadoopConfigMapName =>
                  glog INFO "Mounting Hadoop ConfigMap %s to pod %s";;
                  volumeName ←
                    addVolume (AddHadoopConfigMapVolumeToPod config
                                 hadoopConfigMapName) (Ptr c);
                  mount (MountHadoopConfigMapToContainer config volumeName
                           (DefaultHadoopConfDir config))
                        {| OfPod := Ptr c; Index := 0 |}
              | None => mret ()
              end st1 = (Ret (), st2)
              ∧ heap st2 = <[c := x2]> (heap st1)
              ∧ trace st2
                = trace st1 ++
                  match apiv1.Annotations x0 !! HadoopConfigMapAnnotation config with
                  | Some _ => [Glog INFO "Mounting Hadoop ConfigMap %s to pod %s"]
                  | None => []
                  end
              ∧ apiv1.Volumes x2
                = match apiv1.Annotations x0 !! HadoopConfigMapAnnotation config with
                  | Some name =>
                      (AddHadoopConfigMapVolumeToPod config name
                         (apiv1.Volumes x1)).1
                  | None => apiv1.Volumes x1
                  end
              ∧ ct2
                = match apiv1.Annotations x0 !! HadoopConfigMapAnnotation config with
                  | Some name =>
                      MountHadoopConfigMapToContainer config
                        (AddHadoopConfigMapVolumeToPod config name
                           (apiv1.Volumes x1)).2
                        (DefaultHadoopConfDir config) ct1
                  | None => ct1
                  end
              ∧ apiv1.Containers x2 = <[0 := ct2]> (apiv1.Containers x1)
              ∧ apiv1.Annotations x2 = apiv1.Annotations x1)
      as (st2 & x2 & ct2 & Hrun2 & Hheap2 & Htr2 & Hvs2 & Hct2 & Hcs2 & Hann2).
    { destruct (apiv1.Annotations x0 !! HadoopConfigMapAnnotation config)
        as [name|].
      - destruct (distinguished_mount "Mounting Hadoop ConfigMap %s to pod %s"
                    (AddHadoopConfigMapVolumeToPod config name)
                    (λ volumeName,
                       MountHadoopConfigMapToContainer config volumeName
                         (DefaultHadoopConfDir config))
                    c st1 x1 ct1 Hl1 Hc1)
          as (st2 & x2 & Hrun & Hheap & _ & Htr & Hvs & Hcs & Hann).
        by eexists st2, x2, _.
      - exists st1, x1, ct1. rewrite app_nil_r, !list_insert_id by done. done. }
    rewrite (bind_Ret _ _ _ _ _ Hrun2).
    assert (heap st2 !! c = Some x2) as Hl2.
    { rewrite Hheap2. apply list_lookup_insert_eq. by eapply lookup_lt_Some. }
    assert (apiv1.Containers x2 !! 0 = Some ct2) as Hc2.
    { rewrite Hcs2. apply list_lookup_insert_eq. by eapply lookup_lt_Some. }
    rewrite (bind_Ret _ _ _ _ _ (deref_Some _ _ _ Hl2)), Hann2, Hann1.
    destruct (mounting_loop "Mounting ConfigMap %s to pod %s"
                (AddConfigMapVolumeToPod config)
                (MountConfigMapToContainer config)
                (FindGeneralConfigMaps config (apiv1.Annotations x0))
                c st2 x2 ct2 Hl2 Hc2)
      as (st3 & x3 & Hrun3 & Hheap3 & _ & Htr3 & Hvs3 & Hcs3 & _).
    exists st3, x3. split; [exact Hrun3|]. split.
    { by rewrite Hheap3, Hheap2, Hheap1, !list_insert_insert_eq. }
    cbv zeta. rewrite <- Hvs1, <- Hct1, <- Hvs2, <- Hct2.
    split; [by rewrite Htr3, Htr2, Htr1, <- !app_assoc|].
    split; [done|].
    by rewrite Hcs3, Hcs2, Hcs1, !list_insert_insert_eq.
  - unfold handleSecrets. rewrite (bind_Ret _ _ _ _ _ Hd).
    destruct (FindGCPServiceAccountSecret secret (apiv1.Annotations x0))
      as [[secretName mountPath] found].
    assert (∃ st1 x1 ct1,
              (if found then
                 glog INFO "Mounting GCP service account secret %s to pod %s";;
                 addVolume (λ vs, (AddSecretVolumeToPod secret
                                     (ServiceAccountSecretVolumeName secret)
                                     secretName vs, ())) (Ptr c);;
                 mount (MountServiceAccountSecretToContainer secret mountPath)
                       {| OfPod := Ptr c; Index := 0 |}
               else mret ()) st = (Ret (), st1)
              ∧ heap st1 = <[c := x1]> (heap st)
              ∧ trace st1
                = trace st ++
                  (if found
                   then [Glog INFO "Mounting GCP service account secret %s to pod %s"]
                   else [])
              ∧ apiv1.Volumes x1
                = (if found
                   then AddSecretVolumeToPod secret
                          (ServiceAccountSecretVolumeName secret) secretName
                          (apiv1.Volumes x0)
                   else apiv1.Volumes x0)
              ∧ ct1
                = (if found
                   then MountServiceAccountSecretToContainer secret mountPath ct
                   else ct)
              ∧ apiv1.Containers x1 = <[0 := ct1]> (apiv1.Containers x0)
              ∧ apiv1.Annotations x1 = apiv1.Annotations x0)
      as (st1 & x1 & ct1 & Hrun1 & Hheap1 & Htr1 & Hvs1 & Hct1 & Hcs1 & Hann1).
    { destruct found.
      - destruct (distinguished_mount
                    "Mounting GCP service account secret %s to pod %s"
                    (λ vs, (AddSecretVolumeToPod secret
                              (ServiceAccountSecretVolumeName secret)
                              secretName vs, ()))
                    (λ _, MountServiceAccountSecretToContainer secret mountPath)
                    c st x0 ct Hl Hct)
          as (st1 & x1 & Hrun & Hheap & _ & Htr & Hvs & Hcs & Hann).
        by eexists st1, x1, _.
      - exists st, x0, ct. rewrite app_nil_r, !list_insert_id by done. done. }
    rewrite (bind_Ret _ _ _ _ _ Hrun1).
    assert (heap st1 !! c = Some x1) as Hl1.
    { rewrite Hheap1. by apply list_lookup_insert_eq. }
    assert (apiv1.Containers x1 !! 0 = Some ct1) as Hc1.
    { rewrite Hcs1. by apply list_lookup_insert_eq. }
    rewrite (bind_Ret _ _ _ _ _ (deref_Some _ _ _ Hl1)), Hann1.
    destruct (mounting_loop "Mounting secret %s to pod %s"
                (AddSecretVolumeToPod secret)
                (MountSecretToContainer secret)
                (FindGeneralSecrets secret (apiv1.Annotations x0))
                c st1 x1 ct1 Hl1 Hc1)
      as (st2 & x2 & Hrun2 & Hheap2 & _ & Htr2 & Hvs2 & Hcs2 & _).
    exists st2, x2. split; [exact Hrun2|]. split.
    { by rewrite Hheap2, Hheap1, !list_insert_insert_eq. }
    cbv zeta. rewrite <- Hvs1, <- Hct1.
    split; [by rewrite Htr2, Htr1, <- !app_assoc|].
    split; [done|].
    by rewrite Hcs2, Hcs1, !list_insert_insert_eq.
Qed.

(** ** The queued path: the copy that is patched *)

Lemma withoutSelf_fields p :
  apiv1.Namespace (withoutSelf p) = apiv1.Namespace p
  ∧ apiv1.Name (withoutSelf p) = apiv1.Name p
  ∧ apiv1.Labels (withoutSelf p) = apiv1.Labels p
  ∧ apiv1.Annotations (withoutSelf p) = apiv1.Annotations p
  ∧ apiv1.OwnerReferences (withoutSelf p) = apiv1.OwnerReferences p
  ∧ apiv1.Volumes (withoutSelf p) = apiv1.Volumes p
  ∧ apiv1.Containers (withoutSelf p) = apiv1.Containers p.
Proof.
  unfold withoutSelf. destruct (apiv1.Initializers p) as [inits|]; [|done].
  by destruct (filter notSelf (metav1.Pending inits)).
Qed.

(** The four mutation steps on a pod with a container. *)
Lemma mutation_run (st : State) (c : nat) (p : Pod) :
  heap st !! c = Some p →
  0 < length (apiv1.Containers p) →
  ∃ st' copy added,
    (addOwnerReference config w (Ptr c);;
     handleConfigMaps config (Ptr c) {| OfPod := Ptr c; Index := 0 |};;
     handleSecrets secret (Ptr c) {| OfPod := Ptr c; Index := 0 |};;
     removeSelf (Ptr c)) st = (Ret (), st')
    ∧ heap st' = <[c := copy]> (heap st)
    ∧ isInitializerPresent copy = false
    ∧ apiv1.Namespace copy = apiv1.Namespace p
    ∧ apiv1.Name copy = apiv1.Name p
    ∧ apiv1.Labels copy = apiv1.Labels p
    ∧ apiv1.Annotations copy = apiv1.Annotations p
    ∧ apiv1.OwnerReferences copy = apiv1.OwnerReferences p ++ added
    ∧ length added ≤ 1
    ∧ (apiv1.Annotations p !! OwnerReferenceAnnotation config = None → added = [])
    ∧ length (apiv1.Containers copy) = length (apiv1.Containers p)
    ∧ (∀ i, 0 < i → apiv1.Containers copy !! i = apiv1.Containers p !! i).
Proof.
  intros Hl Hx.
  assert (∃ st1 x1 added,
            addOwnerReference config w (Ptr c) st = (Ret (), st1)
            ∧ heap st1 = <[c := x1]> (heap st)
            ∧ x1 = set_OwnerReferences (apiv1.OwnerReferences p ++ added) p
            ∧ length added ≤ 1
            ∧ (apiv1.Annotations p !! OwnerReferenceAnnotation config = None
               → added = [])) as (st1 & x1 & added & Hown & Hheap1 & Hx1 & Hadd & Hnone).
  { rewrite (addOwnerReference_run config w _ _ _ Hl).
    destruct (apiv1.Annotations p !! OwnerReferenceAnnotation config) as [s|].
    - destruct (OwnerReference_Unmarshal w s) as [ownerReference err].
      eexists _, _, [ownerReference]. split; [reflexivity|].
      split; [by destruct err|]. split; [done|]. split; [simpl; lia|done].
    - exists st, p, []. rewrite app_nil_r, list_insert_id by done.
      split_and!; try done; [by destruct p|simpl; lia]. }
  assert (heap st1 !! c = Some x1) as Hl1.
  { rewrite Hheap1. apply list_lookup_insert_eq. by eapply lookup_lt_Some. }
  assert (0 < length (apiv1.Containers x1)) as Hcont1 by (by rewrite Hx1).
  pose proof (mountsOnly_refl c st1 x1 Hl1 Hcont1) as Hst1.
  destruct (keeps_handleConfigMaps c x1 st1 st1 Hst1)
    as ([] & st2 & Hcm & Hst2).
  destruct (keeps_handleSecrets c x1 st1 st2 Hst2)
    as ([] & st3 & Hsec & x3 & Hc3 & Hheap3 & _ & Hmounts).
  assert (heap st3 !! c = Some x3) as Hl3.
  { rewrite Hheap3. by apply list_lookup_insert_eq. }
  destruct (removeSelf_run st3 c x3 Hl3) as (st4 & Hrm & Hheap4 & _).
  destruct Hmounts as (Hns & Hname & Hlabels & Hann & Hinit & Hrefs & Hlen & _ & Hrest).
  destruct (withoutSelf_fields x3) as (Wns & Wname & Wlabels & Wann & Wrefs & _ & Wcont).
  exists st4, (withoutSelf x3), added.
  split.
  { rewrite (bind_Ret _ _ _ _ _ Hown), (bind_Ret _ _ _ _ _ Hcm).
    by rewrite (bind_Ret _ _ _ _ _ Hsec). }
  split.
  { by rewrite Hheap4, Hheap3, Hheap1, !list_insert_insert_eq. }
  split; [apply withoutSelf_not_present|].
  rewrite Wns, Wname, Wlabels, Wann, Wrefs, Wcont.
  rewrite Hns, Hname, Hlabels, Hann, Hrefs, Hlen, Hx1. simpl.
  split_and!; try done.
  intros i Hi. rewrite (Hrest i Hi). by rewrite Hx1.
Qed.

(** X12: when the fetch and the copy succeed and the pod has a container,
    the copy that syncSparkPod compares with the fetched pod never carries
    the sentinel.  It has the namespace, name, labels and annotations of
    the fetched pod, its owner references followed by at most one more
    (none without the owner-reference annotation), as many containers, and
    the same containers after the first.  The error is nil exactly when
    both pods serialise, the patch can be computed and the API server
    accepts it. *)
Theorem syncSparkPod_patched_copy (key namespace name : string)
    (err0 : option error) (st : State) (p : Pod) :
  getNamespaceName key = (namespace, name, err0) →
  pods_Get w namespace name = inr p →
  DeepCopy_error w p = None →
  apiv1.Containers p ≠ [] →
  ∃ r err st' copy added,
    syncSparkPod config secret w key st = (Ret (r, err), st')
    ∧ heap st' !! S (length (heap st)) = Some copy
    ∧ isInitializerPresent copy = false
    ∧ apiv1.Namespace copy = apiv1.Namespace p
    ∧ apiv1.Name copy = apiv1.Name p
    ∧ apiv1.Labels copy = apiv1.Labels p
    ∧ apiv1.Annotations copy = apiv1.Annotations p
    ∧ apiv1.OwnerReferences copy = apiv1.OwnerReferences p ++ added
    ∧ length added ≤ 1
    ∧ (apiv1.Annotations p !! OwnerReferenceAnnotation config = None → added = [])
    ∧ length (apiv1.Containers copy) = length (apiv1.Containers p)
    ∧ (∀ i, 0 < i → apiv1.Containers copy !! i = apiv1.Containers p !! i)
    ∧ (err = None ↔
       ∃ originalData modifiedData patch p',
         json_Marshal w p = inr originalData
         ∧ json_Marshal w copy = inr modifiedData
         ∧ CreateTwoWayMergePatch w originalData modifiedData = inr patch
         ∧ pods_Patch w (apiv1.Namespace p) (apiv1.Name p) patch = inr p').
Proof.
  intros Hkey Hget Hcopy Hcts.
  pose proof (syncSparkPod_run config secret w key st) as Hrun.
  rewrite Hkey in Hrun. simpl in Hrun. rewrite Hget, Hcopy in Hrun.
  destruct (apiv1.Containers p) as [|ct cts] eqn:Hconts; [done|].
  destruct Hrun as (st4 & Hpipe & _ & Hrun).
  set (n := length (heap st)) in *.
  match type of Hpipe with _ ?s = _ => set (st3 := s) in * end.
  assert (heap st3 !! S n = Some p) as Hc.
  { simpl. rewrite lookup_app_r by (fold n; lia).
    by replace (S n - length (heap st)) with 1 by (fold n; lia). }
  assert (0 < length (apiv1.Containers p)) as Hpos by (rewrite Hconts; simpl; lia).
  destruct (mutation_run st3 (S n) p Hc Hpos)
    as (st4' & copy & added & Hpipe' & Hheap & Hprops).
  rewrite Hpipe in Hpipe'. injection Hpipe' as <-.
  assert (heap st4 !! n = Some p) as Ho.
  { rewrite Hheap, list_lookup_insert_ne by lia. simpl.
    by rewrite lookup_app_r, Nat.sub_diag. }
  assert (heap st4 !! S n = Some copy) as Hm.
  { rewrite Hheap. apply list_lookup_insert_eq. by eapply lookup_lt_Some. }
  rewrite (patchPod_run w _ _ _ _ _ Ho Hm) in Hrun.
  rewrite <- Hconts in *.
  destruct (json_Marshal w p) as [e|originalData] eqn:Hod.
  { exists nil_ptr, (Some (External e)), st4, copy, added.
    split; [done|]. split; [done|]. repeat (split; [apply Hprops|]).
    split; [done|]. by intros (? & ? & ? & ? & ? & _). }
  destruct (json_Marshal w copy) as [e|modifiedData] eqn:Hmd.
  { exists nil_ptr, (Some (External e)), st4, copy, added.
    split; [done|]. split; [done|]. repeat (split; [apply Hprops|]).
    split; [done|]. intros (? & ? & ? & ? & _ & Hmd' & _).
    by rewrite Hmd in Hmd'. }
  destruct (CreateTwoWayMergePatch w originalData modifiedData) as [e|patch]
    eqn:Hpatch.
  { exists nil_ptr, (Some (External e)), st4, copy, added.
    split; [done|]. split; [done|]. repeat (split; [apply Hprops|]).
    split; [done|]. intros (? & ? & ? & ? & [= <-] & Hmd' & Hp & _).
    rewrite Hmd in Hmd'. injection Hmd' as <-. by rewrite Hpatch in Hp. }
  rewrite (Pods_Patch_run w) in Hrun. simpl in Hrun.
  destruct (pods_Patch w (apiv1.Namespace p) (apiv1.Name p) patch) as [e|p']
    eqn:Hcall.
  - eexists _, _, _, copy, added.
    split; [exact Hrun|]. split; [done|]. repeat (split; [apply Hprops|]).
    split; [done|]. intros (? & ? & ? & ? & [= <-] & Hmd' & Hp & Hc').
    rewrite Hmd in Hmd'. injection Hmd' as <-.
    rewrite Hpatch in Hp. injection Hp as <-. by rewrite Hcall in Hc'.
  - eexists _, _, _, copy, added.
    split; [exact Hrun|]. split; [by apply lookup_app_l_Some|].
    repeat (split; [apply Hprops|]).
    split; [|done]. intros _. by exists originalData, modifiedData, patch, p'.
Qed.

(** ** Submitting and requeueing *)

(** X10: patchPod calls the API server at most once, and only when both
    pods serialise and the patch can be computed; the patch then goes to
    the namespace and name of the original pod.  When a step before the
    call fails, its error is returned and the state is untouched.  In no
    case is an object that exists changed. *)
Theorem patchPod_submits_once (st : State) (o m : nat) (po pm : Pod) :
  heap st !! o = Some po →
  heap st !! m = Some pm →
  ∃ r err st' events,
    patchPod w (Ptr o) (Ptr m) st = (Ret (r, err), st')
    ∧ trace st' = trace st ++ events
    ∧ configs st' = configs st
    ∧ (∀ l x, heap st !! l = Some x → heap st' !! l = Some x)
    ∧ ((∃ e, err = Some (External e) ∧ r = nil_ptr ∧ events = [] ∧ st' = st
             ∧ (json_Marshal w po = inl e
                ∨ json_Marshal w pm = inl e
                ∨ ∃ originalData modifiedData,
                    json_Marshal w po = inr originalData
                    ∧ json_Marshal w pm = inr modifiedData
                    ∧ CreateTwoWayMergePatch w originalData modifiedData = inl e))
       ∨ (∃ originalData modifiedData patch,
            json_Marshal w po = inr originalData
            ∧ json_Marshal w pm = inr modifiedData
            ∧ CreateTwoWayMergePatch w originalData modifiedData = inr patch
            ∧ events = [PodsPatch (apiv1.Namespace po) (apiv1.Name po) patch]
            ∧ match pods_Patch w (apiv1.Namespace po) (apiv1.Name po) patch with
              | inl e => err = Some (External e) ∧ r = nil_ptr
                         ∧ heap st' = heap st
              | inr p' => err = None ∧ r = Ptr (length (heap st))
                          ∧ heap st' = heap st ++ [p']
              end)).
Proof.
  intros Ho Hm. rewrite (patchPod_run w _ _ _ _ _ Ho Hm).
  destruct (json_Marshal w po) as [e|originalData] eqn:Hod.
  { exists nil_ptr, (Some (External e)), st, []. rewrite app_nil_r.
    split_and!; try done. left. exists e. split_and!; try done. by left. }
  destruct (json_Marshal w pm) as [e|modifiedData] eqn:Hmd.
  { exists nil_ptr, (Some (External e)), st, []. rewrite app_nil_r.
    split_and!; try done. left. exists e. split_and!; try done.
    right. by left. }
  destruct (CreateTwoWayMergePatch w originalData modifiedData) as [e|patch]
    eqn:Hpatch.
  { exists nil_ptr, (Some (External e)), st, []. rewrite app_nil_r.
    split_and!; try done. left. exists e. split_and!; try done.
    right. right. by exists originalData, modifiedData. }
  rewrite (Pods_Patch_run w). simpl.
  destruct (pods_Patch w (apiv1.Namespace po) (apiv1.Name po) patch) as [e|p']
    eqn:Hcall;
    eexists _, _, _, [PodsPatch (apiv1.Namespace po) (apiv1.Name po) patch];
    (split; [reflexivity|]); simpl; split_and!; try done.
  - right. exists originalData, modifiedData, patch. by rewrite Hcall.
  - intros l x Hl. by apply lookup_app_l_Some.
  - right. exists originalData, modifiedData, patch. by rewrite Hcall.
Qed.

(** X11: one turn of the worker on a key whose fetch fails.  When the
    error is a not-found status the worker calls Forget and Done and
    nothing else; with any other error it reports the error wrapped with
    the key, calls AddRateLimited and Done.  Either way there is no copy,
    no mutation and no submission, and no object is created or changed. *)
Theorem processNextItem_on_fetch_failure (key namespace name : string)
    (err0 : option error) (e : ExtError) (st : State) :
  queue_Get w = (key, false) →
  getNamespaceName key = (namespace, name, err0) →
  pods_Get w namespace name = inl e →
  processNextItem w (New config secret w) st
  = (Ret true,
     {| heap := heap st;
        configs := configs st;
        trace :=
          trace st ++
          [QueueGet; PodsGet namespace name] ++
          if IsNotFound (External e)
          then [QueueForget key; QueueDone key]
          else [HandleError (Errorf "failed to sync pod %q: %v"
                               [ArgString key; ArgError (External e)]);
                QueueAddRateLimited key; QueueDone key] |}).
Proof.
  intros Hq Hkey Hget.
  pose proof (syncSparkPod_run config secret w key (add_event QueueGet st)) as Hrun.
  rewrite Hkey in Hrun. simpl in Hrun. rewrite Hget in Hrun.
  unfold processNextItem.
  rewrite (bind_Ret _ _ _ _ _ (emit_run _ _)), Hq. cbv beta iota.
  unfold defer. rewrite bind_run. simpl syncHandler. rewrite Hrun.
  destruct e as [[] message|message]; simpl;
    unfold add_event; simpl; by rewrite <- !app_assoc.
Qed.

(** X13: what onPodAdded puts into the queue leads the worker back to the
    pod: for a pod with the sentinel and a Spark role whose namespace and
    name hold no slash, onPodAdded enqueues a key on which syncSparkPod
    fetches exactly that namespace and name. *)
Theorem enqueued_key_fetches_the_pod (st : State) (l : nat) (p : Pod) :
  heap st !! l = Some p →
  hasSentinel p → hasSparkRole p →
  ¬ hasByte slash (apiv1.Namespace p) →
  ¬ hasByte slash (apiv1.Name p) →
  ∃ key,
    onPodAdded w (PodObject (Ptr l)) st
    = (Ret (), add_event (QueueAddRateLimited key) st)
    ∧ ∀ st2, ∃ r err st3 events,
        syncSparkPod config secret w key st2 = (Ret (r, err), st3)
        ∧ trace st3
          = trace st2 ++ PodsGet (apiv1.Namespace p) (apiv1.Name p) :: events.
Proof.
  intros Hl Hs%isInitializerPresent_spec Hr%isSparkPod_spec Hns Hname.
  pose proof (deref_Some _ _ _ Hl) as Hd.
  assert (∀ A (f : Pod → A), via (Ptr l) f st = (Ret (f p), st)) as Hvia.
  { intros A f. unfold via. by rewrite (bind_Ret _ _ _ _ _ Hd). }
  exists (getQueueKey p). split.
  - unfold onPodAdded. simpl.
    rewrite (bind_Ret _ _ _ _ _ (Hvia _ isInitializerPresent)), Hs.
    rewrite (bind_Ret _ _ _ _ _ (Hvia _ isSparkPod)), Hr.
    by rewrite (bind_Ret _ _ _ _ _ (Hvia _ getQueueKey)).
  - intros st2.
    pose proof (syncSparkPod_summary config secret w (getQueueKey p) st2) as Hsum.
    rewrite (getNamespaceName_getQueueKey p Hns Hname) in Hsum.
    destruct Hsum as (r & err & st3 & events & Hrun & Htr & _).
    by exists r, err, st3, events.
Qed.

(** ** The worker *)

(** X14: processNextItem with any sync handler.  When the queue reports
    its shutdown it returns false without calling the handler, Done or
    anything else.  When the handler panics, the deferred Done is still
    called on the key, neither Forget nor AddRateLimited is, and the panic
    goes on to the caller. *)
Theorem processNextItem_shutdown_and_panic (ic : SparkPodInitializer)
    (key : string) (st : State) :
  (queue_Get w = (key, true) →
     processNextItem w ic st = (Ret false, add_event QueueGet st))
  ∧ (∀ message st1,
       queue_Get w = (key, false) →
       syncHandler ic key (add_event QueueGet st) = (Panic message, st1) →
       processNextItem w ic st
       = (Panic message, add_event (QueueDone key) st1)).
Proof.
  split.
  - intros Hq. unfold processNextItem.
    by rewrite (bind_Ret _ _ _ _ _ (emit_run _ _)), Hq.
  - intros message st1 Hq Hh. unfold processNextItem.
    rewrite (bind_Ret _ _ _ _ _ (emit_run _ _)), Hq. cbv beta iota.
    unfold defer. by rewrite (bind_Panic _ _ _ _ _ Hh).
Qed.

(** ** The inline path and the owner reference *)

(** X20: handleNonSparkPod on any pod, with or without containers.  When
    the copy fails it returns that error and does nothing.  Otherwise it
    submits one update, of the given pod with its Initializers field
    replaced: the field keeps its Result and the pending entries of other
    initializers when there are any, and is nil, Result included, when no
    entry is left (a nil field stays nil).  Every other field is that of
    the given pod, the submitted pod does not carry the sentinel, and the
    function returns what the API server answers: nil exactly when the
    update is accepted. *)
Theorem handleNonSparkPod_outcomes (st : State) (l : nat) (p : Pod) :
  heap st !! l = Some p →
  ∃ err st' events,
    handleNonSparkPod w (Ptr l) st = (Ret err, st')
    ∧ trace st' = trace st ++ events
    ∧ (∀ e, DeepCopy_error w p = Some e →
            err = Some (External e) ∧ st' = st)
    ∧ (DeepCopy_error w p = None →
         ∃ submitted,
           List.filter isSubmission events = [PodsUpdate submitted]
           ∧ isInitializerPresent submitted = false
           ∧ apiv1.Namespace submitted = apiv1.Namespace p
           ∧ apiv1.Name submitted = apiv1.Name p
           ∧ apiv1.Labels submitted = apiv1.Labels p
           ∧ apiv1.Annotations submitted = apiv1.Annotations p
           ∧ apiv1.OwnerReferences submitted = apiv1.OwnerReferences p
           ∧ apiv1.Volumes submitted = apiv1.Volumes p
           ∧ apiv1.Containers submitted = apiv1.Containers p
           ∧ apiv1.Initializers submitted
             = match apiv1.Initializers p with
               | None => None
               | Some inits =>
                   match filter (λ pending,
                                   metav1.Name pending ≠ initializerName)
                                (metav1.Pending inits) with
                   | [] => None
                   | others =>
                       Some {| metav1.Pending := others;
                               metav1.Result := metav1.Result inits |}
                   end
               end
           ∧ err = match pods_Update w submitted with
                   | inl e => Some (External e)
                   | inr _ => None
                   end).
Proof.
  intros Hl. pose proof (handleNonSparkPod_run w st l p Hl) as Hrun.
  destruct (DeepCopy_error w p) as [e|].
  { exists (Some (External e)), st, []. rewrite app_nil_r.
    split_and!; try done. by intros ? [= <-]. }
  destruct Hrun as (st' & logs & Hrun & _ & _ & Htr & Hlogs).
  eexists _, st', _. split; [exact Hrun|]. split; [exact Htr|].
  split; [done|]. intros _. exists (withoutSelf p).
  destruct (withoutSelf_fields p) as (? & ? & ? & ? & ? & ? & ?).
  split_and!; try done.
  - rewrite List.filter_app. by destruct Hlogs as [-> | ->].
  - apply withoutSelf_not_present.
  - unfold withoutSelf. destruct (apiv1.Initializers p) as [inits|] eqn:Hi;
      [|done].
    change (filter _ (metav1.Pending inits))
      with (filter notSelf (metav1.Pending inits)).
    by destruct (filter notSelf (metav1.Pending inits)).
Qed.

(** X21: addOwnerReference only ever adds to the owner references.
    Without the annotation it leaves the state as it is.  With it, it
    appends one reference, the one the decoding produced, after those the
    pod has, changes no other field of the pod and no other object, and
    logs an error exactly when the decoding failed. *)
Theorem addOwnerReference_appends (st : State) (l : nat) (p : Pod) :
  heap st !! l = Some p →
  (apiv1.Annotations p !! OwnerReferenceAnnotation config = None →
     addOwnerReference config w (Ptr l) st = (Ret (), st))
  ∧ (∀ ownerReferenceStr,
       apiv1.Annotations p !! OwnerReferenceAnnotation config
       = Some ownerReferenceStr →
       ∃ st',
         addOwnerReference config w (Ptr l) st = (Ret (), st')
         ∧ heap st'
           = <[l := set_OwnerReferences
                      (apiv1.OwnerReferences p
                         ++ [(OwnerReference_Unmarshal w ownerReferenceStr).1]) p]>
               (heap st)
         ∧ configs st' = configs st
         ∧ trace st'
           = trace st ++
             match (OwnerReference_Unmarshal w ownerReferenceStr).2 with
             | Some _ => [Glog ERROR "failed to add OwnerReference to Pod %s: %v"]
             | None => []
             end).
Proof.
  intros Hl. pose proof (addOwnerReference_run config w _ _ _ Hl) as Hrun.
  split.
  - intros Ha. by rewrite Ha in Hrun.
  - intros s Ha. rewrite Ha in Hrun.
    destruct (OwnerReference_Unmarshal w s) as [ownerReference [e|]];
      eexists; (split; [exact Hrun|]); simpl; split_and!; try done.
    by rewrite app_nil_r.
Qed.

End Coverage.

Lemma onPodDeleted_clears_spark_pods_witness :
  heap (stateOf [driverPod]) !! 0 = Some driverPod
  ∧ hasSparkRole driverPod
  ∧ onPodDeleted (PodObject (Ptr 0)) (stateOf [driverPod])
    = (Ret (),
       {| heap := [driverPod];
          configs := ∅;
          trace :=
            [Glog INFO "Spark %s pod %s was deleted, deleting it from the work queue";
             QueueForget "ns/driver-1"; QueueDone "ns/driver-1"] |}).
Proof.
  assert (hasSparkRole driverPod) as Hr by (by left).
  split; [reflexivity|]. split; [exact Hr|].
  exact (proj1 (onPodDeleted_clears_spark_pods (stateOf [driverPod]) 0 driverPod
                  eq_refl) Hr).
Defined.

Lemma onPodAdded_drops_inline_failures_witness :
  heap (stateOf [utilPod]) !! 0 = Some utilPod
  ∧ ∃ st' events,
      onPodAdded (testWorld "ns/util-1" None) (PodObject (Ptr 0)) (stateOf [utilPod])
      = (Ret (), st')
      ∧ trace st' = trace (stateOf [utilPod]) ++ events
      ∧ (∀ l' x, heap (stateOf [utilPod]) !! l' = Some x → heap st' !! l' = Some x)
      ∧ configs st' = configs (stateOf [utilPod])
      ∧ length (List.filter isSubmission events) ≤ 1
      ∧ ∀ e, e ∈ events →
             (∀ x, e ≠ HandleError x)
             ∧ (∀ severity format, e = Glog severity format → severity = INFO).
Proof.
  split; [reflexivity|].
  exact (onPodAdded_drops_inline_failures (testWorld "ns/util-1" None)
           (stateOf [utilPod]) 0 utilPod eq_refl).
Defined.

Lemma mounting_steps_keep_the_rest_witness :
  heap (stateOf [driverPod]) !! 0 = Some driverPod
  ∧ 0 < length (apiv1.Containers driverPod)
  ∧ ∃ st' x,
      handleConfigMaps testConfig (Ptr 0) {| OfPod := Ptr 0; Index := 0 |}
        (stateOf [driverPod]) = (Ret (), st')
      ∧ heap st' = <[0 := x]> (heap (stateOf [driverPod]))
      ∧ configs st' = configs (stateOf [driverPod])
      ∧ onlyMounts driverPod x.
Proof.
  assert (0 < length (apiv1.Containers driverPod)) as Hx by (simpl; lia).
  split; [reflexivity|]. split; [exact Hx|].
  exact (proj1 (mounting_steps_keep_the_rest testConfig testSecret
                  (stateOf [driverPod]) 0 driverPod eq_refl Hx)).
Defined.

Lemma mounting_steps_without_requests_witness :
  heap (stateOf [emptyDriverPod]) !! 0 = Some emptyDriverPod
  ∧ handleConfigMaps testConfig (Ptr 0) {| OfPod := nil_ptr; Index := 7 |}
      (stateOf [emptyDriverPod]) = (Ret (), stateOf [emptyDriverPod]).
Proof.
  split; [reflexivity|].
  exact (proj1 (mounting_steps_without_requests testConfig testSecret
                  (stateOf [emptyDriverPod]) 0 emptyDriverPod
                  {| OfPod := nil_ptr; Index := 7 |} eq_refl)
           eq_refl eq_refl eq_refl).
Defined.

Lemma general_mounts_in_order_witness :
  heap (stateOf [annotatedPod]) !! 0 = Some annotatedPod
  ∧ apiv1.Containers annotatedPod !! 0 = Some sparkContainer
  ∧ (∃ st' x,
       handleConfigMaps oneConfigMap (Ptr 0) {| OfPod := Ptr 0; Index := 0 |}
         (stateOf [annotatedPod]) = (Ret (), st')
       ∧ heap st' = <[0 := x]> (heap (stateOf [annotatedPod]))
       ∧ trace st'
         = [Glog INFO "Mounting Spark ConfigMap %s to pod %s";
            Glog INFO "Mounting Hadoop ConfigMap %s to pod %s";
            Glog INFO "Mounting ConfigMap %s to pod %s"]
       ∧ apiv1.Volumes x
         = [testVolume "spark-config-map-volume" "spark-conf";
            testVolume "hadoop-config-map-volume" "hadoop-conf";
            testVolume "log4j-volume" "log4j"]
       ∧ apiv1.Containers x
         = [testMount "log4j-volume" "/etc/log4j"
              (testMount "hadoop-config-map-volume" "/etc/hadoop/conf"
                 (testMount "spark-config-map-volume" "/etc/spark/conf"
                    sparkContainer))])
  ∧ (∃ st' x,
       handleSecrets gcpSecrets (Ptr 0) {| OfPod := Ptr 0; Index := 0 |}
         (stateOf [annotatedPod]) = (Ret (), st')
       ∧ heap st' = <[0 := x]> (heap (stateOf [annotatedPod]))
       ∧ trace st'
         = [Glog INFO "Mounting GCP service account secret %s to pod %s";
            Glog INFO "Mounting secret %s to pod %s";
            Glog INFO "Mounting secret %s to pod %s"]
       ∧ apiv1.Volumes x
         = [testVolume "gcp-service-account-secret-volume" "gcp-key";
            testVolume "tls-volume" "tls"; testVolume "db-volume" "db"]
       ∧ apiv1.Containers x
         = [testMount "db-volume" "/etc/db"
              (testMount "tls-volume" "/etc/tls"
                 (testMount "gcp-service-account-secret-volume" "/mnt/secrets"
                    sparkContainer))]).
Proof.
  split; [reflexivity|]. split; [reflexivity|].
  exact (general_mounts_in_order oneConfigMap gcpSecrets
           (stateOf [annotatedPod]) 0 annotatedPod sparkContainer
           eq_refl eq_refl).
Defined.

Lemma syncSparkPod_patched_copy_witness :
  ∃ r err st' copy added,
    syncSparkPod testConfig testSecret (testWorld "ns/driver-1" (Some driverPod))
      "ns/driver-1" (stateOf []) = (Ret (r, err), st')
    ∧ heap st' !! 1 = Some copy
    ∧ isInitializerPresent copy = false
    ∧ apiv1.Namespace copy = "ns"
    ∧ apiv1.Name copy = "driver-1"
    ∧ apiv1.Labels copy = apiv1.Labels driverPod
    ∧ apiv1.Annotations copy = apiv1.Annotations driverPod
    ∧ apiv1.OwnerReferences copy = [] ++ added
    ∧ length added ≤ 1
    ∧ (apiv1.Annotations driverPod !! "owner-reference" = None → added = [])
    ∧ length (apiv1.Containers copy) = 1
    ∧ (∀ i, 0 < i → apiv1.Containers copy !! i = apiv1.Containers driverPod !! i)
    ∧ (err = None ↔
       ∃ originalData modifiedData patch p',
         json_Marshal (testWorld "ns/driver-1" (Some driverPod)) driverPod
         = inr originalData
         ∧ json_Marshal (testWorld "ns/driver-1" (Some driverPod)) copy
           = inr modifiedData
         ∧ CreateTwoWayMergePatch (testWorld "ns/driver-1" (Some driverPod))
             originalData modifiedData = inr patch
         ∧ pods_Patch (testWorld "ns/driver-1" (Some driverPod)) "ns" "driver-1"
             patch = inr p').
Proof.
  exact (syncSparkPod_patched_copy testConfig testSecret
           (testWorld "ns/driver-1" (Some driverPod)) "ns/driver-1" "ns"
           "driver-1" None (stateOf []) driverPod eq_refl eq_refl eq_refl
           ltac:(discriminate)).
Defined.

Lemma patchPod_submits_once_witness :
  heap (stateOf [driverPod; utilPod]) !! 0 = Some driverPod
  ∧ heap (stateOf [driverPod; utilPod]) !! 1 = Some utilPod
  ∧ ∃ r err st' events,
      patchPod (testWorld "ns/driver-1" (Some driverPod)) (Ptr 0) (Ptr 1)
        (stateOf [driverPod; utilPod]) = (Ret (r, err), st')
      ∧ trace st' = trace (stateOf [driverPod; utilPod]) ++ events
      ∧ configs st' = configs (stateOf [driverPod; utilPod]).
Proof.
  split; [reflexivity|]. split; [reflexivity|].
  destruct (patchPod_submits_once (testWorld "ns/driver-1" (Some driverPod))
              (stateOf [driverPod; utilPod]) 0 1 driverPod utilPod
              eq_refl eq_refl)
    as (r & err & st' & events & Hrun & Htr & Hcfg & _).
  by exists r, err, st', events.
Defined.

Lemma processNextItem_on_fetch_failure_witness :
  processNextItem (testWorld "ns/driver-1" None)
    (New testConfig testSecret (testWorld "ns/driver-1" None)) (stateOf [])
  = (Ret true,
     {| heap := []; configs := ∅;
        trace := [QueueGet; PodsGet "ns" "driver-1";
                  QueueForget "ns/driver-1"; QueueDone "ns/driver-1"] |}).
Proof.
  exact (processNextItem_on_fetch_failure testConfig testSecret
           (testWorld "ns/driver-1" None) "ns/driver-1" "ns" "driver-1" None
           (StatusError StatusReasonNotFound "driver-1") (stateOf [])
           eq_refl eq_refl eq_refl).
Defined.

Lemma enqueued_key_fetches_the_pod_witness :
  ∃ key,
    onPodAdded (testWorld "ns/driver-1" (Some driverPod)) (PodObject (Ptr 0))
      (stateOf [driverPod])
    = (Ret (), add_event (QueueAddRateLimited key) (stateOf [driverPod]))
    ∧ ∀ st2, ∃ r err st3 events,
        syncSparkPod testConfig testSecret
          (testWorld "ns/driver-1" (Some driverPod)) key st2 = (Ret (r, err), st3)
        ∧ trace st3 = trace st2 ++ PodsGet "ns" "driver-1" :: events.
Proof.
  assert (hasSentinel driverPod) as Hs.
  { eexists. split; [reflexivity|]. simpl. set_solver. }
  assert (hasSparkRole driverPod) as Hr by (by left).
  assert (¬ hasByte slash "ns") as Hns
    by (unfold hasByte; simpl; intuition discriminate).
  assert (¬ hasByte slash "driver-1") as Hname
    by (unfold hasByte; simpl; intuition discriminate).
  exact (enqueued_key_fetches_the_pod testConfig testSecret
           (testWorld "ns/driver-1" (Some driverPod)) (stateOf [driverPod]) 0
           driverPod eq_refl Hs Hr Hns Hname).
Defined.

Lemma processNextItem_shutdown_and_panic_witness :
  processNextItem (testWorld "ns/driver-1" None)
    {| syncHandler := λ _, panic "handler failed" |} (stateOf [])
  = (Panic "handler failed",
     add_event (QueueDone "ns/driver-1") (add_event QueueGet (stateOf []))).
Proof.
  exact (proj2 (processNextItem_shutdown_and_panic
                  (testWorld "ns/driver-1" None)
                  {| syncHandler := λ _, panic "handler failed" |}
                  "ns/driver-1" (stateOf []))
           "handler failed" (add_event QueueGet (stateOf [])) eq_refl eq_refl).
Defined.

(** ** The worker loop *)

Lemma processNextItem_turn config secret w key st :
  queue_Get w = (key, false) →
  ∃ st' calls,
    processNextItem w (New config secret w) st = (Ret true, st')
    ∧ trace st' = trace st ++ calls
    ∧ List.filter isQueueGet calls = [QueueGet]
    ∧ List.filter isQueueDone calls = [QueueDone key]
    ∧ configs st' = configs st
    ∧ (∀ l x, heap st !! l = Some x → heap st' !! l = Some x).
Proof.
  intros Hq.
  pose proof (syncSparkPod_summary config secret w key (add_event QueueGet st))
    as Hsum.
  destruct (getNamespaceName key) as [[namespace name] err0].
  destruct Hsum as (r & err & st1 & events & Hsync & Htr & Hqc & Hframe & _ & Hcfg & _).
  destruct (processNextItem_run w _ key st r err st1 Hq Hsync)
    as (st' & Hproc & Hheap & Hcfg' & Htr').
  assert (∀ (P : Event → bool),
            (∀ e, P e = true → isQueueCall e = true) →
            List.filter P events = []) as Hnone.
  { intros P HP. clear -Hqc HP. unfold queueCalls in Hqc.
    induction events as [|e events IH]; [done|]. simpl in *.
    destruct (P e) eqn:HPe.
    - rewrite (HP e HPe) in Hqc. discriminate.
    - apply IH. by destruct (isQueueCall e). }
  exists st', ((QueueGet :: PodsGet namespace name :: events) ++
               match err with
               | None => [QueueForget key; QueueDone key]
               | Some e =>
                   [HandleError (Errorf "failed to sync pod %q: %v"
                                   [ArgString key; ArgError e]);
                    QueueAddRateLimited key; QueueDone key]
               end).
  split; [done|].
  split; [by rewrite Htr', Htr; simpl; rewrite <- !app_assoc|].
  split.
  { rewrite List.filter_app. simpl.
    rewrite (Hnone isQueueGet) by (by intros []). by destruct err. }
  split.
  { rewrite List.filter_app. simpl.
    rewrite (Hnone isQueueDone) by (by intros []). by destruct err. }
  split; [by rewrite Hcfg'|].
  intros l x Hl. rewrite Hheap. by apply Hframe.
Qed.

(** X15: the worker loop runs until the queue reports its shutdown.  When
    the queue hands out a key in each of the first turns and then shuts
    down, runWorker returns: it has asked the queue once per turn, has
    called Done exactly once for each key, in the order it got them, and
    has left the registration and every object that existed as they were.
    What the environment would answer after the shutdown plays no part. *)
Theorem runWorker_stops_at_shutdown (config : ConfigPackage)
    (secret : SecretPackage) (turns : list World) (last : World)
    (later : list World) (st : State) :
  Forall (λ w, (queue_Get w).2 = false) turns →
  (queue_Get last).2 = true →
  ∃ st' calls,
    runWorker config secret (turns ++ last :: later) st = (Ret (Some ()), st')
    ∧ trace st' = trace st ++ calls
    ∧ List.filter isQueueGet calls = replicate (S (length turns)) QueueGet
    ∧ List.filter isQueueDone calls
      = (λ w, QueueDone (queue_Get w).1) <$> turns
    ∧ configs st' = configs st
    ∧ (∀ l x, heap st !! l = Some x → heap st' !! l = Some x).
Proof.
  intros Hturns Hlast. revert st.
  induction Hturns as [|w turns Hw Hturns IH]; intros st.
  - simpl. destruct (queue_Get last) as [key quit] eqn:Hq. simpl in Hlast.
    subst quit.
    assert (processNextItem last (New config secret last) st
            = (Ret false, add_event QueueGet st)) as Hrun.
    { unfold processNextItem.
      by rewrite (bind_Ret _ _ _ _ _ (emit_run _ _)), Hq. }
    rewrite (bind_Ret _ _ _ _ _ Hrun).
    exists (add_event QueueGet st), [QueueGet]. by split_and!.
  - simpl. destruct (queue_Get w) as [key quit] eqn:Hq. simpl in Hw.
    subst quit.
    destruct (processNextItem_turn config secret w key st Hq)
      as (st1 & calls1 & Hrun & Htr1 & Hget1 & Hdone1 & Hcfg1 & Hframe1).
    rewrite (bind_Ret _ _ _ _ _ Hrun).
    destruct (IH st1) as (st' & calls & Hloop & Htr & Hget & Hdone & Hcfg & Hframe).
    exists st', (calls1 ++ calls). split; [done|].
    split; [by rewrite Htr, Htr1, <- app_assoc|].
    split; [by rewrite List.filter_app, Hget1, Hget|].
    split; [by rewrite List.filter_app, Hdone1, Hdone|].
    split; [by rewrite Hcfg|].
    intros l x Hl. by apply Hframe, Hframe1.
Qed.

Lemma runWorker_stops_at_shutdown_witness :
  let stop :=
    {| queue_Get := (EmptyString, true);
       pods_Get := pods_Get (testWorld "ns/driver-1" None);
       pods_Update := pods_Update (testWorld "ns/driver-1" None);
       pods_Patch := pods_Patch (testWorld "ns/driver-1" None);
       DeepCopy_error := DeepCopy_error (testWorld "ns/driver-1" None);
       json_Marshal := json_Marshal (testWorld "ns/driver-1" None);
       CreateTwoWayMergePatch := CreateTwoWayMergePatch (testWorld "ns/driver-1" None);
       OwnerReference_Unmarshal :=
         OwnerReference_Unmarshal (testWorld "ns/driver-1" None);
       configs_fault := configs_fault (testWorld "ns/driver-1" None) |} in
  let turns := [testWorld "ns/driver-1" (Some driverPod);
                testWorld "ns/gone" None] in
  ∃ st' calls,
    runWorker testConfig testSecret (turns ++ stop :: []) (stateOf [])
    = (Ret (Some ()), st')
    ∧ trace st' = trace (stateOf []) ++ calls
    ∧ List.filter isQueueGet calls = [QueueGet; QueueGet; QueueGet]
    ∧ List.filter isQueueDone calls
      = [QueueDone "ns/driver-1"; QueueDone "ns/gone"]
    ∧ configs st' = configs (stateOf [])
    ∧ (∀ l x, heap (stateOf []) !! l = Some x → heap st' !! l = Some x).
Proof.
  intros stop turns.
  assert (Forall (λ w, (queue_Get w).2 = false) turns) as Hturns
    by (by repeat constructor).
  exact (runWorker_stops_at_shutdown testConfig testSecret turns stop []
           (stateOf []) Hturns eq_refl).
Defined.

(** ** Registration and deregistration *)

Section Registration.

Variable w : World.

Lemma Configs_Create_run c st :
  Configs_Create w c st =
    let st1 := add_event (ConfigCreate c) st in
    match configs_fault w OpCreate with
    | Some e => (Ret (emptyConfiguration, Some (External e)), st1)
    | None =>
        match configs st !! v1alpha1.ObjectName c with
        | Some _ =>
            (Ret (emptyConfiguration,
                  Some (alreadyExists (v1alpha1.ObjectName c))), st1)
        | None =>
            (Ret (c, None),
             set_configs (<[v1alpha1.ObjectName c := c]> (configs st)) st1)
        end
    end.
Proof.
  unfold Configs_Create. rewrite (bind_Ret _ _ _ _ _ (emit_run _ _)).
  unfold getState. rewrite bind_run. simpl.
  destruct (configs_fault w OpCreate); [done|].
  by destruct (configs st !! v1alpha1.ObjectName c).
Qed.

Lemma Configs_Update_run c st :
  Configs_Update w c st =
    let st1 := add_event (ConfigUpdate c) st in
    match configs_fault w OpUpdate with
    | Some e => (Ret (emptyConfiguration, Some (External e)), st1)
    | None =>
        match configs st !! v1alpha1.ObjectName c with
        | None =>
            (Ret (emptyConfiguration, Some (notFound (v1alpha1.ObjectName c))), st1)
        | Some _ =>
            (Ret (c, None),
             set_configs (<[v1alpha1.ObjectName c := c]> (configs st)) st1)
        end
    end.
Proof.
  unfold Configs_Update. rewrite (bind_Ret _ _ _ _ _ (emit_run _ _)).
  unfold getState. rewrite bind_run. simpl.
  destruct (configs_fault w OpUpdate); [done|].
  by destruct (configs st !! v1alpha1.ObjectName c).
Qed.

Lemma Configs_Delete_run name st :
  Configs_Delete w name st =
    let st1 := add_event (ConfigDelete name) st in
    match configs_fault w OpDelete with
    | Some e => (Ret (Some (External e)), st1)
    | None =>
        match configs st !! name with
        | None => (Ret (Some (notFound name)), st1)
        | Some _ => (Ret None, set_configs (delete name (configs st)) st1)
        end
    end.
Proof.
  unfold Configs_Delete. rewrite (bind_Ret _ _ _ _ _ (emit_run _ _)).
  unfold getState. rewrite bind_run. simpl.
  destruct (configs_fault w OpDelete); [done|].
  by destruct (configs st !! name).
Qed.

Lemma addInitializationConfig_summary (st : State) :
  recordNamed st →
  ∃ err st' events,
    addInitializationConfig w st = (Ret err, st')
    ∧ heap st' = heap st
    ∧ trace st' = trace st ++ ConfigGet initializerConfigName :: events
    ∧ (∀ name, name ≠ initializerConfigName →
               configs st' !! name = configs st !! name)
    ∧ (∀ e, err = Some e →
            configs st' = configs st
            ∧ ∃ format cause, e = Errorf format [ArgError (External cause)])
    ∧ (err = None →
         ∃ c', configs st' !! initializerConfigName = Some c'
               ∧ v1alpha1.ObjectName c' = initializerConfigName
               ∧ initializerName ∈ (v1alpha1.Name <$> v1alpha1.Initializers c')
               ∧ ∀ c, configs st !! initializerConfigName = Some c →
                      v1alpha1.Initializers c `prefix_of` v1alpha1.Initializers c').
Proof.
  intros Hnamed. unfold addInitializationConfig.
  rewrite bind_run, Configs_Get_run. cbv zeta.
  assert (∃ err st' events,
            (Configs_Create w sparkPodInitializerConfig
             ≫= λ '(_, err),
                  match err with
                  | Some e =>
                      mret (Some (Errorf "failed to create InitializerConfiguration: %v"
                                    [ArgError e]))
                  | None => mret None
                  end) (add_event (ConfigGet initializerConfigName) st)
            = (Ret err, st')
            ∧ heap st' = heap st
            ∧ trace st' = trace st ++ ConfigGet initializerConfigName :: events
            ∧ (∀ name, name ≠ initializerConfigName →
                       configs st' !! name = configs st !! name)
            ∧ (∀ e, err = Some e →
                    configs st' = configs st
                    ∧ ∃ format cause, e = Errorf format [ArgError (External cause)])
            ∧ (err = None →
                 configs st !! initializerConfigName = None
                 ∧ configs st' !! initializerConfigName
                   = Some sparkPodInitializerConfig)) as Hcreate.
  { rewrite bind_run, Configs_Create_run. simpl.
    destruct (configs_fault w OpCreate) as [e|].
    { eexists _, _, [_]. split; [reflexivity|]. simpl.
      split_and!; try done.
      - by rewrite <- app_assoc.
      - intros ? [= <-]. eauto. }
    destruct (configs st !! initializerConfigName) as [c|] eqn:Hc.
    { eexists _, _, [_]. split; [reflexivity|]. simpl.
      split_and!; try done.
      - by rewrite <- app_assoc.
      - intros ? [= <-]. unfold alreadyExists. eauto. }
    eexists _, _, [_]. split; [reflexivity|]. simpl.
    split_and!; try done.
    - by rewrite <- app_assoc.
    - intros name Hname. by rewrite lookup_insert_ne.
    - intros _. split; [done|]. apply lookup_insert_eq. }
  assert (initializerName ∈ (v1alpha1.Name <$> [sparkPodInitializer])) as Hself
    by (by apply list_elem_of_singleton).
  destruct (configs_fault w OpGet) as [e|].
  { cbv beta iota. destruct (IsNotFound (External e)) eqn:Hnf.
    - destruct Hcreate as (err & st' & events & Hrun & Hheap & Htr & Hother & Herr & Hok).
      exists err, st', events. split; [exact Hrun|]. split_and!; try done.
      intros Hnone. destruct (Hok Hnone) as [Habsent Hpresent].
      exists sparkPodInitializerConfig. split_and!; try done.
      intros c Hc. by rewrite Habsent in Hc.
    - eexists _, _, []. split; [reflexivity|]. split_and!; try done.
      intros ? [= <-]. eauto. }
  destruct (configs st !! initializerConfigName) as [c|] eqn:Hc.
  2:{ cbv beta iota. unfold notFound, IsNotFound.
      destruct Hcreate as (err & st' & events & Hrun & Hheap & Htr & Hother & Herr & Hok).
      exists err, st', events. split; [exact Hrun|]. split_and!; try done.
      intros Hnone. destruct (Hok Hnone) as [Habsent Hpresent].
      exists sparkPodInitializerConfig. split_and!; try done. }
  cbv beta iota zeta. destruct (findSelf (v1alpha1.Initializers c)) eqn:Hfind.
  { eexists _, _, [_]. split; [reflexivity|]. simpl. split_and!; try done.
    - by rewrite <- app_assoc.
    - intros _. exists c. split_and!; try done.
      + by apply Hnamed.
      + by apply findSelf_spec.
      + by intros ? [= <-]. }
  rewrite (bind_Ret _ _ _ _ _ (glog_run _ _ _)).
  rewrite (bind_Ret _ _ _ _ _ (glog_run _ _ _)).
  rewrite bind_run, Configs_Update_run. simpl.
  rewrite (Hnamed c Hc).
  destruct (configs_fault w OpUpdate) as [e|].
  { eexists _, _, [_; _; _]. split; [reflexivity|]. simpl. split_and!; try done.
    - by rewrite <- !app_assoc.
    - intros ? [= <-]. eauto. }
  rewrite Hc.
  eexists _, _, [_; _; _]. split; [reflexivity|]. simpl. split_and!; try done.
  - by rewrite <- !app_assoc.
  - intros name Hname. by rewrite lookup_insert_ne.
  - intros _. eexists. split; [apply lookup_insert_eq|]. simpl.
    split; [by apply Hnamed|]. split.
    + rewrite fmap_app. apply elem_of_app. by right.
    + intros ? [= <-]. by apply prefix_app_r.
Qed.

(** X16: addInitializationConfig always returns, touches no pod and no
    registration record other than its own, and begins with the Get.  When
    it returns an error, the records are as they were and the error is the
    API's error wrapped once.  When it returns nil, its record exists,
    holds an entry with this initializer's name, and begins with the
    entries the record held before, in their order. *)
Theorem addInitializationConfig_outcomes (st : State) :
  recordNamed st →
  ∃ err st' events,
    addInitializationConfig w st = (Ret err, st')
    ∧ heap st' = heap st
    ∧ trace st' = trace st ++ ConfigGet initializerConfigName :: events
    ∧ (∀ name, name ≠ initializerConfigName →
               configs st' !! name = configs st !! name)
    ∧ (∀ e, err = Some e →
            configs st' = configs st
            ∧ ∃ format cause, e = Errorf format [ArgError (External cause)])
    ∧ (err = None →
         ∃ c', configs st' !! initializerConfigName = Some c'
               ∧ v1alpha1.ObjectName c' = initializerConfigName
               ∧ initializerName ∈ (v1alpha1.Name <$> v1alpha1.Initializers c')
               ∧ ∀ c, configs st !! initializerConfigName = Some c →
                      v1alpha1.Initializers c `prefix_of` v1alpha1.Initializers c').
Proof. apply addInitializationConfig_summary. Qed.

Lemma addInitializationConfig_found st c :
  configs_fault w OpGet = None →
  configs st !! initializerConfigName = Some c →
  findSelf (v1alpha1.Initializers c) = true →
  addInitializationConfig w st
  = (Ret None,
     add_event
       (Glog WARNING
          "InitializerConfiguration %s with Initializer %s already exists")
       (add_event (ConfigGet initializerConfigName) st)).
Proof.
  intros Hget Hc Hfind. unfold addInitializationConfig.
  rewrite bind_run, Configs_Get_run, Hget. cbv zeta. rewrite Hc.
  cbv beta iota zeta. by rewrite Hfind.
Qed.

(** X17: a call of addInitializationConfig that returned nil makes the
    next one a check only, whatever the record was before: the second call
    finds the entry, returns nil, warns, and calls neither Create nor
    Update. *)
Theorem addInitializationConfig_idempotent (st st' : State) :
  recordNamed st →
  configs_fault w OpGet = None →
  addInitializationConfig w st = (Ret None, st') →
  addInitializationConfig w st'
  = (Ret None,
     {| heap := heap st';
        configs := configs st';
        trace :=
          trace st' ++
          [ConfigGet initializerConfigName;
           Glog WARNING
             "InitializerConfiguration %s with Initializer %s already exists"] |}).
Proof.
  intros Hnamed Hget Hfirst.
  destruct (addInitializationConfig_summary st Hnamed)
    as (err & st0 & events & Hrun & _ & _ & _ & _ & Hok).
  rewrite Hfirst in Hrun. injection Hrun as <- <-.
  destruct (Hok eq_refl) as (c' & Hc' & _ & Hin & _).
  rewrite (addInitializationConfig_found st' c' Hget Hc')
    by (by apply findSelf_spec).
  unfold add_event. simpl. by rewrite <- app_assoc.
Qed.

Lemma deleteInitializationConfig_summary (st : State) :
  ∃ err st',
    deleteInitializationConfig w st = (Ret err, st')
    ∧ heap st' = heap st
    ∧ trace st' = trace st ++ [ConfigDelete initializerConfigName]
    ∧ (∀ name, name ≠ initializerConfigName →
               configs st' !! name = configs st !! name)
    ∧ (err = None ↔
       configs_fault w OpDelete = None
       ∧ is_Some (configs st !! initializerConfigName))
    ∧ (err = None → configs st' !! initializerConfigName = None)
    ∧ (∀ e, err = Some e →
            configs st' = configs st
            ∧ ∃ cause,
                e = Errorf "failed to delete InitializerConfiguration: %v"
                      [ArgError (External cause)]).
Proof.
  unfold deleteInitializationConfig. rewrite bind_run, Configs_Delete_run.
  cbv zeta. destruct (configs_fault w OpDelete) as [e|].
  { eexists _, _. split; [reflexivity|]. simpl. split_and!; try done.
    - split; [done|]. by intros [? _].
    - intros ? [= <-]. eauto. }
  destruct (configs st !! initializerConfigName) as [c|] eqn:Hc.
  - eexists _, _. split; [reflexivity|]. simpl. split_and!; try done.
    + intros name Hname. by rewrite lookup_delete_ne.
    + intros _. apply lookup_delete_eq.
  - eexists _, _. split; [reflexivity|]. simpl. split_and!; try done.
    + split; [done|]. by intros [_ [? ?]].
    + intros ? [= <-]. unfold notFound. eauto.
Qed.

(** X18: deleteInitializationConfig deletes the whole record of the
    initializer, with every entry in it, and leaves the other records.
    When there is no record, or the call fails, it returns the API's
    error wrapped once and the records are as they were. *)
Theorem deleteInitializationConfig_outcomes (st : State) :
  ∃ err st',
    deleteInitializationConfig w st = (Ret err, st')
    ∧ heap st' = heap st
    ∧ trace st' = trace st ++ [ConfigDelete initializerConfigName]
    ∧ (∀ name, name ≠ initializerConfigName →
               configs st' !! name = configs st !! name)
    ∧ (err = None ↔
       configs_fault w OpDelete = None
       ∧ is_Some (configs st !! initializerConfigName))
    ∧ (err = None → configs st' !! initializerConfigName = None)
    ∧ (∀ e, err = Some e →
            configs st' = configs st
            ∧ ∃ cause,
                e = Errorf "failed to delete InitializerConfiguration: %v"
                      [ArgError (External cause)]).
Proof. apply deleteInitializationConfig_summary. Qed.

(** X19: registration followed by deregistration leaves no record, when
    the API does not fail: the record is gone together with the entries
    of other initializers it held before the registration, and the other
    records are as they were. *)
Theorem register_then_deregister (st : State) :
  recordNamed st →
  (∀ op, configs_fault w op = None) →
  ∃ st1 st2,
    addInitializationConfig w st = (Ret None, st1)
    ∧ deleteInitializationConfig w st1 = (Ret None, st2)
    ∧ configs st2 = delete initializerConfigName (configs st)
    ∧ heap st2 = heap st.
Proof.
  intros Hnamed Hfaults.
  destruct (addInitializationConfig_summary st Hnamed)
    as (err & st1 & events & Hadd & Hheap1 & _ & Hother1 & Herr & Hok).
  assert (err = None) as ->.
  { destruct err as [e|]; [|done]. exfalso. clear Hok. revert Hadd.
    unfold addInitializationConfig.
    rewrite bind_run, Configs_Get_run, Hfaults. cbv zeta.
    destruct (configs st !! initializerConfigName) as [c|] eqn:Hc;
      cbv beta iota zeta.
    - destruct (findSelf (v1alpha1.Initializers c)); [done|].
      rewrite (bind_Ret _ _ _ _ _ (glog_run _ _ _)).
      rewrite (bind_Ret _ _ _ _ _ (glog_run _ _ _)).
      rewrite bind_run, Configs_Update_run, Hfaults. cbv zeta. simpl.
      rewrite (Hnamed c Hc), Hc. done.
    - unfold notFound, IsNotFound.
      rewrite bind_run, Configs_Create_run, Hfaults. cbv zeta. simpl.
      rewrite Hc. done. }
  destruct (Hok eq_refl) as (c' & Hc' & _).
  destruct (deleteInitializationConfig_summary st1)
    as (err & st2 & Hdel & Hheap2 & _ & Hother2 & Hiff & Hgone & _).
  assert (err = None) as ->.
  { apply Hiff. split; [apply Hfaults|]. by exists c'. }
  exists st1, st2. split; [done|]. split; [done|]. split.
  - apply map_eq. intros name.
    destruct (decide (name = initializerConfigName)) as [->|Hname].
    + rewrite lookup_delete_eq. by apply Hgone.
    + rewrite lookup_delete_ne by done. by rewrite Hother2, Hother1.
  - by rewrite Hheap2.
Qed.

End Registration.

Lemma addInitializationConfig_outcomes_witness :
  recordNamed (stateOf [])
  ∧ ∃ err st' events,
      addInitializationConfig (testWorld "ns/driver-1" None) (stateOf [])
      = (Ret err, st')
      ∧ heap st' = heap (stateOf [])
      ∧ trace st'
        = trace (stateOf []) ++ ConfigGet initializerConfigName :: events.
Proof.
  assert (recordNamed (stateOf [])) as Hnamed.
  { intros c Hc. simpl in Hc. rewrite lookup_empty in Hc. discriminate Hc. }
  split; [exact Hnamed|].
  destruct (addInitializationConfig_outcomes (testWorld "ns/driver-1" None)
              (stateOf []) Hnamed)
    as (err & st' & events & Hrun & Hheap & Htr & _).
  by exists err, st', events.
Defined.

Lemma register_then_deregister_witness :
  recordNamed (stateOf [])
  ∧ (∀ op, configs_fault (testWorld "ns/driver-1" None) op = None)
  ∧ ∃ st1 st2,
      addInitializationConfig (testWorld "ns/driver-1" None) (stateOf [])
      = (Ret None, st1)
      ∧ deleteInitializationConfig (testWorld "ns/driver-1" None) st1
        = (Ret None, st2)
      ∧ configs st2 = delete initializerConfigName (configs (stateOf []))
      ∧ heap st2 = heap (stateOf []).
Proof.
  assert (recordNamed (stateOf [])) as Hnamed.
  { intros c Hc. simpl in Hc. rewrite lookup_empty in Hc. discriminate Hc. }
  assert (∀ op, configs_fault (testWorld "ns/driver-1" None) op = None)
    as Hfaults by reflexivity.
  split; [exact Hnamed|]. split; [exact Hfaults|].
  exact (register_then_deregister (testWorld "ns/driver-1" None) (stateOf [])
           Hnamed Hfaults).
Defined.

Lemma addInitializationConfig_idempotent_witness :
  ∃ st',
    addInitializationConfig (testWorld "ns/driver-1" None) (stateOf [])
    = (Ret None, st')
    ∧ addInitializationConfig (testWorld "ns/driver-1" None) st'
      = (Ret None,
         {| heap := heap st';
            configs := configs st';
            trace :=
              trace st' ++
              [ConfigGet initializerConfigName;
               Glog WARNING
                 "InitializerConfiguration %s with Initializer %s already exists"] |}).
Proof.
  assert (recordNamed (stateOf [])) as Hnamed.
  { intros c Hc. simpl in Hc. rewrite lookup_empty in Hc. discriminate Hc. }
  eexists. split; [reflexivity|].
  exact (addInitializationConfig_idempotent (testWorld "ns/driver-1" None)
           (stateOf []) _ Hnamed eq_refl eq_refl).
Defined.

Lemma handleNonSparkPod_outcomes_witness :
  heap (stateOf [resultPod]) !! 0 = Some resultPod
  ∧ ∃ err st' events submitted,
      handleNonSparkPod (testWorld "ns/util-2" None) (Ptr 0) (stateOf [resultPod])
      = (Ret err, st')
      ∧ trace st' = trace (stateOf [resultPod]) ++ events
      ∧ List.filter isSubmission events = [PodsUpdate submitted]
      ∧ apiv1.Initializers resultPod
        = Some {| metav1.Pending := [selfEntry];
                  metav1.Result := Some {| metav1.Message := "pending" |} |}
      ∧ apiv1.Initializers submitted = None.
Proof.
  split; [reflexivity|].
  destruct (handleNonSparkPod_outcomes (testWorld "ns/util-2" None)
              (stateOf [resultPod]) 0 resultPod eq_refl)
    as (err & st' & events & Hrun & Htr & _ & Hcopied).
  destruct (Hcopied eq_refl)
    as (submitted & Hsub & _ & _ & _ & _ & _ & _ & _ & _ & Hinit & _).
  exists err, st', events, submitted.
  split; [exact Hrun|]. split; [exact Htr|]. split; [exact Hsub|].
  split; [reflexivity|]. exact Hinit.
Defined.

Lemma addOwnerReference_appends_witness :
  heap (stateOf [driverPod]) !! 0 = Some driverPod
  ∧ addOwnerReference testConfig (testWorld "ns/driver-1" None) (Ptr 0)
      (stateOf [driverPod]) = (Ret (), stateOf [driverPod]).
Proof.
  split; [reflexivity|].
  exact (proj1 (addOwnerReference_appends testConfig
                  (testWorld "ns/driver-1" None) (stateOf [driverPod]) 0
                  driverPod eq_refl) eq_refl).
Defined.

Lemma deleteInitializationConfig_outcomes_witness :
  let registered :=
    {| heap := [];
       configs := {[ initializerConfigName := sparkPodInitializerConfig ]};
       trace := [] |} in
  ∃ err st',
    deleteInitializationConfig (testWorld "ns/driver-1" None) registered
    = (Ret err, st')
    ∧ err = None
    ∧ configs st' !! initializerConfigName = None.
Proof.
  intros registered.
  destruct (deleteInitializationConfig_outcomes (testWorld "ns/driver-1" None)
              registered)
    as (err & st' & Hrun & _ & _ & _ & Hiff & Hgone & _).
  assert (err = None) as Herr.
  { apply Hiff. split; [reflexivity|]. exists sparkPodInitializerConfig.
    apply lookup_singleton_eq. }
  exists err, st'. split; [exact Hrun|]. split; [exact Herr|]. exact (Hgone Herr).
Defined.
